(** * Distributed caching system: consistent-hash ring and cache node

    A shallow embedding of [consistent_hash.cpp] (the hash ring and the node
    registry), [cache_server.cpp] (routing, local store, RPC service
    handlers) and [grpc_client.cpp] (the peer RPC client), with the
    properties of the specification stated and proved over it. *)

From Stdlib Require Import ZArith Lia List Ascii String.
From stdpp Require Import base tactics option list sorting gmap strings pretty.

Local Open Scope Z_scope.

(** ** The MD5 digest (OpenSSL's [MD5], RFC 1321)

    [ConsistentHash::hash] calls the library function [MD5]; it is written
    out here after RFC 1321 so that the ring can be evaluated on concrete
    node identifiers.  32-bit words are [Z] with the wrap-around explicit. *)

Module MD5.

Definition mask32 (x : Z) : Z := Z.land x 0xFFFFFFFF.

Definition add32 (x y : Z) : Z := mask32 (x + y).

Definition not32 (x : Z) : Z := Z.lxor x 0xFFFFFFFF.

Definition rotl32 (x s : Z) : Z :=
  mask32 (Z.lor (Z.shiftl x s) (Z.shiftr x (32 - s))).

Definition K : list Z :=
  [ 0xd76aa478; 0xe8c7b756; 0x242070db; 0xc1bdceee;
    0xf57c0faf; 0x4787c62a; 0xa8304613; 0xfd469501;
    0x698098d8; 0x8b44f7af; 0xffff5bb1; 0x895cd7be;
    0x6b901122; 0xfd987193; 0xa679438e; 0x49b40821;
    0xf61e2562; 0xc040b340; 0x265e5a51; 0xe9b6c7aa;
    0xd62f105d; 0x02441453; 0xd8a1e681; 0xe7d3fbc8;
    0x21e1cde6; 0xc33707d6; 0xf4d50d87; 0x455a14ed;
    0xa9e3e905; 0xfcefa3f8; 0x676f02d9; 0x8d2a4c8a;
    0xfffa3942; 0x8771f681; 0x6d9d6122; 0xfde5380c;
    0xa4beea44; 0x4bdecfa9; 0xf6bb4b60; 0xbebfbc70;
    0x289b7ec6; 0xeaa127fa; 0xd4ef3085; 0x04881d05;
    0xd9d4d039; 0xe6db99e5; 0x1fa27cf8; 0xc4ac5665;
    0xf4292244; 0x432aff97; 0xab9423a7; 0xfc93a039;
    0x655b59c3; 0x8f0ccc92; 0xffeff47d; 0x85845dd1;
    0x6fa87e4f; 0xfe2ce6e0; 0xa3014314; 0x4e0811a1;
    0xf7537e82; 0xbd3af235; 0x2ad7d2bb; 0xeb86d391 ].

Definition S : list Z :=
  [ 7; 12; 17; 22; 7; 12; 17; 22; 7; 12; 17; 22; 7; 12; 17; 22;
    5; 9; 14; 20; 5; 9; 14; 20; 5; 9; 14; 20; 5; 9; 14; 20;
    4; 11; 16; 23; 4; 11; 16; 23; 4; 11; 16; 23; 4; 11; 16; 23;
    6; 10; 15; 21; 6; 10; 15; 21; 6; 10; 15; 21; 6; 10; 15; 21 ].

Definition nthZ (l : list Z) (i : Z) : Z := nth (Z.to_nat i) l 0.

(** The four chaining words A, B, C, D. *)
Record state := mk { a : Z; b : Z; c : Z; d : Z }.

Definition init : state :=
  {| a := 0x67452301; b := 0xefcdab89; c := 0x98badcfe; d := 0x10325476 |}.

(** Little-endian assembly of the 32-bit word at byte offset [4 * g]. *)
Definition word_at (block : list Z) (g : Z) : Z :=
  Z.lor (nthZ block (4 * g))
    (Z.lor (Z.shiftl (nthZ block (4 * g + 1)) 8)
       (Z.lor (Z.shiftl (nthZ block (4 * g + 2)) 16)
          (Z.shiftl (nthZ block (4 * g + 3)) 24))).

Definition step (block : list Z) (st : state) (i : Z) : state :=
  let '(f, g) :=
    if i <? 16 then
      (Z.lor (Z.land (b st) (c st)) (Z.land (not32 (b st)) (d st)), i)
    else if i <? 32 then
      (Z.lor (Z.land (d st) (b st)) (Z.land (not32 (d st)) (c st)),
       (5 * i + 1) mod 16)
    else if i <? 48 then
      (Z.lxor (b st) (Z.lxor (c st) (d st)), (3 * i + 5) mod 16)
    else
      (Z.lxor (c st) (Z.lor (b st) (not32 (d st))), (7 * i) mod 16) in
  let f' := add32 (add32 (add32 f (a st)) (nthZ K i)) (word_at block g) in
  {| a := d st; b := add32 (b st) (rotl32 f' (nthZ S i));
     c := b st; d := c st |}.

Definition compress (st : state) (block : list Z) : state :=
  let st' := fold_left (step block) (map Z.of_nat (seq 0 64)) st in
  {| a := add32 (a st) (a st'); b := add32 (b st) (b st');
     c := add32 (c st) (c st'); d := add32 (d st) (d st') |}.

Definition le_bytes (n : nat) (x : Z) : list Z :=
  map (fun i => Z.land (Z.shiftr x (8 * Z.of_nat i)) 0xFF) (seq 0 n).

(** Padding: one 0x80 byte, zeros up to 56 modulo 64, then the bit length
    as a 64-bit little-endian integer. *)
Definition pad (msg : list Z) : list Z :=
  let len := Z.of_nat (length msg) in
  let zeros := Z.to_nat ((55 - len) mod 64) in
  msg ++ [0x80] ++ repeat 0 zeros ++ le_bytes 8 ((8 * len) mod 2 ^ 64).

Fixpoint blocks (n : nat) (bytes : list Z) (st : state) : state :=
  match n with
  | O => st
  | Datatypes.S n' => blocks n' (skipn 64 bytes) (compress st (firstn 64 bytes))
  end.

Definition bytes_of_string (s : string) : list Z :=
  map (fun ch => Z.of_N (N_of_ascii ch)) (list_ascii_of_string s).

(** The 16 digest bytes. *)
Definition digest (s : string) : list Z :=
  let p := pad (bytes_of_string s) in
  let st := blocks (Nat.div (length p) 64) p init in
  le_bytes 4 (a st) ++ le_bytes 4 (b st) ++ le_bytes 4 (c st)
    ++ le_bytes 4 (d st).

End MD5.

(** ** Nodes, exceptions *)

Module Node.
(** [struct Node] of [consistent_hash.h]; ports are C++ [int]s. *)
Record t := mk { id : string; host : string; grpc_port : Z; http_port : Z }.
End Node.

(** The two exceptions the ring can raise: [std::runtime_error] thrown by
    [getNode] on an empty ring, and [std::out_of_range] thrown by
    [unordered_map::at] on a missing key. *)
Inductive exception :=
  | runtime_error (what : string)
  | out_of_range.

Inductive outcome (A : Type) :=
  | Returns (x : A)
  | Throws (e : exception).
Arguments Returns {A} x.
Arguments Throws {A} e.

Definition NoNodesAvailable : exception := runtime_error "No nodes available".

(** ** [std::map<uint32_t, std::string>]: the ring

    The ordered map is its in-order sequence of entries, strictly ascending
    by key.  [ring_insert] is [ring_[h] = v], [ring_erase] is
    [ring_.erase(h)], [lower_bound] is [ring_.lower_bound(h)] (the first
    entry whose key is not less than [h], [None] for [end()]) and the head
    of the sequence is [ring_.begin()]. *)

Fixpoint ring_insert (h : Z) (v : string) (r : list (Z * string))
  : list (Z * string) :=
  match r with
  | [] => [(h, v)]
  | (k, w) :: r' =>
      if h <? k then (h, v) :: r
      else if h =? k then (k, v) :: r'
      else (k, w) :: ring_insert h v r'
  end.

Fixpoint ring_erase (h : Z) (r : list (Z * string)) : list (Z * string) :=
  match r with
  | [] => []
  | (k, w) :: r' =>
      if h <? k then r
      else if h =? k then r'
      else (k, w) :: ring_erase h r'
  end.

Fixpoint lower_bound (h : Z) (r : list (Z * string)) : option (Z * string) :=
  match r with
  | [] => None
  | (k, w) :: r' => if h <=? k then Some (k, w) else lower_bound h r'
  end.

(** The value stored at a position, for stating properties of the ring. *)
Fixpoint ring_find (h : Z) (r : list (Z * string)) : option string :=
  match r with
  | [] => None
  | (k, w) :: r' => if h =? k then Some w else ring_find h r'
  end.

(** The representation invariant of the ordered map. *)
Definition ring_sorted (r : list (Z * string)) : Prop :=
  StronglySorted Z.lt (r.*1).

(** Number of ring entries whose value is [nid]. *)
Definition ring_count (nid : string) (r : list (Z * string)) : nat :=
  length (filter (λ e, e.2 = nid) r).

(** ** [ConsistentHash] *)

Record ConsistentHash := mkConsistentHash {
  virtual_nodes_ : Z;
  ring_ : list (Z * string);
  nodes_ : gmap string Node.t
}.

(** Constructor: empty ring, empty registry. *)
Definition ConsistentHash_new (virtual_nodes : Z) : ConsistentHash :=
  {| virtual_nodes_ := virtual_nodes; ring_ := []; nodes_ := ∅ |}.

(** The first four digest bytes, assembled big-endian into a [uint32_t]. *)
Definition hash (str : string) : Z :=
  let digest := MD5.digest str in
  fold_left
    (λ result i, Z.lor (Z.shiftl result 8 mod 2 ^ 32) (MD5.nthZ digest i))
    [0; 1; 2; 3] 0.

(** [node_id + "#" + std::to_string(index)] *)
Definition getVirtualNodeKey (node_id : string) (index : Z) : string :=
  node_id +:+ "#" +:+ pretty index.

(** The values [i] takes in [for (int i = 0; i < virtual_nodes_; ++i)]. *)
Definition virtual_indices (virtual_nodes : Z) : list Z :=
  Z.of_nat <$> seq 0 (Z.to_nat virtual_nodes).

Definition addNode (ch : ConsistentHash) (node : Node.t) : ConsistentHash :=
  {| virtual_nodes_ := virtual_nodes_ ch;
     ring_ :=
       foldl (λ ring i,
                let virtual_key := getVirtualNodeKey (Node.id node) i in
                let hash_value := hash virtual_key in
                ring_insert hash_value (Node.id node) ring)
             (ring_ ch) (virtual_indices (virtual_nodes_ ch));
     nodes_ := <[Node.id node := node]> (nodes_ ch) |}.

Definition removeNode (ch : ConsistentHash) (node_id : string)
  : ConsistentHash :=
  match nodes_ ch !! node_id with
  | None => ch
  | Some _ =>
      {| virtual_nodes_ := virtual_nodes_ ch;
         ring_ :=
           foldl (λ ring i,
                    let virtual_key := getVirtualNodeKey node_id i in
                    let hash_value := hash virtual_key in
                    ring_erase hash_value ring)
                 (ring_ ch) (virtual_indices (virtual_nodes_ ch));
         nodes_ := delete node_id (nodes_ ch) |}
  end.

Definition getNode (ch : ConsistentHash) (key : string) : outcome Node.t :=
  match ring_ ch with
  | [] => Throws NoNodesAvailable
  | first :: _ =>
      let hash_value := hash key in
      let it :=
        match lower_bound hash_value (ring_ ch) with
        | None => first
        | Some e => e
        end in
      match nodes_ ch !! it.2 with
      | Some node => Returns node
      | None => Throws out_of_range
      end
  end.

Definition getAllNodes (ch : ConsistentHash) : list Node.t :=
  (map_to_list (nodes_ ch)).*2.

Definition hasNode (ch : ConsistentHash) (node_id : string) : bool :=
  bool_decide (is_Some (nodes_ ch !! node_id)).

(** Membership changes, and the ring states they reach from a fresh ring. *)
Inductive membership_op :=
  | AddNode (node : Node.t)
  | RemoveNode (node_id : string).

Definition apply_op (ch : ConsistentHash) (o : membership_op)
  : ConsistentHash :=
  match o with
  | AddNode node => addNode ch node
  | RemoveNode node_id => removeNode ch node_id
  end.

Definition run (virtual_nodes : Z) (ops : list membership_op)
  : ConsistentHash :=
  foldl apply_op (ConsistentHash_new virtual_nodes) ops.

(** Identifiers of the nodes a sequence of membership changes adds. *)
Definition added_ids (ops : list membership_op) : list string :=
  omap (λ o, match o with
             | AddNode node => Some (Node.id node)
             | RemoveNode _ => None
             end) ops.

(** The ring positions of a node's virtual nodes. *)
Definition positions (virtual_nodes : Z) (node_id : string) : list Z :=
  (λ i, hash (getVirtualNodeKey node_id i)) <$> virtual_indices virtual_nodes.

(** ** Predicates on ring states

    What every reachable ring state satisfies. *)

Record ring_inv (ch : ConsistentHash) : Prop := {
  inv_sorted : ring_sorted (ring_ ch);
  inv_entry : ∀ p nid,
    ring_find p (ring_ ch) = Some nid →
    is_Some (nodes_ ch !! nid) ∧ p ∈ positions (virtual_nodes_ ch) nid;
  inv_id : ∀ nid n, nodes_ ch !! nid = Some n → Node.id n = nid
}.

(** No two distinct virtual-node labels of the given nodes, whether of one
    node or of two, hash to the same ring position. *)
Definition collision_free (vn : Z) (ids : list string) : Prop :=
  ∀ id1 id2 i1 i2,
    id1 ∈ ids → id2 ∈ ids → 0 ≤ i1 < vn → 0 ≤ i2 < vn →
    hash (getVirtualNodeKey id1 i1) = hash (getVirtualNodeKey id2 i2) →
    id1 = id2 ∧ i1 = i2.

(** None of the virtual-node labels of [nid] shares its ring position with
    another label, be it another label of [nid] or a label of one of the
    given nodes. *)
Definition node_collision_free (vn : Z) (ids : list string) (nid : string)
  : Prop :=
  ∀ id' i j,
    id' ∈ ids → 0 ≤ i < vn → 0 ≤ j < vn →
    hash (getVirtualNodeKey nid i) = hash (getVirtualNodeKey id' j) →
    id' = nid ∧ j = i.

(** No two virtual-node labels of two different nodes hash to the same ring
    position. *)
Definition cross_node_collision_free (vn : Z) (ids : list string) : Prop :=
  ∀ id1 id2 i1 i2,
    id1 ∈ ids → id2 ∈ ids → id1 ≠ id2 → 0 ≤ i1 < vn → 0 ≤ i2 < vn →
    hash (getVirtualNodeKey id1 i1) ≠ hash (getVirtualNodeKey id2 i2).

(** A check that can be evaluated: none of the node's virtual positions is
    occupied in the ring. *)
Definition positions_free (vn : Z) (nid : string) (r : list (Z * string))
  : bool :=
  forallb (λ p, bool_decide (ring_find p r = None)) (positions vn nid).

(** ** The inter-node RPC messages *)

(** Modelled from the spec: the request and response messages of the gRPC
    service definition ([cache.proto], generated code), which are
    [Get(key) -> (found, value)], [Set(key, value) -> (success)],
    [Delete(key) -> (success)] and [Health() -> (healthy, node_id)]; a
    fresh response message holds the default of every field. *)
Record GetRequest := mkGetRequest { GetRequest_key : string }.
Record GetResponse := mkGetResponse {
  GetResponse_found : bool;
  GetResponse_value : string
}.
Record SetRequest := mkSetRequest {
  SetRequest_key : string;
  SetRequest_value : string
}.
Record SetResponse := mkSetResponse { SetResponse_success : bool }.
Record DeleteRequest := mkDeleteRequest { DeleteRequest_key : string }.
Record DeleteResponse := mkDeleteResponse { DeleteResponse_success : bool }.
Record HealthRequest := mkHealthRequest { }.
Record HealthResponse := mkHealthResponse {
  HealthResponse_healthy : bool;
  HealthResponse_node_id : string
}.

(** [grpc::Status]: [OK] or any failure of the transport or of the peer. *)
Inductive Status :=
  | OK
  | Failed.

Definition ok (status : Status) : bool :=
  match status with
  | OK => true
  | Failed => false
  end.

(** One call issued through a stub: the address of the stub's channel and
    the request sent on it. *)
Inductive rpc_call :=
  | CallGet (address : string) (request : GetRequest)
  | CallSet (address : string) (request : SetRequest)
  | CallDelete (address : string) (request : DeleteRequest)
  | CallHealth (address : string) (request : HealthRequest).

(** What the network and the peers answer to a call, given the calls this
    process has issued before it. *)
Record Peers := mkPeers {
  stub_Get : list rpc_call → string → GetRequest → Status * GetResponse;
  stub_Set : list rpc_call → string → SetRequest → Status * SetResponse;
  stub_Delete :
    list rpc_call → string → DeleteRequest → Status * DeleteResponse;
  stub_Health :
    list rpc_call → string → HealthRequest → Status * HealthResponse
}.

(** ** [GrpcClient] *)

Module GrpcClient.

(** [stubs_] is the connection pool; a stub is identified by the address of
    its channel, so the pool is the set of addresses that have one.
    [issued] is a ghost field: the calls issued through the stubs so far,
    oldest first. *)
Record t := mk {
  stubs_ : gset string;
  issued : list rpc_call
}.

Definition new : t := {| stubs_ := ∅; issued := [] |}.

(** [node.host + ":" + std::to_string(node.grpc_port)] *)
Definition getNodeAddress (node : Node.t) : string :=
  Node.host node +:+ ":" +:+ pretty (Node.grpc_port node).

(** Returns the pooled stub for the node's address, creating it on first
    use; [None] stands for a null pointer. *)
Definition getStub (c : t) (node : Node.t) : option string * t :=
  let address := getNodeAddress node in
  if decide (address ∈ stubs_ c) then (Some address, c)
  else (Some address,
        {| stubs_ := {[address]} ∪ stubs_ c; issued := issued c |}).

Definition record_call (c : t) (call : rpc_call) : t :=
  {| stubs_ := stubs_ c; issued := issued c ++ [call] |}.

Section calls.
Variable peers : Peers.

(** [value] is the caller's variable passed by reference; the second
    component of the result is its content on return. *)
Definition get (c : t) (node : Node.t) (key : string) (value : string)
  : bool * string * t :=
  let '(stub, c) := getStub c node in
  match stub with
  | None => (false, value, c)
  | Some address =>
      let request := {| GetRequest_key := key |} in
      let '(status, response) := stub_Get peers (issued c) address request in
      let c := record_call c (CallGet address request) in
      if ok status && GetResponse_found response
      then (true, GetResponse_value response, c)
      else (false, value, c)
  end.

Definition set (c : t) (node : Node.t) (key : string) (value : string)
  : bool * t :=
  let '(stub, c) := getStub c node in
  match stub with
  | None => (false, c)
  | Some address =>
      let request := {| SetRequest_key := key; SetRequest_value := value |} in
      let '(status, response) := stub_Set peers (issued c) address request in
      let c := record_call c (CallSet address request) in
      (ok status && SetResponse_success response, c)
  end.

Definition del (c : t) (node : Node.t) (key : string) : bool * t :=
  let '(stub, c) := getStub c node in
  match stub with
  | None => (false, c)
  | Some address =>
      let request := {| DeleteRequest_key := key |} in
      let '(status, response) :=
        stub_Delete peers (issued c) address request in
      let c := record_call c (CallDelete address request) in
      (ok status && DeleteResponse_success response, c)
  end.

Definition health (c : t) (node : Node.t) : bool * t :=
  let '(stub, c) := getStub c node in
  match stub with
  | None => (false, c)
  | Some address =>
      let request := mkHealthRequest in
      let '(status, response) :=
        stub_Health peers (issued c) address request in
      let c := record_call c (CallHealth address request) in
      (ok status && HealthResponse_healthy response, c)
  end.

End calls.

End GrpcClient.

(** ** [CacheServer] *)

Module CacheServer.

Record t := mk {
  node_id_ : string;
  host_ : string;
  grpc_port_ : Z;
  http_port_ : Z;
  local_cache_ : gmap string string;
  hash_ring_ : ConsistentHash;
  grpc_client_ : GrpcClient.t
}.

Definition with_local_cache (s : t) (cache : gmap string string) : t :=
  {| node_id_ := node_id_ s; host_ := host_ s; grpc_port_ := grpc_port_ s;
     http_port_ := http_port_ s; local_cache_ := cache;
     hash_ring_ := hash_ring_ s; grpc_client_ := grpc_client_ s |}.

Definition with_hash_ring (s : t) (ring : ConsistentHash) : t :=
  {| node_id_ := node_id_ s; host_ := host_ s; grpc_port_ := grpc_port_ s;
     http_port_ := http_port_ s; local_cache_ := local_cache_ s;
     hash_ring_ := ring; grpc_client_ := grpc_client_ s |}.

Definition with_grpc_client (s : t) (client : GrpcClient.t) : t :=
  {| node_id_ := node_id_ s; host_ := host_ s; grpc_port_ := grpc_port_ s;
     http_port_ := http_port_ s; local_cache_ := local_cache_ s;
     hash_ring_ := hash_ring_ s; grpc_client_ := client |}.

(** Constructor: a ring with 100 virtual nodes per physical node, holding
    this node. *)
Definition new (node_id host : string) (grpc_port http_port : Z) : t :=
  let self_node := Node.mk node_id host grpc_port http_port in
  {| node_id_ := node_id; host_ := host; grpc_port_ := grpc_port;
     http_port_ := http_port; local_cache_ := ∅;
     hash_ring_ := addNode (ConsistentHash_new 100) self_node;
     grpc_client_ := GrpcClient.new |}.

(** Any exception of the ring's [getNode] is caught and answered [true]. *)
Definition isLocalKey (s : t) (key : string) : bool :=
  match getNode (hash_ring_ s) key with
  | Returns target_node => bool_decide (Node.id target_node = node_id_ s)
  | Throws _ => true
  end.

(** [value] is the caller's variable passed by reference; the second
    component of the result is its content on return. *)
Definition getLocal (s : t) (key : string) (value : string) : bool * string :=
  match local_cache_ s !! key with
  | Some v => (true, v)
  | None => (false, value)
  end.

Definition setLocal (s : t) (key value : string) : bool * t :=
  (true, with_local_cache s (<[key := value]> (local_cache_ s))).

Definition delLocal (s : t) (key : string) : bool * t :=
  match local_cache_ s !! key with
  | Some _ => (true, with_local_cache s (delete key (local_cache_ s)))
  | None => (false, s)
  end.

Definition addNode (s : t) (node : Node.t) : t :=
  with_hash_ring s (addNode (hash_ring_ s) node).

Definition removeNode (s : t) (node_id : string) : t :=
  with_hash_ring s (removeNode (hash_ring_ s) node_id).

Section routing.
Variable peers : Peers.

(** In the three operations the second [getNode] is outside any handler, so
    an exception it raised would leave the operation. *)
Definition get (s : t) (key : string) (value : string)
  : outcome (bool * string) * t :=
  if isLocalKey s key then (Returns (getLocal s key value), s)
  else
    match getNode (hash_ring_ s) key with
    | Throws e => (Throws e, s)
    | Returns target_node =>
        let '(found, value, client) :=
          GrpcClient.get peers (grpc_client_ s) target_node key value in
        (Returns (found, value), with_grpc_client s client)
    end.

Definition set (s : t) (key value : string) : outcome bool * t :=
  if isLocalKey s key then
    let '(success, s) := setLocal s key value in (Returns success, s)
  else
    match getNode (hash_ring_ s) key with
    | Throws e => (Throws e, s)
    | Returns target_node =>
        let '(success, client) :=
          GrpcClient.set peers (grpc_client_ s) target_node key value in
        (Returns success, with_grpc_client s client)
    end.

Definition del (s : t) (key : string) : outcome bool * t :=
  if isLocalKey s key then
    let '(success, s) := delLocal s key in (Returns success, s)
  else
    match getNode (hash_ring_ s) key with
    | Throws e => (Throws e, s)
    | Returns target_node =>
        let '(success, client) :=
          GrpcClient.del peers (grpc_client_ s) target_node key in
        (Returns success, with_grpc_client s client)
    end.

End routing.

(** The service handlers. [response] starts as a fresh message. *)
Definition Get (s : t) (request : GetRequest) : Status * GetResponse * t :=
  let '(found, value) := getLocal s (GetRequest_key request) EmptyString in
  let response := {| GetResponse_found := found; GetResponse_value := EmptyString |} in
  let response :=
    if found
    then {| GetResponse_found := GetResponse_found response;
            GetResponse_value := value |}
    else response in
  (OK, response, s).

(** [CacheServer::Set]; [Set] alone is reserved. *)
Definition Set_ (s : t) (request : SetRequest) : Status * SetResponse * t :=
  let '(success, s) :=
    setLocal s (SetRequest_key request) (SetRequest_value request) in
  (OK, {| SetResponse_success := success |}, s).

Definition Delete (s : t) (request : DeleteRequest)
  : Status * DeleteResponse * t :=
  let '(success, s) := delLocal s (DeleteRequest_key request) in
  (OK, {| DeleteResponse_success := success |}, s).

Definition Health (s : t) (request : HealthRequest)
  : Status * HealthResponse * t :=
  (OK,
   {| HealthResponse_healthy := true; HealthResponse_node_id := node_id_ s |},
   s).

End CacheServer.

(** ** The deployed cluster

    The three nodes that [setupCluster] registers, with 100 virtual nodes
    each, as every [CacheServer] constructs its ring. *)

Definition server1 : Node.t := Node.mk "server1" "server1" 50051 9527.
Definition server2 : Node.t := Node.mk "server2" "server2" 50052 9528.
Definition server3 : Node.t := Node.mk "server3" "server3" 50053 9529.

Definition cluster_ops : list membership_op :=
  [AddNode server1; AddNode server2; AddNode server3].

(** The cluster after a fourth node, "node323053", registered first. *)
Definition guest_ops : list membership_op :=
  AddNode (Node.mk "node323053" "10.0.0.7" 50051 9527) :: cluster_ops.

(** Peers that are reachable and answer every call positively. *)
Definition answering_peers : Peers :=
  {| stub_Get := λ _ _ _,
       (OK, {| GetResponse_found := true; GetResponse_value := "Alice" |});
     stub_Set := λ _ _ _, (OK, {| SetResponse_success := true |});
     stub_Delete := λ _ _ _, (OK, {| DeleteResponse_success := true |});
     stub_Health := λ _ address _,
       (OK, {| HealthResponse_healthy := true;
               HealthResponse_node_id := address |}) |}.

(** The process started with [NODE_ID=server1], alone. *)
Definition node1_alone : CacheServer.t :=
  CacheServer.new "server1" "0.0.0.0" 50051 9527.

(** The same process after [setupCluster] has registered its two peers. *)
Definition node1 : CacheServer.t :=
  CacheServer.addNode (CacheServer.addNode node1_alone server2) server3.

(** The same process after its own identifier was removed from its ring. *)
Definition node1_unregistered : CacheServer.t :=
  CacheServer.removeNode node1_alone "server1".

(** ** The clockwise successor

    The ring entry [getNode] settles on for a hash value: the
    [lower_bound] entry, or [begin()] when [lower_bound] is [end()]; [None]
    on the empty ring. *)

Definition successor (h : Z) (r : list (Z * string)) : option (Z * string) :=
  match r with
  | [] => None
  | first :: _ => Some (default first (lower_bound h r))
  end.

(** [e] is the entry clockwise next to [h]: the entry of least position
    among those at or after [h], or of least position overall when no
    entry is at or after [h]. *)
Definition is_successor (h : Z) (r : list (Z * string)) (e : Z * string)
  : Prop :=
  e ∈ r ∧
  ((h ≤ e.1 ∧ ∀ e', e' ∈ r → h ≤ e'.1 → e.1 ≤ e'.1) ∨
   ((∀ e', e' ∈ r → e'.1 < h) ∧ ∀ e', e' ∈ r → e.1 ≤ e'.1)).

(** ** Sequences of client calls, and a peer that serves them *)

(** The operations of [GrpcClient], as a caller issues them. *)
Inductive client_op :=
  | ClientGet (node : Node.t) (key value : string)
  | ClientSet (node : Node.t) (key value : string)
  | ClientDel (node : Node.t) (key : string)
  | ClientHealth (node : Node.t).

Definition client_op_node (op : client_op) : Node.t :=
  match op with
  | ClientGet node _ _ | ClientSet node _ _ | ClientDel node _
  | ClientHealth node => node
  end.

Definition client_step (peers : Peers) (c : GrpcClient.t) (op : client_op)
  : GrpcClient.t :=
  match op with
  | ClientGet node key value => (GrpcClient.get peers c node key value).2
  | ClientSet node key value => (GrpcClient.set peers c node key value).2
  | ClientDel node key => (GrpcClient.del peers c node key).2
  | ClientHealth node => (GrpcClient.health peers c node).2
  end.

Definition call_address (call : rpc_call) : string :=
  match call with
  | CallGet address _ | CallSet address _ | CallDelete address _
  | CallHealth address _ => address
  end.

(** The process at the other end of a channel: it runs the service handler
    of each call it receives. *)
Definition handle_call (s : CacheServer.t) (call : rpc_call) : CacheServer.t :=
  match call with
  | CallGet _ request => (CacheServer.Get s request).2
  | CallSet _ request => (CacheServer.Set_ s request).2
  | CallDelete _ request => (CacheServer.Delete s request).2
  | CallHealth _ request => (CacheServer.Health s request).2
  end.

(** The state of the process listening at [address], started in [s0], after
    it has handled the calls of [log] that were sent to it. *)
Definition peer_state (address : string) (s0 : CacheServer.t)
    (log : list rpc_call) : CacheServer.t :=
  foldl handle_call s0 (filter (λ call, call_address call = address) log).

(** A network on which the only process is the one at [address], started in
    [s0]; it receives no call but those of the logged client, and answers
    each with its service handler.  Calls to any other address fail. *)
Definition served_by (address : string) (s0 : CacheServer.t) : Peers :=
  {| stub_Get := λ log a request,
       if decide (a = address)
       then (CacheServer.Get (peer_state address s0 log) request).1
       else (Failed, {| GetResponse_found := false;
                        GetResponse_value := EmptyString |});
     stub_Set := λ log a request,
       if decide (a = address)
       then (CacheServer.Set_ (peer_state address s0 log) request).1
       else (Failed, {| SetResponse_success := false |});
     stub_Delete := λ log a request,
       if decide (a = address)
       then (CacheServer.Delete (peer_state address s0 log) request).1
       else (Failed, {| DeleteResponse_success := false |});
     stub_Health := λ log a request,
       if decide (a = address)
       then (CacheServer.Health (peer_state address s0 log) request).1
       else (Failed, {| HealthResponse_healthy := false;
                        HealthResponse_node_id := EmptyString |}) |}.

(** Peers none of which can be reached. *)
Definition unreachable_peers : Peers :=
  {| stub_Get := λ _ _ _,
       (Failed, {| GetResponse_found := false;
                   GetResponse_value := EmptyString |});
     stub_Set := λ _ _ _, (Failed, {| SetResponse_success := false |});
     stub_Delete := λ _ _ _, (Failed, {| DeleteResponse_success := false |});
     stub_Health := λ _ _ _,
       (Failed, {| HealthResponse_healthy := false;
                   HealthResponse_node_id := EmptyString |}) |}.

(** ** [setupCluster] and [main] *)

(** Registers the two other nodes of the cluster on this process. *)
Definition setupCluster (server : CacheServer.t) (node_id : string)
  : CacheServer.t :=
  let server :=
    if decide (node_id ≠ "server1")
    then CacheServer.addNode server (Node.mk "server1" "server1" 50051 9527)
    else server in
  let server :=
    if decide (node_id ≠ "server2")
    then CacheServer.addNode server (Node.mk "server2" "server2" 50052 9528)
    else server in
  let server :=
    if decide (node_id ≠ "server3")
    then CacheServer.addNode server (Node.mk "server3" "server3" 50053 9529)
    else server in
  server.

(** [NODE_ID] is the environment variable, [None] when it is not set.  The
    result is the server once the cluster thread has run, or [None] when
    [main] returns 1 for an unknown node identifier. *)
Definition main (NODE_ID : option string) : option CacheServer.t :=
  let node_id := default "server1" NODE_ID in
  let host := "0.0.0.0" in
  let ports :=
    if decide (node_id = "server1") then Some (50051, 9527)
    else if decide (node_id = "server2") then Some (50052, 9528)
    else if decide (node_id = "server3") then Some (50053, 9529)
    else None in
  match ports with
  | None => None
  | Some (grpc_port, http_port) =>
      let server := CacheServer.new node_id host grpc_port http_port in
      Some (setupCluster server node_id)
  end.

(** * The HTTP front end (http_handler.cpp)

    The handler reads a request with one call of [recv], which delivers
    at most 4095 of the bytes that have arrived on the connection.  Two
    libraries sit below the handler and are not part of the program: the
    stream extraction [iss >> std::hex >> value] of the C++ library, and
    jsoncpp.  Both are parameters of the model, so that what is proved
    holds whatever they answer. *)

Module HttpHandler.

Definition NUL : ascii := "000".
Definition LF : ascii := "010".
Definition CR : ascii := "013".
Definition quote : ascii := "034".
Definition CRLF : string := String CR (String LF EmptyString).

(** ** [std::istringstream] *)

(** [std::isspace] in the C locale. *)
Definition isspace (c : ascii) : bool :=
  bool_decide (c ∈ [" "; "009"; "010"; "011"; "012"; "013"]%char).

(** [std::getline(iss, line)] on a stream whose unread part is [s] and is
    not empty: the characters before the first line feed, and the unread
    part after that line feed.  On an empty unread part the call extracts
    nothing and the stream turns false. *)
Fixpoint getline (s : string) : string * string :=
  match s with
  | EmptyString => (EmptyString, EmptyString)
  | String c s' =>
      if decide (c = LF) then (EmptyString, s')
      else let '(line, rest) := getline s' in (String c line, rest)
  end.

(** The lines that successive calls [std::getline(iss, line)] deliver
    before the stream turns false. *)
Fixpoint read_lines (s : string) : list string :=
  match s with
  | EmptyString => []
  | String c s' =>
      if decide (c = LF) then EmptyString :: read_lines s'
      else match read_lines s' with
           | [] => [String c EmptyString]
           | line :: lines => String c line :: lines
           end
  end.

(** The leading white space that the sentry of [operator>>] skips. *)
Fixpoint skipws (s : string) : string :=
  match s with
  | EmptyString => EmptyString
  | String c s' => if isspace c then skipws s' else s
  end.

(** The characters up to the next white space, and the unread part. *)
Fixpoint read_word (s : string) : string * string :=
  match s with
  | EmptyString => (EmptyString, EmptyString)
  | String c s' =>
      if isspace c then (EmptyString, s)
      else let '(word, rest) := read_word s' in (String c word, rest)
  end.

(** [stream >> word] for a [std::string], the target being empty before:
    when nothing but white space is left the extraction fails, the target
    stays empty and so does every later one. *)
Definition extract_word (s : string) : string * string :=
  read_word (skipws s).

(** ** [parseHttpRequest] *)

(** The loop that skips the header lines, on the lines still to be read:
    the lines after the first one that is empty or a lone carriage return,
    [None] when there is no such line ([in_body] stays false). *)
Fixpoint skip_headers (lines : list string) : option (list string) :=
  match lines with
  | [] => None
  | line :: lines =>
      if decide (line = String CR EmptyString ∨ line = EmptyString)
      then Some lines
      else skip_headers lines
  end.

(** The loop [body += body_line]. *)
Definition join_lines (lines : list string) : string :=
  foldr String.append EmptyString lines.

(** The results are [(method, path, body)]; the three are empty strings
    when the caller passes them in. *)
Definition parseHttpRequest (request : string) : string * string * string :=
  let lines := read_lines request in
  let '(method, path) :=
    match lines with
    | line :: _ =>
        let '(method, first_line) := extract_word line in
        let '(path, _) := extract_word first_line in
        (method, path)
    | [] => (EmptyString, EmptyString)
    end in
  let body :=
    match skip_headers (tail lines) with
    | Some body_lines => join_lines body_lines
    | None => EmptyString
    end in
  (method, path, body).

(** ** [createHttpResponse] *)

Definition status_text (status_code : Z) : string :=
  if decide (status_code = 200) then "成功"
  else if decide (status_code = 400) then "请求错误"
  else if decide (status_code = 404) then "未找到"
  else if decide (status_code = 500) then "内部服务器错误"
  else "未知".

Definition createHttpResponse (status_code : Z) (content_type body : string)
  : string :=
  "HTTP/1.1 " +:+ pretty status_code +:+ " " +:+ status_text status_code
    +:+ CRLF
  +:+ "Content-Type: " +:+ content_type +:+ CRLF
  +:+ "Content-Length: " +:+ pretty (Z.of_nat (String.length body)) +:+ CRLF
  +:+ "Connection: close" +:+ CRLF
  +:+ CRLF
  +:+ body.

(** ** [urlDecode] *)

(** [static_cast<char>(value)] *)
Definition char_of_int (value : Z) : ascii :=
  ascii_of_N (Z.to_N (value mod 256)).

Section urlDecode.

(** [iss >> std::hex >> value] on the two characters after a percent sign:
    the value when the extraction succeeds. *)
Variable hex_extract : string → option Z.

(** The loop over [i], as a recursion over the characters from [i] on;
    [i + 2 < str.length()] says that two more characters follow. *)
Fixpoint urlDecode (str : string) : string :=
  match str with
  | EmptyString => EmptyString
  | String c rest =>
      if decide (c = "%"%char) then
        match rest with
        | String c1 (String c2 rest') =>
            match hex_extract (String c1 (String c2 EmptyString)) with
            | Some value => String (char_of_int value) (urlDecode rest')
            | None => String c (urlDecode rest)
            end
        | _ => String c (urlDecode rest)
        end
      else if decide (c = "+"%char) then String " " (urlDecode rest)
      else String c (urlDecode rest)
  end.

End urlDecode.

(** ** jsoncpp, as far as the handler uses it *)

(** The objects the handler builds and writes. *)
Inductive reply :=
  | HealthReply (healthy : bool) (node_id : string)
  | SuccessReply (success : bool)
  | DetailReply (detail : string)
  | ValueReply (key value : string).

Record Json := {
  Value : Type;
  (** [reader.parse(body, json_data)]: the value when it returns true *)
  parse : string → option Value;
  (** [json_data.getMemberNames()]: [None] when it throws *)
  getMemberNames : Value → option (list string);
  (** [Json::writeString(builder, json_data[key])] *)
  writeMember : Value → string → string;
  (** [Json::writeString(builder, json_response)] *)
  writeString : reply → string;
}.

(** ** [handleRequest] *)

Fixpoint back (s : string) : option ascii :=
  match s with
  | EmptyString => None
  | String c EmptyString => Some c
  | String _ s' => back s'
  end.

(** A value that starts and ends with a double quote loses both:
    [value.substr(1, value.length() - 2)].  On the one-character string
    the length wraps around and the result is empty.  jsoncpp writes no
    empty value, on which [front()] would be undefined. *)
Definition strip_quotes (value : string) : string :=
  match value with
  | EmptyString => EmptyString
  | String front rest =>
      if decide (front = quote ∧ back value = Some quote)
      then String.substring 0 (String.length rest - 1) rest
      else value
  end.

(** [char buffer[4096]] *)
Definition buffer_size : nat := 4096.

(** [recv(client_fd, buffer, sizeof(buffer) - 1, 0)] on a connection on
    which the bytes [arrived] wait to be read: it copies the first of them
    into [buffer], at most [sizeof(buffer) - 1], and [bytes_read] is their
    number.  It is no more than 0 when there is none: the peer has closed
    the connection, or an error. *)
Definition recv (arrived : string) : string :=
  String.substring 0 (buffer_size - 1) arrived.

(** [std::string request(buffer)]: the bytes before the first NUL. *)
Fixpoint c_str (buffer : string) : string :=
  match buffer with
  | EmptyString => EmptyString
  | String c s =>
      if decide (c = NUL) then EmptyString else String c (c_str s)
  end.

Section handleRequest.

Variable hex_extract : string → option Z.
Variable json : Json.
Variable peers : Peers.

(** The loop over the member names of a POST body. *)
Fixpoint set_members (json_data : Value json) (keys : list string)
    (all_success : bool) (server : CacheServer.t)
  : outcome bool * CacheServer.t :=
  match keys with
  | [] => (Returns all_success, server)
  | key :: keys =>
      let value := strip_quotes (writeMember json json_data key) in
      match CacheServer.set peers server key value with
      | (Returns success, server) =>
          set_members json_data keys
            (if success then all_success else false) server
      | (Throws e, server) => (Throws e, server)
      end
  end.

Definition reply_to (status_code : Z) (json_response : reply) : string :=
  createHttpResponse status_code "application/json"
    (writeString json json_response).

Definition not_found : string := reply_to 404 (DetailReply "未找到").

Definition internal_error : string :=
  reply_to 500 (DetailReply "内部服务器错误").

(** The [try] block: the answer to a parsed request, and the server
    afterwards.  An exception that reaches the [catch] is answered with
    500. *)
Definition respond (server : CacheServer.t) (method path body : string)
  : string * CacheServer.t :=
  if decide (path = "/health") then
    (reply_to 200 (HealthReply true (CacheServer.node_id_ server)), server)
  else if decide (method = "POST" ∧ path = "/") then
    match parse json body with
    | Some json_data =>
        match getMemberNames json json_data with
        | Some keys =>
            match set_members json_data keys true server with
            | (Returns all_success, server) =>
                (reply_to 200 (SuccessReply all_success), server)
            | (Throws _, server) => (internal_error, server)
            end
        | None => (internal_error, server)
        end
    | None => (reply_to 400 (DetailReply "无效的JSON格式"), server)
    end
  else if decide (method = "GET" ∧ (1 < String.length path)%nat) then
    let key := urlDecode hex_extract (String.substring 1
                 (String.length path - 1) path) in
    match CacheServer.get peers server key EmptyString with
    | (Returns (true, value), server) =>
        (reply_to 200 (ValueReply key value), server)
    | (Returns (false, _), server) => (not_found, server)
    | (Throws _, server) => (internal_error, server)
    end
  else if decide (method = "DELETE" ∧ (1 < String.length path)%nat) then
    let key := urlDecode hex_extract (String.substring 1
                 (String.length path - 1) path) in
    match CacheServer.del peers server key with
    | (Returns success, server) =>
        (createHttpResponse 200 "text/plain" (if success then "1" else "0"),
         server)
    | (Throws _, server) => (internal_error, server)
    end
  else (not_found, server).

(** [arrived] holds the bytes that wait on the connection when [recv] is
    called.  The result is what is sent before the connection is closed,
    if anything, and the server afterwards. *)
Definition handleRequest (server : CacheServer.t) (arrived : string)
  : option string * CacheServer.t :=
  let buffer := recv arrived in
  if decide (buffer = EmptyString) then (None, server)
  else
    let request := c_str buffer in
    let '(method, path, body) := parseHttpRequest request in
    let '(response, server) := respond server method path body in
    (Some response, server).

End handleRequest.

(** The value of a hexadecimal digit. *)
Definition hex_digit (c : ascii) : option Z :=
  let n := Z.of_N (N_of_ascii c) in
  if decide (48 ≤ n ≤ 57) then Some (n - 48)
  else if decide (65 ≤ n ≤ 70) then Some (n - 55)
  else if decide (97 ≤ n ≤ 102) then Some (n - 87)
  else None.

(** A stand-in for the stream extraction in the instances below.  It
    reads a pair of hexadecimal digits as the number they write, as the
    real extraction does, and fails on every other pair.  The real
    extraction succeeds on more of them: it skips white space, accepts a
    sign, and stops at the first character that is no digit.  So
    [hex_pair] is used at pairs of hexadecimal digits only. *)
Definition hex_pair (s : string) : option Z :=
  match s with
  | String c1 (String c2 EmptyString) =>
      match hex_digit c1, hex_digit c2 with
      | Some h, Some l => Some (16 * h + l)
      | _, _ => None
      end
  | _ => None
  end.

End HttpHandler.

(** ** Requests as a client sends them

    The other end of the connection: a request line, header lines and a
    body, each line closed by CR LF, and keys percent-encoded in the path
    (RFC 3986: every byte but the unreserved ones becomes a percent sign
    and two hexadecimal digits). *)

Definition chars : string → list ascii := list_ascii_of_string.

Definition http_request (method path version : string)
    (headers : list string) (body : string) : string :=
  (method +:+ " " +:+ path +:+ " " +:+ version) +:+ HttpHandler.CRLF
  +:+ foldr (λ header rest, header +:+ HttpHandler.CRLF +:+ rest)
        (HttpHandler.CRLF +:+ body) headers.

(** Neither empty nor holding white space: it survives [operator>>]. *)
Definition word (s : string) : Prop :=
  s ≠ EmptyString ∧ Forall (λ c, HttpHandler.isspace c = false) (chars s).

(** [handleRequest] applied to a request says that all its bytes wait on
    the connection when [recv] is called.  The request then reaches the
    handler whole when it is shorter than the buffer that [recv] fills, and
    holds no NUL, at which it would end. *)
Definition arrives_whole (request : string) : Prop :=
  (String.length request < HttpHandler.buffer_size)%nat ∧
  HttpHandler.NUL ∉ chars request.

(** A header line is not empty and, like the version, holds no line feed. *)
Definition header_lines (version : string) (headers : list string) : Prop :=
(HttpHandler.LF ∉ chars version) ∧
  Forall (λ header, header ≠ EmptyString ∧ HttpHandler.LF ∉ chars header)
    headers.

Definition unreserved (c : ascii) : bool :=
  let n := Z.of_N (N_of_ascii c) in
  bool_decide (48 ≤ n ≤ 57 ∨ 65 ≤ n ≤ 90 ∨ 97 ≤ n ≤ 122
               ∨ c ∈ ["-"; "."; "_"; "~"]%char).

Definition hex_char (n : Z) : ascii :=
  ascii_of_N (Z.to_N (if decide (n < 10) then 48 + n else 55 + n)).

Fixpoint percent_encode (s : string) : string :=
  match s with
  | EmptyString => EmptyString
  | String c s' =>
      if unreserved c then String c (percent_encode s')
      else
        let n := Z.of_N (N_of_ascii c) in
        String "%" (String (hex_char (n / 16)) (String (hex_char (n mod 16))
          (percent_encode s')))
  end.

(** What the model asks of [iss >> std::hex >> value]: two hexadecimal
    digits are read as the number they write. *)
Definition reads_hex_pairs (hex_extract : string → option Z) : Prop :=
  ∀ c1 c2 h l,
    HttpHandler.hex_digit c1 = Some h → HttpHandler.hex_digit c2 = Some l →
    hex_extract (String c1 (String c2 EmptyString)) = Some (16 * h + l).

(** A stand-in for jsoncpp in the instances below: it reads one document,
    an object of the given members, and nothing else. *)
Definition quoted (s : string) : string :=
  String HttpHandler.quote (s +:+ String HttpHandler.quote EmptyString).

Definition one_document (document : string)
    (members : list (string * string)) : HttpHandler.Json :=
  {| HttpHandler.Value := list (string * string);
     HttpHandler.parse := λ body,
       if decide (body = document) then Some members else None;
     HttpHandler.getMemberNames := λ json_data, Some (json_data.*1);
     HttpHandler.writeMember := λ json_data key,
       default "null" (snd <$> find (λ member, bool_decide (member.1 = key))
                                 json_data);
     HttpHandler.writeString := λ json_response,
       match json_response with
       | HttpHandler.HealthReply _ node_id => quoted node_id
       | HttpHandler.SuccessReply success =>
           if success then "true" else "false"
       | HttpHandler.DetailReply detail => quoted detail
       | HttpHandler.ValueReply key value => quoted key +:+ ":" +:+ quoted value
       end |}.

Definition dana_document : string :=
  "{" +:+ quoted "user:4" +:+ ": " +:+ quoted "Dana" +:+ "}".

Definition dana_json : HttpHandler.Json :=
  one_document dana_document [("user:4", quoted "Dana")].

Definition usual_headers : list string :=
  ["Host: server1:9527"; "Content-Type: application/json"].

(** * Properties *)

(** RFC 1321 test suite. *)
Example md5_empty :
  MD5.digest EmptyString =
  [0xd4; 0x1d; 0x8c; 0xd9; 0x8f; 0x00; 0xb2; 0x04;
   0xe9; 0x80; 0x09; 0x98; 0xec; 0xf8; 0x42; 0x7e].
Proof. vm_compute. reflexivity. Qed.

Example md5_abc :
  MD5.digest "abc" =
  [0x90; 0x01; 0x50; 0x98; 0x3c; 0xd2; 0x4f; 0xb0;
   0xd6; 0x96; 0x3f; 0x7d; 0x28; 0xe1; 0x7f; 0x72].
Proof. vm_compute. reflexivity. Qed.

Example md5_two_blocks :
  MD5.digest
    "12345678901234567890123456789012345678901234567890123456789012345678901234567890" =
  [0x57; 0xed; 0xf4; 0xa2; 0x2b; 0xe3; 0xc9; 0x55;
   0xac; 0x49; 0xda; 0x2e; 0x21; 0x07; 0xb6; 0x7a].
Proof. vm_compute. reflexivity. Qed.

(** [hash] stays within [uint32_t]. *)
Lemma lor_below_pow2 a b n :
  0 ≤ n → 0 ≤ a < 2 ^ n → 0 ≤ b < 2 ^ n → 0 ≤ Z.lor a b < 2 ^ n.
Proof.
  intros Hn Ha Hb.
  destruct (Z.eq_dec a 0) as [->|Hna]; [by rewrite Z.lor_0_l|].
  destruct (Z.eq_dec b 0) as [->|Hnb]; [by rewrite Z.lor_0_r|].
  assert (0 ≤ Z.lor a b) as Hnn by (apply Z.lor_nonneg; lia).
  assert (Z.lor a b ≠ 0) as Hnz by (rewrite Z.lor_eq_0_iff; lia).
  split; [done|]. apply Z.log2_lt_pow2; [lia|].
  rewrite Z.log2_lor by lia.
  apply Z.max_lub_lt; apply Z.log2_lt_pow2; lia.
Qed.

Lemma digest_byte_range str i :
  0 ≤ i < 4 → 0 ≤ MD5.nthZ (MD5.digest str) i < 256.
Proof.
  intros Hi. unfold MD5.digest.
  generalize (MD5.blocks
                (length (MD5.pad (MD5.bytes_of_string str)) `div` 64)
                (MD5.pad (MD5.bytes_of_string str)) MD5.init).
  intros st.
  assert (i = 0 ∨ i = 1 ∨ i = 2 ∨ i = 3) as [-> | [-> | [-> | ->]]] by lia;
    unfold MD5.nthZ;
    [change (Z.to_nat 0) with 0%nat|change (Z.to_nat 1) with 1%nat
    |change (Z.to_nat 2) with 2%nat|change (Z.to_nat 3) with 3%nat];
    cbn [MD5.le_bytes seq map app nth];
    change 255 with (Z.ones 8); rewrite Z.land_ones by lia;
    apply Z.mod_pos_bound; lia.
Qed.

Lemma hash_range str : 0 ≤ hash str < 2 ^ 32.
Proof.
  unfold hash. cbn [fold_left].
  pose proof (digest_byte_range str 0). pose proof (digest_byte_range str 1).
  pose proof (digest_byte_range str 2). pose proof (digest_byte_range str 3).
  repeat match goal with
  | |- 0 ≤ Z.lor (Z.shiftl ?r 8 mod 2 ^ 32) ?b < 2 ^ 32 =>
      apply lor_below_pow2; [lia|apply Z.mod_pos_bound; lia|lia]
  end.
Qed.

Example hash_server1_98 : hash (getVirtualNodeKey "server1" 98) = 4001201751.
Proof. vm_compute. reflexivity. Qed.

Example hash_node128068_37 :
  hash (getVirtualNodeKey "node128068" 37) = 4001201751.
Proof. vm_compute. reflexivity. Qed.

(** ** The ordered map: lookup, insertion, erasure, lower bound *)

Section ring_map.
Implicit Types (r : list (Z * string)) (h k : Z) (v w : string).

Lemma ring_sorted_nil : ring_sorted [].
Proof. constructor. Qed.

Lemma ring_sorted_cons k w r :
  ring_sorted ((k, w) :: r) ↔ Forall (λ e, k < e.1) r ∧ ring_sorted r.
Proof.
  unfold ring_sorted. rewrite fmap_cons, StronglySorted_cons, Forall_fmap.
  reflexivity.
Qed.

Lemma Forall_ring_insert (P : Z * string → Prop) h v r :
  P (h, v) → Forall P r → Forall P (ring_insert h v r).
Proof.
  intros Hp. induction 1 as [|[k w] r Hk Hr IH]; simpl.
  - by constructor.
  - destruct (Z.ltb_spec h k); [by repeat constructor|].
    destruct (Z.eqb_spec h k) as [->|]; by constructor.
Qed.

Lemma Forall_ring_erase (P : Z * string → Prop) h r :
  Forall P r → Forall P (ring_erase h r).
Proof.
  induction 1 as [|[k w] r Hk Hr IH]; simpl; [constructor|].
  destruct (Z.ltb_spec h k); [by constructor|].
  destruct (Z.eqb_spec h k); [done|by constructor].
Qed.

Lemma ring_insert_sorted h v r :
  ring_sorted r → ring_sorted (ring_insert h v r).
Proof.
  induction r as [|[k w] r IH]; simpl; intros Hs.
  - apply ring_sorted_cons. split; constructor.
  - pose proof Hs as [Hk Hr]%ring_sorted_cons.
    destruct (Z.ltb_spec h k).
    + apply ring_sorted_cons. split; [|done].
      constructor; [done|]. eapply Forall_impl; [exact Hk|].
      simpl. intros; lia.
    + destruct (Z.eqb_spec h k) as [->|Hne].
      * by apply ring_sorted_cons.
      * apply ring_sorted_cons. split; [|by apply IH].
        apply Forall_ring_insert; [simpl; lia|done].
Qed.

Lemma ring_erase_sorted h r :
  ring_sorted r → ring_sorted (ring_erase h r).
Proof.
  induction r as [|[k w] r IH]; simpl; intros Hs; [done|].
  pose proof Hs as [Hk Hr]%ring_sorted_cons.
  destruct (Z.ltb_spec h k); [done|].
  destruct (Z.eqb_spec h k); [done|].
  apply ring_sorted_cons. split; [by apply Forall_ring_erase|by apply IH].
Qed.

Lemma ring_find_Some_elem h v r : ring_find h r = Some v → (h, v) ∈ r.
Proof.
  induction r as [|[k w] r IH]; simpl; [done|].
  destruct (Z.eqb_spec h k) as [->|].
  - intros [= ->]. left.
  - intros. right. auto.
Qed.

Lemma ring_find_above k h r :
  Forall (λ e, k < e.1) r → h ≤ k → ring_find h r = None.
Proof.
  induction 1 as [|[k' w] r Hk Hr IH]; simpl; intros; [done|].
  simpl in Hk. destruct (Z.eqb_spec h k'); [lia|auto].
Qed.

Lemma ring_find_elem h v r : ring_sorted r → (h, v) ∈ r → ring_find h r = Some v.
Proof.
  induction r as [|[k w] r IH]; simpl; intros Hs Hin.
  - by apply elem_of_nil in Hin.
  - apply ring_sorted_cons in Hs as [Hk Hr].
    apply elem_of_cons in Hin as [[= -> ->]|Hin].
    + by rewrite Z.eqb_refl.
    + destruct (Z.eqb_spec h k) as [->|]; [|auto].
      rewrite Forall_forall in Hk. apply Hk in Hin. simpl in Hin. lia.
Qed.

Lemma ring_find_insert k h v r :
  ring_find k (ring_insert h v r)
  = if decide (k = h) then Some v else ring_find k r.
Proof.
  induction r as [|[k' w] r IH]; simpl.
  - destruct (Z.eqb_spec k h); by case_decide.
  - destruct (Z.ltb_spec h k'); simpl.
    + destruct (Z.eqb_spec k h); by case_decide.
    + destruct (Z.eqb_spec h k') as [->|]; simpl.
      * destruct (Z.eqb_spec k k'); by case_decide.
      * rewrite IH. destruct (Z.eqb_spec k k'); [|done].
        case_decide; [lia|done].
Qed.

Lemma ring_find_erase k h r :
  ring_sorted r →
  ring_find k (ring_erase h r)
  = if decide (k = h) then None else ring_find k r.
Proof.
  induction r as [|[k' w] r IH]; simpl; intros Hs.
  - by case_decide.
  - apply ring_sorted_cons in Hs as [Hk Hr].
    destruct (Z.ltb_spec h k'); simpl.
    + case_decide as Hkh; [|done]. subst k.
      destruct (Z.eqb_spec h k'); [lia|].
      apply (ring_find_above k'); [done|lia].
    + destruct (Z.eqb_spec h k') as [->|]; simpl.
      * case_decide as Hkh.
        -- subst k. apply (ring_find_above k'); [done|lia].
        -- destruct (Z.eqb_spec k k'); [lia|done].
      * rewrite IH by done.
        destruct (Z.eqb_spec k k'); [|done]. case_decide; [lia|done].
Qed.

(** Two ordered maps with the same lookups are the same sequence. *)
Lemma ring_ext r1 r2 :
  ring_sorted r1 → ring_sorted r2 →
  (∀ k, ring_find k r1 = ring_find k r2) → r1 = r2.
Proof.
  revert r2. induction r1 as [|[k1 w1] r1 IH]; intros [|[k2 w2] r2] Hs1 Hs2 He.
  - done.
  - specialize (He k2). simpl in He. by rewrite Z.eqb_refl in He.
  - specialize (He k1). simpl in He. by rewrite Z.eqb_refl in He.
  - apply ring_sorted_cons in Hs1 as [Hk1 Hr1].
    apply ring_sorted_cons in Hs2 as [Hk2 Hr2].
    assert (k1 = k2) as <-.
    { pose proof (He k1) as H1. pose proof (He k2) as H2. simpl in H1, H2.
      rewrite Z.eqb_refl in H1, H2.
      destruct (Z.eqb_spec k1 k2) as [|Hne]; [done|].
      destruct (Z.eqb_spec k2 k1) as [|_]; [done|].
      destruct (Z.lt_total k1 k2) as [Hlt|[?|Hlt]]; [|done|].
      - rewrite (ring_find_above k2) in H1; [done|done|lia].
      - rewrite (ring_find_above k1) in H2; [done|done|lia]. }
    assert (w1 = w2) as <-.
    { specialize (He k1). simpl in He. rewrite Z.eqb_refl in He. congruence. }
    f_equal. apply IH; [done..|]. intros k.
    specialize (He k). simpl in He.
    destruct (Z.eqb_spec k k1) as [Hkk|]; [|done]. rewrite Hkk.
    rewrite !(ring_find_above k1); [done|done|lia|done|lia].
Qed.

(** [lower_bound] finds the entry with the least key not below [h]. *)
Lemma lower_bound_Some h k v r :
  ring_sorted r → lower_bound h r = Some (k, v) →
  (k, v) ∈ r ∧ h ≤ k ∧ ∀ e, e ∈ r → h ≤ e.1 → k ≤ e.1.
Proof.
  induction r as [|[k' w] r IH]; simpl; intros Hs Hlb; [done|].
  apply ring_sorted_cons in Hs as [Hk Hr].
  destruct (Z.leb_spec h k').
  - injection Hlb as -> ->. split; [left|]. split; [done|].
    intros e [->|He]%elem_of_cons _; [done|].
    rewrite Forall_forall in Hk. apply Hk in He. lia.
  - destruct (IH Hr Hlb) as (Hin & Hle & Hmin).
    split; [by right|]. split; [done|].
    intros e [->|He]%elem_of_cons Hhe; [simpl in Hhe; lia|auto].
Qed.

Lemma lower_bound_None h r :
  lower_bound h r = None → ∀ e, e ∈ r → e.1 < h.
Proof.
  induction r as [|[k' w] r IH]; simpl; intros Hlb e He.
  - by apply elem_of_nil in He.
  - destruct (Z.leb_spec h k'); [done|].
    apply elem_of_cons in He as [->|He]; [done|auto].
Qed.

(** [begin()] is the entry with the least key. *)
Lemma ring_begin_least first r :
  ring_sorted (first :: r) → ∀ e, e ∈ first :: r → first.1 ≤ e.1.
Proof.
  destruct first as [k w]. intros [Hk Hr]%ring_sorted_cons e.
  intros [->|He]%elem_of_cons; [done|].
  rewrite Forall_forall in Hk. apply Hk in He. simpl. lia.
Qed.

End ring_map.

(** ** The two loops of [addNode] and [removeNode] over the ring *)

Section ring_loops.
Implicit Types (r : list (Z * string)) (ps : list Z) (nid : string).

Lemma addNode_ring ch node :
  ring_ (addNode ch node)
  = foldl (λ r p, ring_insert p (Node.id node) r) (ring_ ch)
      (positions (virtual_nodes_ ch) (Node.id node)).
Proof. unfold positions. by rewrite foldl_fmap. Qed.

Lemma removeNode_ring ch nid n :
  nodes_ ch !! nid = Some n →
  ring_ (removeNode ch nid)
  = foldl (λ r p, ring_erase p r) (ring_ ch)
      (positions (virtual_nodes_ ch) nid).
Proof.
  intros Hn. unfold removeNode, positions. rewrite Hn. simpl.
  by rewrite foldl_fmap.
Qed.

Lemma insert_loop_sorted nid ps r :
  ring_sorted r → ring_sorted (foldl (λ r p, ring_insert p nid r) r ps).
Proof.
  revert r. induction ps as [|p ps IH]; simpl; intros r Hs; [done|].
  by apply IH, ring_insert_sorted.
Qed.

Lemma erase_loop_sorted ps r :
  ring_sorted r → ring_sorted (foldl (λ r p, ring_erase p r) r ps).
Proof.
  revert r. induction ps as [|p ps IH]; simpl; intros r Hs; [done|].
  by apply IH, ring_erase_sorted.
Qed.

Lemma ring_find_insert_loop k nid ps r :
  ring_find k (foldl (λ r p, ring_insert p nid r) r ps)
  = if decide (k ∈ ps) then Some nid else ring_find k r.
Proof.
  revert r. induction ps as [|p ps IH]; intros r.
  - by rewrite decide_False by apply not_elem_of_nil.
  - cbn [foldl]. rewrite IH, ring_find_insert.
    destruct (decide (k ∈ p :: ps)) as [Hin|Hnin].
    + apply elem_of_cons in Hin as [Heq|Hin].
      * destruct (decide (k ∈ ps)); [done|]. by rewrite decide_True.
      * by rewrite decide_True.
    + apply not_elem_of_cons in Hnin as [Hne Hnin].
      by rewrite decide_False, decide_False.
Qed.

Lemma ring_find_erase_loop k ps r :
  ring_sorted r →
  ring_find k (foldl (λ r p, ring_erase p r) r ps)
  = if decide (k ∈ ps) then None else ring_find k r.
Proof.
  revert r. induction ps as [|p ps IH]; intros r Hs.
  - by rewrite decide_False by apply not_elem_of_nil.
  - cbn [foldl]. rewrite IH by by apply ring_erase_sorted.
    rewrite ring_find_erase by done.
    destruct (decide (k ∈ p :: ps)) as [Hin|Hnin].
    + apply elem_of_cons in Hin as [Heq|Hin].
      * destruct (decide (k ∈ ps)); [done|]. by rewrite decide_True.
      * by rewrite decide_True.
    + apply not_elem_of_cons in Hnin as [Hne Hnin].
      by rewrite decide_False, decide_False.
Qed.

End ring_loops.

(** ** The invariant of reachable ring states *)

Lemma ring_inv_new vn : ring_inv (ConsistentHash_new vn).
Proof. split; simpl; [apply ring_sorted_nil|done|done]. Qed.

Lemma ring_inv_addNode ch node : ring_inv ch → ring_inv (addNode ch node).
Proof.
  intros [Hs He Hi]. split.
  - rewrite addNode_ring. by apply insert_loop_sorted.
  - intros p nid. rewrite addNode_ring, ring_find_insert_loop. simpl.
    case_decide as Hin.
    + intros [= <-]. split; [|done]. rewrite lookup_insert_eq. eauto.
    + intros Hf. destruct (He _ _ Hf) as [Hreg Hpos]. split; [|done].
      rewrite lookup_insert. case_decide; eauto.
  - simpl. intros nid n. rewrite lookup_insert.
    case_decide; [congruence|auto].
Qed.

Lemma ring_inv_removeNode ch nid : ring_inv ch → ring_inv (removeNode ch nid).
Proof.
  intros Hinv. destruct (nodes_ ch !! nid) as [n|] eqn:Hn;
    [|unfold removeNode; by rewrite Hn].
  destruct Hinv as [Hs He Hi]. split.
  - rewrite (removeNode_ring _ _ n) by done. by apply erase_loop_sorted.
  - intros p nid'. rewrite (removeNode_ring _ _ n), ring_find_erase_loop by done.
    unfold removeNode. rewrite Hn. simpl.
    case_decide as Hin; [done|]. intros Hf.
    destruct (He _ _ Hf) as [Hreg Hpos]. split; [|done].
    rewrite lookup_delete_ne; [done|]. by intros <-.
  - unfold removeNode. rewrite Hn. simpl. intros nid' n'.
    rewrite lookup_delete. case_decide; [done|auto].
Qed.

Lemma run_snoc vn ops o : run vn (ops ++ [o]) = apply_op (run vn ops) o.
Proof. unfold run. by rewrite foldl_app. Qed.

Lemma ring_inv_run vn ops : ring_inv (run vn ops).
Proof.
  induction ops as [|o ops IH] using rev_ind.
  - apply ring_inv_new.
  - rewrite run_snoc. destruct o; simpl;
      [by apply ring_inv_addNode|by apply ring_inv_removeNode].
Qed.

Lemma addNode_virtual_nodes ch node :
  virtual_nodes_ (addNode ch node) = virtual_nodes_ ch.
Proof. done. Qed.

Lemma removeNode_virtual_nodes ch nid :
  virtual_nodes_ (removeNode ch nid) = virtual_nodes_ ch.
Proof. unfold removeNode. by destruct (nodes_ ch !! nid). Qed.

Lemma run_virtual_nodes vn ops : virtual_nodes_ (run vn ops) = vn.
Proof.
  induction ops as [|o ops IH] using rev_ind; [done|].
  rewrite run_snoc. destruct o; simpl; [done|].
  by rewrite removeNode_virtual_nodes.
Qed.

(** ** [getNode] on a ring state that satisfies the invariant *)

Lemma getNode_empty ch key :
  ring_ ch = [] → getNode ch key = Throws NoNodesAvailable.
Proof. unfold getNode. by intros ->. Qed.

Lemma ring_elem_registered ch p nid :
  ring_inv ch → (p, nid) ∈ ring_ ch →
  ∃ n, nodes_ ch !! nid = Some n ∧ Node.id n = nid.
Proof.
  intros Hinv Hin.
  apply ring_find_elem in Hin; [|apply Hinv].
  destruct (inv_entry _ Hinv _ _ Hin) as [[n Hn] _].
  exists n. split; [done|]. by apply (inv_id _ Hinv).
Qed.

Lemma getNode_successor ch key :
  ring_inv ch → ring_ ch ≠ [] →
  ∃ p nid n,
    getNode ch key = Returns n ∧ (p, nid) ∈ ring_ ch ∧
    nodes_ ch !! nid = Some n ∧ Node.id n = nid ∧
    ((hash key ≤ p ∧ ∀ e, e ∈ ring_ ch → hash key ≤ e.1 → p ≤ e.1) ∨
     ((∀ e, e ∈ ring_ ch → e.1 < hash key) ∧ ∀ e, e ∈ ring_ ch → p ≤ e.1)).
Proof.
  intros Hinv Hne. unfold getNode.
  destruct (ring_ ch) as [|first r] eqn:Hr; [done|].
  assert (ring_sorted (first :: r)) as Hs by (rewrite <-Hr; apply Hinv).
  destruct (lower_bound (hash key) (first :: r)) as [[p nid]|] eqn:Hlb.
  - destruct (lower_bound_Some _ _ _ _ Hs Hlb) as (Hin & Hle & Hmin).
    destruct (ring_elem_registered ch p nid Hinv) as (n & Hn & Hid);
      [by rewrite Hr|].
    exists p, nid, n. simpl. rewrite Hn. auto 10.
  - destruct first as [p nid].
    destruct (ring_elem_registered ch p nid Hinv) as (n & Hn & Hid);
      [rewrite Hr; left|].
    exists p, nid, n. simpl. rewrite Hn.
    split; [done|]. split; [left|]. split; [done|]. split; [done|]. right.
    split; [by apply lower_bound_None|].
    apply (ring_begin_least (p, nid) r Hs).
Qed.

(** ** Claims about the hash ring *)

(** C10: in every ring state reached by [addNode]/[removeNode] from the
    empty ring, every ring entry's value is an identifier present in the
    registry; so on a non-empty ring [getNode] returns a node for every key,
    and whenever it throws, the exception is the empty-ring
    "No nodes available" one. *)
Theorem C10_ring_entries_registered vn ops :
  (∀ p nid, (p, nid) ∈ ring_ (run vn ops) →
            is_Some (nodes_ (run vn ops) !! nid)) ∧
  (∀ key, ring_ (run vn ops) ≠ [] →
          ∃ n, getNode (run vn ops) key = Returns n) ∧
  (∀ key e, getNode (run vn ops) key = Throws e →
            e = NoNodesAvailable ∧ ring_ (run vn ops) = []).
Proof.
  pose proof (ring_inv_run vn ops) as Hinv. split; [|split].
  - intros p nid Hin.
    destruct (ring_elem_registered _ _ _ Hinv Hin) as (n & Hn & _). eauto.
  - intros key Hne.
    destruct (getNode_successor _ key Hinv Hne) as (p & nid & n & Hg & _).
    eauto.
  - intros key e Hg.
    destruct (ring_ (run vn ops)) as [|first r] eqn:Hr.
    + rewrite getNode_empty in Hg by done. by injection Hg as <-.
    + destruct (getNode_successor (run vn ops) key Hinv)
        as (p & nid & n & Hg' & _); [by rewrite Hr|congruence].
Qed.

(** C1: on the empty ring [getNode] fails with "No nodes available"; on a
    non-empty ring it returns the node registered under the identifier
    stored at the smallest ring position that is >= [hash key], or, when
    every ring position is below [hash key], under the identifier stored at
    the smallest ring position. *)
Theorem C1_getNode_clockwise_successor vn ops key :
  (ring_ (run vn ops) = [] →
   getNode (run vn ops) key = Throws NoNodesAvailable) ∧
  (ring_ (run vn ops) ≠ [] →
   ∃ p nid n,
     getNode (run vn ops) key = Returns n ∧
     (p, nid) ∈ ring_ (run vn ops) ∧
     nodes_ (run vn ops) !! nid = Some n ∧
     ((hash key ≤ p ∧
       ∀ e, e ∈ ring_ (run vn ops) → hash key ≤ e.1 → p ≤ e.1) ∨
      ((∀ e, e ∈ ring_ (run vn ops) → e.1 < hash key) ∧
       ∀ e, e ∈ ring_ (run vn ops) → p ≤ e.1))).
Proof.
  split; [apply getNode_empty|]. intros Hne.
  destruct (getNode_successor _ key (ring_inv_run vn ops) Hne)
    as (p & nid & n & Hg & Hin & Hn & _ & Hsucc).
  by exists p, nid, n.
Qed.

Lemma hasNode_true ch nid : hasNode ch nid = true ↔ is_Some (nodes_ ch !! nid).
Proof. unfold hasNode. apply bool_decide_eq_true. Qed.

Lemma hasNode_false ch nid : hasNode ch nid = false ↔ nodes_ ch !! nid = None.
Proof.
  unfold hasNode. rewrite bool_decide_eq_false. symmetry.
  apply eq_None_not_Some.
Qed.

Lemma removeNode_absent ch nid :
  nodes_ ch !! nid = None → removeNode ch nid = ch.
Proof. intros Hn. unfold removeNode. by rewrite Hn. Qed.

Lemma removeNode_nodes ch nid : nodes_ (removeNode ch nid) = delete nid (nodes_ ch).
Proof.
  unfold removeNode. destruct (nodes_ ch !! nid) eqn:Hn; [done|].
  by rewrite delete_id.
Qed.

Lemma removeNode_no_entry ch nid p :
  ring_inv ch → (p, nid) ∉ ring_ (removeNode ch nid).
Proof.
  intros Hinv Hin.
  destruct (ring_elem_registered (removeNode ch nid) p nid) as (n & Hn & _);
    [by apply ring_inv_removeNode|done|].
  by rewrite removeNode_nodes, lookup_delete_eq in Hn.
Qed.

Lemma elem_of_positions vn nid p :
  p ∈ positions vn nid ↔
  ∃ i, 0 ≤ i < vn ∧ p = hash (getVirtualNodeKey nid i).
Proof.
  unfold positions, virtual_indices. rewrite list_elem_of_fmap. split.
  - intros (i & -> & (j & -> & Hj)%list_elem_of_fmap).
    apply elem_of_seq in Hj. exists (Z.of_nat j). split; [lia|done].
  - intros (i & Hi & ->). exists i. split; [done|].
    apply list_elem_of_fmap. exists (Z.to_nat i). split; [lia|].
    apply elem_of_seq. lia.
Qed.

(** Adding a node that is not registered and none of whose virtual
    positions is occupied, then removing it, gives back the same ring and
    the same registry. *)
Lemma removeNode_addNode ch node :
  ring_inv ch →
  nodes_ ch !! Node.id node = None →
  (∀ p, p ∈ positions (virtual_nodes_ ch) (Node.id node) →
        ring_find p (ring_ ch) = None) →
  removeNode (addNode ch node) (Node.id node) = ch.
Proof.
  intros Hinv Hfresh Hfree.
  assert (ring_ (removeNode (addNode ch node) (Node.id node)) = ring_ ch) as Hr.
  { rewrite (removeNode_ring _ _ node) by (simpl; apply lookup_insert_eq).
    rewrite addNode_ring, addNode_virtual_nodes.
    apply ring_ext.
    - apply erase_loop_sorted, insert_loop_sorted, Hinv.
    - apply Hinv.
    - intros k. rewrite ring_find_erase_loop
        by apply insert_loop_sorted, Hinv.
      rewrite ring_find_insert_loop.
      destruct (decide (k ∈ _)); [by rewrite Hfree|done]. }
  pose proof (removeNode_nodes (addNode ch node) (Node.id node)) as Hn.
  pose proof (removeNode_virtual_nodes (addNode ch node) (Node.id node)) as Hv.
  simpl in Hn. rewrite delete_insert_eq, delete_id in Hn by done.
  destruct (removeNode (addNode ch node) (Node.id node)), ch.
  simpl in *. by subst.
Qed.

(** C4: removing an identifier that is not registered changes nothing;
    after removing a registered identifier [X], [hasNode X] is false, no
    ring entry has value [X], and a key that [getNode] mapped to [X] is now
    mapped to a registered node other than [X], or [getNode] fails with
    "No nodes available" because the ring became empty. *)
Theorem C4_removeNode_effect vn ops X :
  (hasNode (run vn ops) X = false → removeNode (run vn ops) X = run vn ops) ∧
  (hasNode (run vn ops) X = true →
   hasNode (removeNode (run vn ops) X) X = false ∧
   (∀ p nid, (p, nid) ∈ ring_ (removeNode (run vn ops) X) → nid ≠ X) ∧
   (∀ key n,
      getNode (run vn ops) key = Returns n → Node.id n = X →
      (∃ n', getNode (removeNode (run vn ops) X) key = Returns n' ∧
             Node.id n' ≠ X ∧
             nodes_ (removeNode (run vn ops) X) !! Node.id n' = Some n') ∨
      (ring_ (removeNode (run vn ops) X) = [] ∧
       getNode (removeNode (run vn ops) X) key = Throws NoNodesAvailable))).
Proof.
  pose proof (ring_inv_run vn ops) as Hinv.
  pose proof (ring_inv_removeNode _ X Hinv) as Hinv'.
  split.
  - intros Hn%hasNode_false. by apply removeNode_absent.
  - intros _. split; [|split].
    + apply hasNode_false. by rewrite removeNode_nodes, lookup_delete_eq.
    + intros p nid Hin ->. by apply (removeNode_no_entry _ _ _ Hinv) in Hin.
    + intros key n _ _.
      destruct (ring_ (removeNode (run vn ops) X)) as [|first r] eqn:Hr.
      * right. split; [done|]. by apply getNode_empty.
      * left.
        destruct (getNode_successor (removeNode (run vn ops) X) key Hinv')
          as (p & nid & n' & Hg & Hin & Hn' & Hid & _); [by rewrite Hr|].
        exists n'. split; [done|]. rewrite Hid. split; [|done].
        intros ->. by apply (removeNode_no_entry _ _ _ Hinv) in Hin.
Qed.

(** C3, as amended: when the node's identifier is not yet registered and
    none of its virtual positions is already occupied in the ring,
    [addNode] followed by [removeNode] of the same identifier restores the
    ring and the registry, so [getNode] answers every key as before. *)
Theorem C3_add_remove_restores vn ops node :
  hasNode (run vn ops) (Node.id node) = false →
  (∀ i, 0 ≤ i < vn →
        ring_find (hash (getVirtualNodeKey (Node.id node) i))
          (ring_ (run vn ops)) = None) →
  removeNode (addNode (run vn ops) node) (Node.id node) = run vn ops ∧
  ∀ key, getNode (removeNode (addNode (run vn ops) node) (Node.id node)) key
         = getNode (run vn ops) key.
Proof.
  intros Hfresh%hasNode_false Hfree.
  assert (removeNode (addNode (run vn ops) node) (Node.id node) = run vn ops)
    as ->; [|done].
  apply removeNode_addNode; [apply ring_inv_run|done|].
  rewrite run_virtual_nodes. intros p (i & Hi & ->)%elem_of_positions. auto.
Qed.

(** ** Counting a node's ring entries *)

Lemma NoDup_fmap_inj_on {A B} (f : A → B) (l : list A) x y :
  NoDup (f <$> l) → x ∈ l → y ∈ l → f x = f y → x = y.
Proof.
  induction l as [|a l IH]; intros Hnd Hx Hy Hf.
  - by apply elem_of_nil in Hx.
  - rewrite fmap_cons in Hnd. apply NoDup_cons in Hnd as [Ha Hnd].
    apply elem_of_cons in Hx as [->|Hx]; apply elem_of_cons in Hy as [->|Hy].
    + done.
    + destruct Ha. rewrite Hf. by apply list_elem_of_fmap_2.
    + destruct Ha. rewrite <-Hf. by apply list_elem_of_fmap_2.
    + by apply IH.
Qed.

Lemma virtual_indices_spec vn i : i ∈ virtual_indices vn ↔ 0 ≤ i < vn.
Proof.
  unfold virtual_indices. rewrite list_elem_of_fmap. split.
  - intros (j & -> & Hj). apply elem_of_seq in Hj. lia.
  - intros Hi. exists (Z.to_nat i). split; [lia|]. apply elem_of_seq. lia.
Qed.

(** A check of [collision_free] that can be evaluated. *)
Lemma collision_free_check vn ids :
  NoDup (ids ≫= positions vn) → collision_free vn ids.
Proof.
  induction ids as [|a ids IH]; intros Hnd id1 id2 i1 i2 H1 H2 Hi1 Hi2 Hh.
  - by apply elem_of_nil in H1.
  - rewrite bind_cons in Hnd. apply NoDup_app in Hnd as (Ha & Hdisj & Hrest).
    assert (∀ nid i, nid ∈ ids → 0 ≤ i < vn →
              hash (getVirtualNodeKey nid i) ∈ ids ≫= positions vn) as Hin.
    { intros nid i Hnid Hi. apply list_elem_of_bind. exists nid.
      split; [|done]. apply elem_of_positions. eauto. }
    assert (∀ i, 0 ≤ i < vn →
              hash (getVirtualNodeKey a i) ∈ positions vn a) as Hina.
    { intros i Hi. apply elem_of_positions. eauto. }
    apply elem_of_cons in H1 as [->|H1]; apply elem_of_cons in H2 as [->|H2].
    + split; [done|].
      apply (NoDup_fmap_inj_on (λ i, hash (getVirtualNodeKey a i))
               (virtual_indices vn)); [done| | |done];
        by apply virtual_indices_spec.
    + destruct (Hdisj (hash (getVirtualNodeKey a i1))); [auto|].
      rewrite Hh. auto.
    + destruct (Hdisj (hash (getVirtualNodeKey a i2))); [auto|].
      rewrite <-Hh. auto.
    + by apply IH.
Qed.

Lemma collision_free_subseteq vn ids1 ids2 :
  ids1 ⊆ ids2 → collision_free vn ids2 → collision_free vn ids1.
Proof. intros Hsub Hcf id1 id2 i1 i2 H1 H2. apply Hcf; auto. Qed.

Lemma added_ids_snoc ops o :
  added_ids (ops ++ [o])
  = added_ids ops ++ match o with
                     | AddNode node => [Node.id node]
                     | RemoveNode _ => []
                     end.
Proof. unfold added_ids. rewrite omap_app. by destruct o. Qed.

Lemma registered_added vn ops nid :
  is_Some (nodes_ (run vn ops) !! nid) → nid ∈ added_ids ops.
Proof.
  induction ops as [|o ops IH] using rev_ind.
  - simpl. rewrite lookup_empty. by intros [? ?].
  - rewrite run_snoc, added_ids_snoc, elem_of_app. destruct o; simpl.
    + rewrite lookup_insert. case_decide as Hid; [|auto].
      intros _. right. subst. left.
    + rewrite removeNode_nodes, lookup_delete. case_decide; [|auto].
      by intros [? ?].
Qed.

Lemma node_collision_free_subseteq vn ids1 ids2 nid :
  ids1 ⊆ ids2 → node_collision_free vn ids2 nid →
  node_collision_free vn ids1 nid.
Proof. intros Hsub Hcf id' i j Hid. apply Hcf; auto. Qed.

Lemma collision_free_node vn ids nid :
  nid ∈ ids → collision_free vn ids → node_collision_free vn ids nid.
Proof.
  intros Hnid Hcf id' i j Hid Hi Hj Hh.
  by destruct (Hcf nid id' i j) as [-> ->].
Qed.

Lemma node_collision_free_check vn ids nid :
  NoDup (positions vn nid
         ++ remove_dups (filter (λ id', id' ≠ nid) ids ≫= positions vn)) →
  node_collision_free vn ids nid.
Proof.
  intros (Hown & Hdisj & _)%NoDup_app id' i j Hid Hi Hj Hh.
  destruct (decide (id' = nid)) as [->|Hne].
  - split; [done|]. symmetry.
    apply (NoDup_fmap_inj_on (λ i, hash (getVirtualNodeKey nid i))
             (virtual_indices vn)); [done| | |done];
      by apply virtual_indices_spec.
  - destruct (Hdisj (hash (getVirtualNodeKey nid i))).
    + apply elem_of_positions. eauto.
    + apply elem_of_remove_dups, list_elem_of_bind. exists id'. split.
      * rewrite Hh. apply elem_of_positions. eauto.
      * by apply list_elem_of_filter.
Qed.

(** When none of its labels collides with another label, every virtual
    position of a registered node holds that node's identifier. *)
Lemma ring_full_node vn ops nid p :
  node_collision_free vn (added_ids ops) nid →
  is_Some (nodes_ (run vn ops) !! nid) → p ∈ positions vn nid →
  ring_find p (ring_ (run vn ops)) = Some nid.
Proof.
  revert p. induction ops as [|o ops IH] using rev_ind;
    intros p Hcf Hreg Hp.
  - simpl in Hreg. rewrite lookup_empty in Hreg. by destruct Hreg.
  - rewrite added_ids_snoc in Hcf.
    assert (node_collision_free vn (added_ids ops) nid) as Hcf'.
    { eapply node_collision_free_subseteq; [|exact Hcf].
      intros x Hx. apply elem_of_app. by left. }
    pose proof (ring_inv_run vn ops) as Hinv.
    rewrite run_snoc in Hreg |- *.
    apply elem_of_positions in Hp as (i & Hi & ->).
    destruct o as [node|X]; cbn [apply_op] in *.
    + rewrite addNode_ring, ring_find_insert_loop, run_virtual_nodes.
      cbn [addNode nodes_] in Hreg.
      destruct (decide (_ ∈ positions vn (Node.id node))) as [Hin|Hnin].
      * apply elem_of_positions in Hin as (j & Hj & Hh).
        destruct (Hcf (Node.id node) i j) as [-> _]; try done.
        apply elem_of_app. right. left.
      * rewrite lookup_insert in Hreg. case_decide as Hid.
        -- subst. destruct Hnin. apply elem_of_positions. eauto.
        -- apply IH; [done..|]. apply elem_of_positions. eauto.
    + rewrite app_nil_r in Hcf.
      rewrite removeNode_nodes, lookup_delete in Hreg.
      case_decide as HX; [by destruct Hreg|].
      destruct (nodes_ (run vn ops) !! X) as [n|] eqn:HnX;
        [|rewrite removeNode_absent by done; apply IH; [done..|];
          apply elem_of_positions; eauto].
      rewrite (removeNode_ring _ _ n), ring_find_erase_loop, run_virtual_nodes
        by (done || apply Hinv).
      destruct (decide (_ ∈ positions vn X)) as [Hin|Hnin].
      * apply elem_of_positions in Hin as (j & Hj & Hh).
        destruct (Hcf X i j) as [-> _]; try done.
        apply (registered_added vn). by rewrite HnX.
      * apply IH; [done..|]. apply elem_of_positions. eauto.
Qed.

(** Without collisions, every virtual position of a registered node holds
    that node's identifier. *)
Lemma ring_full vn ops nid p :
  collision_free vn (added_ids ops) →
  is_Some (nodes_ (run vn ops) !! nid) → p ∈ positions vn nid →
  ring_find p (ring_ (run vn ops)) = Some nid.
Proof.
  intros Hcf Hreg. apply ring_full_node; [|done].
  apply collision_free_node; [|done]. by apply (registered_added vn).
Qed.

Lemma ring_sorted_NoDup r : ring_sorted r → NoDup (r.*1).
Proof.
  induction r as [|[k w] r IH]; [constructor|].
  intros [Hk Hr]%ring_sorted_cons. rewrite fmap_cons. apply NoDup_cons.
  split; [|auto]. intros (e & Hke & He)%list_elem_of_fmap.
  rewrite Forall_forall in Hk. apply Hk in He. simpl in Hke. lia.
Qed.

Lemma length_positions vn nid : length (positions vn nid) = Z.to_nat vn.
Proof.
  unfold positions, virtual_indices. by rewrite !length_fmap, length_seq.
Qed.

Section ring_count.
Variables (ch : ConsistentHash) (nid : string).
Hypothesis Hinv : ring_inv ch.

Let owned : list (Z * string) := filter (λ e, e.2 = nid) (ring_ ch).

Lemma owned_keys_NoDup : NoDup (owned.*1).
Proof.
  eapply sublist_NoDup; [apply ring_sorted_NoDup, Hinv|].
  apply fmap_sublist, sublist_filter.
Qed.

Lemma owned_keys_positions p :
  p ∈ owned.*1 → p ∈ positions (virtual_nodes_ ch) nid.
Proof.
  intros ([k w] & -> & [Hw He]%list_elem_of_filter)%list_elem_of_fmap.
  simpl in *. subst w.
  apply ring_find_elem in He; [|apply Hinv].
  by destruct (inv_entry _ Hinv _ _ He).
Qed.

Lemma ring_count_le :
  (ring_count nid (ring_ ch) ≤ Z.to_nat (virtual_nodes_ ch))%nat.
Proof.
  unfold ring_count. fold owned.
  rewrite <-(length_positions _ nid), <-(length_fmap fst owned).
  apply submseteq_length, NoDup_submseteq;
    [apply owned_keys_NoDup|apply owned_keys_positions].
Qed.

Lemma ring_count_full :
  NoDup (positions (virtual_nodes_ ch) nid) →
  (∀ p, p ∈ positions (virtual_nodes_ ch) nid →
        ring_find p (ring_ ch) = Some nid) →
  ring_count nid (ring_ ch) = Z.to_nat (virtual_nodes_ ch).
Proof.
  intros Hnd Hfull. unfold ring_count. fold owned.
  rewrite <-(length_positions _ nid), <-(length_fmap fst owned).
  apply Permutation_length, NoDup_Permutation;
    [apply owned_keys_NoDup|done|].
  intros p. split; [apply owned_keys_positions|].
  intros Hp%Hfull%ring_find_Some_elem.
  apply list_elem_of_fmap. exists (p, nid). split; [done|].
  by apply list_elem_of_filter.
Qed.
End ring_count.

(** C2, as amended: in every ring state reached by [addNode]/[removeNode]
    from the empty ring, a registered identifier owns at most
    [virtual_nodes_] ring entries, each at one of its own virtual
    positions; it owns exactly [virtual_nodes_] of them when none of its own
    virtual-node labels hashes to the position of another label, be it
    another label of the same node or a label of a node added so far. *)
Theorem C2_entries_per_node vn ops nid :
  0 ≤ vn →
  hasNode (run vn ops) nid = true →
  Z.of_nat (ring_count nid (ring_ (run vn ops))) ≤ vn ∧
  (∀ p, (p, nid) ∈ ring_ (run vn ops) →
        ∃ i, 0 ≤ i < vn ∧ p = hash (getVirtualNodeKey nid i)) ∧
  (node_collision_free vn (added_ids ops) nid →
   Z.of_nat (ring_count nid (ring_ (run vn ops))) = vn).
Proof.
  intros Hvn Hreg%hasNode_true.
  pose proof (ring_inv_run vn ops) as Hinv.
  pose proof (run_virtual_nodes vn ops) as Hv.
  split; [|split].
  - pose proof (ring_count_le _ nid Hinv). lia.
  - intros p Hin. apply ring_find_elem in Hin; [|apply Hinv].
    destruct (inv_entry _ Hinv _ _ Hin) as [_ Hp].
    rewrite Hv in Hp. by apply elem_of_positions.
  - intros Hcf. rewrite ring_count_full; [lia|done| |]; rewrite Hv.
    + apply NoDup_fmap_2_strong.
      * intros i j Hi%virtual_indices_spec Hj%virtual_indices_spec Hh.
        apply (registered_added vn) in Hreg.
        by destruct (Hcf nid i j).
      * apply NoDup_fmap_2; [apply _|apply NoDup_seq].
    + intros p Hp. by apply ring_full_node.
Qed.

(** ** Claims about the cache node *)

Section cache_node.
Variable peers : Peers.
Implicit Types (s : CacheServer.t) (key value : string).

Lemma isLocalKey_owner s key owner :
  getNode (CacheServer.hash_ring_ s) key = Returns owner →
  CacheServer.isLocalKey s key
  = bool_decide (Node.id owner = CacheServer.node_id_ s).
Proof. unfold CacheServer.isLocalKey. by intros ->. Qed.

Lemma isLocalKey_with_local_cache s cache key :
  CacheServer.isLocalKey (CacheServer.with_local_cache s cache) key
  = CacheServer.isLocalKey s key.
Proof. done. Qed.

Lemma get_local s key value :
  CacheServer.isLocalKey s key = true →
  CacheServer.get peers s key value
  = (Returns (CacheServer.getLocal s key value), s).
Proof. unfold CacheServer.get. by intros ->. Qed.

Lemma set_local s key value :
  CacheServer.isLocalKey s key = true →
  CacheServer.set peers s key value
  = (Returns true,
     CacheServer.with_local_cache s
       (<[key := value]> (CacheServer.local_cache_ s))).
Proof. unfold CacheServer.set. by intros ->. Qed.

Lemma del_local s key :
  CacheServer.isLocalKey s key = true →
  CacheServer.del peers s key
  = (Returns (CacheServer.delLocal s key).1, (CacheServer.delLocal s key).2).
Proof.
  unfold CacheServer.del. intros ->. by destruct (CacheServer.delLocal s key).
Qed.

Lemma getStub_address c node :
  (GrpcClient.getStub c node).1 = Some (GrpcClient.getNodeAddress node) ∧
  GrpcClient.issued (GrpcClient.getStub c node).2 = GrpcClient.issued c.
Proof. unfold GrpcClient.getStub. by case_decide. Qed.

(** The ring of a cache node is a reachable ring state: the constructor
    registers the node itself on a fresh ring of 100 virtual nodes, and
    membership changes are passed on to the ring. *)
Lemma new_hash_ring nid host grpc_port http_port :
  CacheServer.hash_ring_ (CacheServer.new nid host grpc_port http_port)
  = run 100 [AddNode (Node.mk nid host grpc_port http_port)].
Proof. reflexivity. Qed.

Lemma addNode_hash_ring s ops node :
  CacheServer.hash_ring_ s = run 100 ops →
  CacheServer.hash_ring_ (CacheServer.addNode s node)
  = run 100 (ops ++ [AddNode node]).
Proof. intros Hs. rewrite run_snoc, <-Hs. reflexivity. Qed.

Lemma removeNode_hash_ring s ops nid :
  CacheServer.hash_ring_ s = run 100 ops →
  CacheServer.hash_ring_ (CacheServer.removeNode s nid)
  = run 100 (ops ++ [RemoveNode nid]).
Proof. intros Hs. rewrite run_snoc, <-Hs. reflexivity. Qed.

(** Whatever the ring holds, the three operations return: the exception of
    the ownership check is caught, and the second [getNode] of the remote
    branch answers as the first did. *)
Lemma operations_return s key value :
  (∃ r, (CacheServer.get peers s key value).1 = Returns r) ∧
  (∃ b, (CacheServer.set peers s key value).1 = Returns b) ∧
  (∃ b, (CacheServer.del peers s key).1 = Returns b).
Proof.
  unfold CacheServer.get, CacheServer.set, CacheServer.del,
    CacheServer.isLocalKey.
  destruct (getNode (CacheServer.hash_ring_ s) key) as [owner|e].
  - destruct (bool_decide (Node.id owner = CacheServer.node_id_ s)).
    + destruct (CacheServer.delLocal s key).
      split; [|split]; eexists; reflexivity.
    + destruct (GrpcClient.get _ _ _ _ _) as [[? ?] ?].
      destruct (GrpcClient.set _ _ _ _ _) as [? ?].
      destruct (GrpcClient.del _ _ _ _) as [? ?].
      split; [|split]; eexists; reflexivity.
  - destruct (CacheServer.delLocal s key).
    split; [|split]; eexists; reflexivity.
Qed.

(** C5: when the ring's owner of the key is this node, [get], [set] and
    [del] act on the local store and issue no remote call; when the owner is
    another node, each issues exactly one remote call (Get, Set, Delete) to
    the owner's address, leaves the local store alone, and returns what that
    single call gave. *)
Theorem C5_route_by_owner s key owner :
  getNode (CacheServer.hash_ring_ s) key = Returns owner →
  (Node.id owner = CacheServer.node_id_ s →
   (∀ value, CacheServer.get peers s key value
             = (Returns (CacheServer.getLocal s key value), s)) ∧
   (∀ value, CacheServer.set peers s key value
             = (Returns true,
                CacheServer.with_local_cache s
                  (<[key := value]> (CacheServer.local_cache_ s)))) ∧
   CacheServer.del peers s key
   = (Returns (CacheServer.delLocal s key).1,
      (CacheServer.delLocal s key).2)) ∧
  (Node.id owner ≠ CacheServer.node_id_ s →
   let address := GrpcClient.getNodeAddress owner in
   let sent := GrpcClient.issued (CacheServer.grpc_client_ s) in
   (∀ value,
      let request := {| GetRequest_key := key |} in
      let s' := (CacheServer.get peers s key value).2 in
      (CacheServer.get peers s key value).1
      = Returns
          (let '(status, response) := stub_Get peers sent address request in
           if ok status && GetResponse_found response
           then (true, GetResponse_value response)
           else (false, value)) ∧
      GrpcClient.issued (CacheServer.grpc_client_ s')
      = sent ++ [CallGet address request] ∧
      CacheServer.local_cache_ s' = CacheServer.local_cache_ s) ∧
   (∀ value,
      let request := {| SetRequest_key := key; SetRequest_value := value |} in
      let s' := (CacheServer.set peers s key value).2 in
      (CacheServer.set peers s key value).1
      = Returns
          (let '(status, response) := stub_Set peers sent address request in
           ok status && SetResponse_success response) ∧
      GrpcClient.issued (CacheServer.grpc_client_ s')
      = sent ++ [CallSet address request] ∧
      CacheServer.local_cache_ s' = CacheServer.local_cache_ s) ∧
   (let request := {| DeleteRequest_key := key |} in
    let s' := (CacheServer.del peers s key).2 in
    (CacheServer.del peers s key).1
    = Returns
        (let '(status, response) := stub_Delete peers sent address request in
         ok status && DeleteResponse_success response) ∧
    GrpcClient.issued (CacheServer.grpc_client_ s')
    = sent ++ [CallDelete address request] ∧
    CacheServer.local_cache_ s' = CacheServer.local_cache_ s)).
Proof.
  intros Howner. pose proof (isLocalKey_owner _ _ _ Howner) as Hlocal. split.
  - intros Hself. rewrite bool_decide_eq_true_2 in Hlocal by done.
    auto using get_local, set_local, del_local.
  - intros Hother. rewrite bool_decide_eq_false_2 in Hlocal by done.
    pose proof (getStub_address (CacheServer.grpc_client_ s) owner)
      as [Hstub Hissued].
    cbv zeta. split; [|split].
    + intros value. unfold CacheServer.get, GrpcClient.get.
      rewrite Hlocal, Howner.
      destruct (GrpcClient.getStub _ owner) as [stub c]. simpl in *.
      subst stub. rewrite Hissued.
      destruct (stub_Get _ _ _ _) as [status response].
      destruct (ok status && GetResponse_found response); simpl;
        by rewrite Hissued.
    + intros value. unfold CacheServer.set, GrpcClient.set.
      rewrite Hlocal, Howner.
      destruct (GrpcClient.getStub _ owner) as [stub c]. simpl in *.
      subst stub. rewrite Hissued.
      destruct (stub_Set _ _ _ _) as [status response]. simpl.
      by rewrite Hissued.
    + unfold CacheServer.del, GrpcClient.del.
      rewrite Hlocal, Howner.
      destruct (GrpcClient.getStub _ owner) as [stub c]. simpl in *.
      subst stub. rewrite Hissued.
      destruct (stub_Delete _ _ _ _) as [status response]. simpl.
      by rewrite Hissued.
Qed.

(** C6: when the ring's [getNode] fails with "No nodes available",
    [isLocalKey] answers [true], and [get], [set] and [del] serve the key
    from the local store without raising the error. *)
Theorem C6_empty_ring_fails_open s key :
  getNode (CacheServer.hash_ring_ s) key = Throws NoNodesAvailable →
  CacheServer.isLocalKey s key = true ∧
  (∀ value, CacheServer.get peers s key value
            = (Returns (CacheServer.getLocal s key value), s)) ∧
  (∀ value, CacheServer.set peers s key value
            = (Returns true,
               CacheServer.with_local_cache s
                 (<[key := value]> (CacheServer.local_cache_ s)))) ∧
  CacheServer.del peers s key
  = (Returns (CacheServer.delLocal s key).1, (CacheServer.delLocal s key).2).
Proof.
  intros Hthrow.
  assert (CacheServer.isLocalKey s key = true) as Hlocal
    by (unfold CacheServer.isLocalKey; by rewrite Hthrow).
  auto using get_local, set_local, del_local.
Qed.

(** C7: on a key this node owns, [del] returns [true] exactly when the key
    was in the local store, and a second [del] of the same key returns
    [false]. *)
Theorem C7_del_iff_present s key :
  CacheServer.isLocalKey s key = true →
  ((CacheServer.del peers s key).1 = Returns true ↔
   is_Some (CacheServer.local_cache_ s !! key)) ∧
  ((CacheServer.del peers s key).1 = Returns false ↔
   CacheServer.local_cache_ s !! key = None) ∧
  (CacheServer.del peers (CacheServer.del peers s key).2 key).1
  = Returns false.
Proof.
  intros Hlocal. rewrite del_local by done. unfold CacheServer.delLocal.
  destruct (CacheServer.local_cache_ s !! key) as [v|] eqn:Hk; simpl.
  - split; [by split; eauto|]. split; [by split|].
    rewrite del_local by done. unfold CacheServer.delLocal. simpl.
    by rewrite lookup_delete_eq.
  - split; [split; [done|by intros [? ?]]|]. split; [done|].
    rewrite del_local by done. unfold CacheServer.delLocal. by rewrite Hk.
Qed.

(** C8: on the node that owns the key, [get] after [set key v] returns
    found with [v], and [get] after [del key] returns not found. *)
Theorem C8_get_after_set_and_del s key v value :
  CacheServer.isLocalKey s key = true →
  (CacheServer.get peers (CacheServer.set peers s key v).2 key value).1
  = Returns (true, v) ∧
  (CacheServer.get peers (CacheServer.del peers s key).2 key value).1
  = Returns (false, value).
Proof.
  intros Hlocal. rewrite set_local, del_local by done. simpl. split.
  - rewrite get_local by done. unfold CacheServer.getLocal. simpl.
    by rewrite lookup_insert_eq.
  - unfold CacheServer.delLocal.
    destruct (CacheServer.local_cache_ s !! key) as [w|] eqn:Hk; simpl.
    + rewrite get_local by done. unfold CacheServer.getLocal. simpl.
      by rewrite lookup_delete_eq.
    + rewrite get_local by done. unfold CacheServer.getLocal. by rewrite Hk.
Qed.

End cache_node.

(** C9: the [Get], [Set] and [Delete] handlers read and write the local
    store of this node, whatever the ring says about the key: [Get] answers
    with what the local store holds under the key and changes nothing,
    [Set] answers success and leaves the local store with the value under
    the key, [Delete] answers whether the local store held the key and
    leaves it without the key.  Their answers and the local store they
    leave are determined by the local store and the request alone; they
    change neither the ring nor the RPC client, so they issue no call.
    [Health] answers healthy with this node's identifier and changes
    nothing. *)
Theorem C9_handlers_local_only (s s' : CacheServer.t) get_req set_req del_req
    health_req :
  CacheServer.local_cache_ s = CacheServer.local_cache_ s' →
  (CacheServer.Get s get_req
   = (OK,
      {| GetResponse_found :=
           bool_decide (is_Some (CacheServer.local_cache_ s
                                   !! GetRequest_key get_req));
         GetResponse_value :=
           default EmptyString (CacheServer.local_cache_ s
                                  !! GetRequest_key get_req) |},
      s) ∧
   (CacheServer.Set_ s set_req).1 = (OK, {| SetResponse_success := true |}) ∧
   CacheServer.local_cache_ (CacheServer.Set_ s set_req).2
   = <[SetRequest_key set_req := SetRequest_value set_req]>
       (CacheServer.local_cache_ s) ∧
   (CacheServer.Delete s del_req).1
   = (OK,
      {| DeleteResponse_success :=
           bool_decide (is_Some (CacheServer.local_cache_ s
                                   !! DeleteRequest_key del_req)) |}) ∧
   CacheServer.local_cache_ (CacheServer.Delete s del_req).2
   = delete (DeleteRequest_key del_req) (CacheServer.local_cache_ s)) ∧
  ((CacheServer.Get s get_req).1 = (CacheServer.Get s' get_req).1 ∧
   (CacheServer.Set_ s set_req).1 = (CacheServer.Set_ s' set_req).1 ∧
   (CacheServer.Delete s del_req).1 = (CacheServer.Delete s' del_req).1 ∧
   CacheServer.local_cache_ (CacheServer.Get s get_req).2
   = CacheServer.local_cache_ (CacheServer.Get s' get_req).2 ∧
   CacheServer.local_cache_ (CacheServer.Set_ s set_req).2
   = CacheServer.local_cache_ (CacheServer.Set_ s' set_req).2 ∧
   CacheServer.local_cache_ (CacheServer.Delete s del_req).2
   = CacheServer.local_cache_ (CacheServer.Delete s' del_req).2) ∧
  (CacheServer.hash_ring_ (CacheServer.Get s get_req).2
   = CacheServer.hash_ring_ s ∧
   CacheServer.hash_ring_ (CacheServer.Set_ s set_req).2
   = CacheServer.hash_ring_ s ∧
   CacheServer.hash_ring_ (CacheServer.Delete s del_req).2
   = CacheServer.hash_ring_ s ∧
   CacheServer.grpc_client_ (CacheServer.Get s get_req).2
   = CacheServer.grpc_client_ s ∧
   CacheServer.grpc_client_ (CacheServer.Set_ s set_req).2
   = CacheServer.grpc_client_ s ∧
   CacheServer.grpc_client_ (CacheServer.Delete s del_req).2
   = CacheServer.grpc_client_ s) ∧
  CacheServer.Health s health_req
  = (OK,
     {| HealthResponse_healthy := true;
        HealthResponse_node_id := CacheServer.node_id_ s |},
     s).
Proof.
  intros Hcache. split; [|split; [|split; [|done]]].
  - unfold CacheServer.Get, CacheServer.Set_, CacheServer.Delete,
      CacheServer.getLocal, CacheServer.setLocal, CacheServer.delLocal.
    destruct (CacheServer.local_cache_ s !! GetRequest_key get_req)
      as [value|] eqn:Hget;
      destruct (CacheServer.local_cache_ s !! DeleteRequest_key del_req)
        as [old|] eqn:Hdel; cbn [fst snd default from_option];
      rewrite ?(bool_decide_eq_true_2 (is_Some (Some _))) by eauto;
      rewrite ?(bool_decide_eq_false_2 (is_Some None))
        by (by intros [? ?]);
      (split; [done|]); (split; [done|]); (split; [done|]);
      (split; [done|]); try done.
    all: symmetry; by apply delete_id.
  - unfold CacheServer.Get, CacheServer.Set_, CacheServer.Delete,
      CacheServer.getLocal, CacheServer.setLocal, CacheServer.delLocal.
    rewrite <-Hcache.
    destruct (CacheServer.local_cache_ s !! GetRequest_key get_req);
      destruct (CacheServer.local_cache_ s !! DeleteRequest_key del_req);
      simpl; by rewrite <-?Hcache.
  - unfold CacheServer.Get, CacheServer.Set_, CacheServer.Delete,
      CacheServer.getLocal, CacheServer.setLocal, CacheServer.delLocal.
    destruct (CacheServer.local_cache_ s !! GetRequest_key get_req);
      destruct (CacheServer.local_cache_ s !! DeleteRequest_key del_req);
      done.
Qed.

(** ** The deployed cluster, evaluated *)

(** [positions_free] decides the freshness condition of C3. *)
Lemma positions_free_check vn nid r :
  positions_free vn nid r = true →
  ∀ i, 0 ≤ i < vn → ring_find (hash (getVirtualNodeKey nid i)) r = None.
Proof.
  unfold positions_free. rewrite forallb_forall. intros Hall i Hi.
  eapply bool_decide_eq_true, Hall. apply list_elem_of_In, elem_of_positions.
  eauto.
Qed.

(** The 300 virtual-node labels of the deployed cluster hash to 300
    different positions. *)
Lemma cluster_collision_free : collision_free 100 (added_ids cluster_ops).
Proof.
  apply collision_free_check, (bool_decide_unpack _).
  vm_compute. reflexivity.
Qed.

(** The claim C2 as the specification words it: only collisions between
    labels of different nodes are excepted.  The node "node323053" alone,
    with the default 100 virtual nodes, owns 99 ring entries, because its
    labels number 8 and 21 hash to the same position. *)
Lemma C2_counterexample :
  hash (getVirtualNodeKey "node323053" 8) = 894723051 ∧
  hash (getVirtualNodeKey "node323053" 21) = 894723051 ∧
  cross_node_collision_free 100
    (added_ids [AddNode (Node.mk "node323053" "10.0.0.7" 50051 9527)]) ∧
  hasNode (run 100 [AddNode (Node.mk "node323053" "10.0.0.7" 50051 9527)])
    "node323053" = true ∧
  ring_count "node323053"
    (ring_ (run 100 [AddNode (Node.mk "node323053" "10.0.0.7" 50051 9527)]))
  = 99%nat.
Proof.
  split; [vm_compute; reflexivity|]. split; [vm_compute; reflexivity|].
  split; [|split; [lazy; reflexivity|vm_compute; reflexivity]].
  intros id1 id2 i1 i2 H1 H2 Hne. simpl in H1, H2.
  apply list_elem_of_singleton in H1, H2. congruence.
Qed.

(** C2 on the cluster with its guest: the guest "node323053" collides with
    itself, and server1, none of whose labels collides with another one,
    owns exactly 100 ring entries. *)
Lemma C2_entries_per_node_witness :
  node_collision_free 100 (added_ids guest_ops) "server1" ∧
  Z.of_nat (ring_count "server1" (ring_ (run 100 guest_ops))) = 100.
Proof.
  assert (node_collision_free 100 (added_ids guest_ops) "server1") as Hfree.
  { apply node_collision_free_check, (bool_decide_unpack _).
    vm_compute. reflexivity. }
  split; [exact Hfree|].
  refine (proj2 (proj2 (C2_entries_per_node 100 guest_ops "server1" _ _))
            Hfree).
  - lia.
  - lazy. reflexivity.
Defined.

(** The claim C3 fails in two ways.  Re-adding the only registered node and
    then removing it empties the ring.  And on the deployed cluster, adding
    and removing the new node "node128068", whose label number 37 hashes to
    the position of "server1#98", erases that position: the key "server1#98"
    moves from server1 to server2. *)
Lemma C3_counterexample :
  (let ch := run 100 [AddNode server1] in
   getNode ch "user:1" = Returns server1 ∧
   getNode (removeNode (addNode ch server1) "server1") "user:1"
   = Throws NoNodesAvailable) ∧
  (let ch := run 100 cluster_ops in
   let node := Node.mk "node128068" "10.0.0.8" 50051 9527 in
   hasNode ch "node128068" = false ∧
   getNode ch "server1#98" = Returns server1 ∧
   getNode (removeNode (addNode ch node) "node128068") "server1#98"
   = Returns server2).
Proof.
  split; vm_compute; [split|split; [|split]]; reflexivity.
Qed.

(** C3 on the ring of server1 and server2: server3 joins and leaves. *)
Lemma C3_add_remove_restores_witness :
  removeNode (addNode (run 100 [AddNode server1; AddNode server2]) server3)
    "server3"
  = run 100 [AddNode server1; AddNode server2] ∧
  ∀ key,
    getNode
      (removeNode (addNode (run 100 [AddNode server1; AddNode server2]) server3)
         "server3") key
    = getNode (run 100 [AddNode server1; AddNode server2]) key.
Proof.
  apply (C3_add_remove_restores 100 [AddNode server1; AddNode server2] server3).
  - lazy. reflexivity.
  - apply (positions_free_check 100 (Node.id server3)
             (ring_ (run 100 [AddNode server1; AddNode server2]))).
    vm_compute. reflexivity.
Defined.

(** ** A cache node of the deployed cluster, evaluated *)

(** C5 on server1 of the deployed cluster: the key "user:4" belongs to
    server2, and [get] issues the single call Get to server2:50052. *)
Lemma C5_route_by_owner_witness :
  getNode (CacheServer.hash_ring_ node1) "user:4" = Returns server2 ∧
  (CacheServer.get answering_peers node1 "user:4" EmptyString).1
  = Returns (true, "Alice") ∧
  GrpcClient.issued
    (CacheServer.grpc_client_
       (CacheServer.get answering_peers node1 "user:4" EmptyString).2)
  = [CallGet "server2:50052" {| GetRequest_key := "user:4" |}].
Proof.
  assert (getNode (CacheServer.hash_ring_ node1) "user:4" = Returns server2)
    as Howner by (vm_compute; reflexivity).
  split; [exact Howner|].
  destruct (C5_route_by_owner answering_peers node1 "user:4" server2 Howner)
    as [_ Hremote].
  destruct Hremote as [Hget _]; [discriminate|].
  destruct (Hget EmptyString) as (Hresult & Hissued & _).
  split; [exact Hresult|]. rewrite Hissued. lazy. reflexivity.
Defined.

(** C6 on a node whose ring was emptied. *)
Lemma C6_empty_ring_fails_open_witness :
  getNode (CacheServer.hash_ring_ node1_unregistered) "user:1"
  = Throws NoNodesAvailable ∧
  CacheServer.isLocalKey node1_unregistered "user:1" = true.
Proof.
  assert (getNode (CacheServer.hash_ring_ node1_unregistered) "user:1"
          = Throws NoNodesAvailable) as Hthrow by (vm_compute; reflexivity).
  split; [exact Hthrow|].
  exact (proj1 (C6_empty_ring_fails_open answering_peers node1_unregistered
                  "user:1" Hthrow)).
Defined.

(** C7 on a single node: set, del, del again. *)
Lemma C7_del_iff_present_witness :
  (CacheServer.del answering_peers
     (CacheServer.set answering_peers node1_alone "user:1" "Alice").2
     "user:1").1 = Returns true ∧
  (CacheServer.del answering_peers
     (CacheServer.del answering_peers
        (CacheServer.set answering_peers node1_alone "user:1" "Alice").2
        "user:1").2
     "user:1").1 = Returns false.
Proof.
  assert (CacheServer.isLocalKey
            (CacheServer.set answering_peers node1_alone "user:1" "Alice").2
            "user:1" = true) as Hlocal by (vm_compute; reflexivity).
  destruct (C7_del_iff_present answering_peers _ _ Hlocal)
    as (Hpresent & _ & Hsecond).
  split; [|exact Hsecond].
  apply Hpresent. vm_compute. eauto.
Defined.

(** C8 on a single node. *)
Lemma C8_get_after_set_and_del_witness :
  (CacheServer.get answering_peers
     (CacheServer.set answering_peers node1_alone "user:1" "Alice").2
     "user:1" EmptyString).1 = Returns (true, "Alice") ∧
  (CacheServer.get answering_peers
     (CacheServer.del answering_peers node1_alone "user:1").2
     "user:1" EmptyString).1 = Returns (false, EmptyString).
Proof.
  apply (C8_get_after_set_and_del answering_peers node1_alone
           "user:1" "Alice" EmptyString).
  vm_compute. reflexivity.
Defined.

(** C9 on server1 of the deployed cluster, whose ring gives the key
    "user:4" to server2, and on server1 alone: the handlers of the former
    store the key all the same, and both give the same answers. *)
Lemma C9_handlers_local_only_witness :
  CacheServer.local_cache_
    (CacheServer.Set_ node1
       {| SetRequest_key := "user:4"; SetRequest_value := "Dave" |}).2
  = <["user:4" := "Dave"]> (CacheServer.local_cache_ node1) ∧
  (CacheServer.Get node1 {| GetRequest_key := "user:4" |}).1
  = (CacheServer.Get node1_alone {| GetRequest_key := "user:4" |}).1 ∧
  CacheServer.Health node1 mkHealthRequest
  = (OK,
     {| HealthResponse_healthy := true;
        HealthResponse_node_id := CacheServer.node_id_ node1 |},
     node1).
Proof.
  assert (CacheServer.local_cache_ node1
          = CacheServer.local_cache_ node1_alone) as Hcache by reflexivity.
  destruct (C9_handlers_local_only node1 node1_alone
              {| GetRequest_key := "user:4" |}
              {| SetRequest_key := "user:4"; SetRequest_value := "Dave" |}
              {| DeleteRequest_key := "user:4" |}
              mkHealthRequest Hcache)
    as ((_ & _ & Hset & _) & (Hget & _) & _ & Hhealth).
  split; [exact Hset|]. split; [exact Hget|exact Hhealth].
Defined.

(** * Further properties of the hash ring *)

(** ** The successor entry *)

Lemma getNode_by_successor ch key :
  getNode ch key
  = match successor (hash key) (ring_ ch) with
    | None => Throws NoNodesAvailable
    | Some it =>
        match nodes_ ch !! it.2 with
        | Some node => Returns node
        | None => Throws out_of_range
        end
    end.
Proof.
  unfold getNode, successor. destruct (ring_ ch) as [|first r]; [done|].
  by destruct (lower_bound (hash key) (first :: r)).
Qed.

Lemma elem_of_ring_find r e :
  ring_sorted r → (e ∈ r ↔ ring_find e.1 r = Some e.2).
Proof.
  intros Hs. destruct e as [k v]. split.
  - by apply ring_find_elem.
  - apply ring_find_Some_elem.
Qed.

Lemma successor_is_successor h r e :
  ring_sorted r → successor h r = Some e → is_successor h r e.
Proof.
  intros Hs. unfold successor. destruct r as [|first r]; [done|].
  destruct (lower_bound h (first :: r)) as [[k v]|] eqn:Hlb; simpl.
  - intros [= <-].
    destruct (lower_bound_Some _ _ _ _ Hs Hlb) as (Hin & Hle & Hmin).
    split; [done|]. left. by split.
  - intros [= <-]. split; [left|]. right.
    split; [by apply lower_bound_None|by apply ring_begin_least].
Qed.

Lemma is_successor_unique h r e1 e2 :
  ring_sorted r → is_successor h r e1 → is_successor h r e2 → e1 = e2.
Proof.
  intros Hs [Hin1 H1] [Hin2 H2].
  assert (e1.1 = e2.1) as Hkey.
  { destruct H1 as [[Hle1 Hmin1]|[Hall1 Hmin1]],
      H2 as [[Hle2 Hmin2]|[Hall2 Hmin2]].
    - apply Z.le_antisymm; [by apply Hmin1|by apply Hmin2].
    - specialize (Hall2 _ Hin1). lia.
    - specialize (Hall1 _ Hin2). lia.
    - apply Z.le_antisymm; [by apply Hmin1|by apply Hmin2]. }
  apply elem_of_ring_find in Hin1, Hin2; [|done..].
  destruct e1, e2. simpl in *. subst. congruence.
Qed.

Lemma is_successor_successor h r e :
  ring_sorted r → is_successor h r e → successor h r = Some e.
Proof.
  intros Hs He. destruct (successor h r) as [e0|] eqn:Hsucc.
  - f_equal. apply (is_successor_unique h r); [done| |done].
    by apply successor_is_successor.
  - destruct He as [Hin _]. unfold successor in Hsucc.
    destruct r; [by apply elem_of_nil in Hin|done].
Qed.

Lemma elem_of_insert_loop nid ps r e :
  ring_sorted r →
  (e ∈ foldl (λ r p, ring_insert p nid r) r ps ↔
   (e.1 ∈ ps ∧ e.2 = nid) ∨ ((e.1 ∉ ps) ∧ e ∈ r)).
Proof.
  intros Hs. rewrite elem_of_ring_find by by apply insert_loop_sorted.
  rewrite ring_find_insert_loop, (elem_of_ring_find r) by done.
  destruct (decide (e.1 ∈ ps)); split.
  - intros [= <-]. by left.
  - intros [[_ ->]|[? _]]; done.
  - by right.
  - intros [[? _]|[_ ?]]; done.
Qed.

Lemma elem_of_erase_loop ps r e :
  ring_sorted r →
  (e ∈ foldl (λ r p, ring_erase p r) r ps ↔ (e.1 ∉ ps) ∧ e ∈ r).
Proof.
  intros Hs. rewrite elem_of_ring_find by by apply erase_loop_sorted.
  rewrite ring_find_erase_loop, (elem_of_ring_find r) by done.
  destruct (decide (e.1 ∈ ps)); split; try done.
  - by intros [? _].
  - by intros [_ ?].
Qed.

(** Inserting positions for [nid] leaves the successor of [h] where it was
    unless the new successor belongs to [nid]. *)
Lemma successor_insert_loop h nid ps r e :
  ring_sorted r →
  successor h (foldl (λ r p, ring_insert p nid r) r ps) = Some e →
  e.2 = nid ∨ successor h r = Some e.
Proof.
  intros Hs Hsucc.
  apply successor_is_successor in Hsucc as [Hin Hpos];
    [|by apply insert_loop_sorted].
  apply elem_of_insert_loop in Hin; [|done].
  destruct Hin as [[_ ?]|[Hnin Hin]]; [by left|].
  right. apply is_successor_successor; [done|]. split; [done|].
  assert (∀ e', e' ∈ r →
            ∃ e'', e'' ∈ foldl (λ r p, ring_insert p nid r) r ps ∧
                   e''.1 = e'.1) as Hcover.
  { intros e' He'. destruct (decide (e'.1 ∈ ps)).
    - exists (e'.1, nid). split; [|done].
      apply elem_of_insert_loop; [done|]. by left.
    - exists e'. split; [|done]. apply elem_of_insert_loop; [done|].
      by right. }
  destruct Hpos as [[Hle Hmin]|[Hall Hmin]]; [left|right]; split; try done.
  - intros e' He' Hhe'. destruct (Hcover _ He') as (e'' & He'' & Heq).
    rewrite <-Heq in *. by apply Hmin.
  - intros e' He'. destruct (Hcover _ He') as (e'' & He'' & Heq).
    rewrite <-Heq. by apply Hall.
  - intros e' He'. destruct (Hcover _ He') as (e'' & He'' & Heq).
    rewrite <-Heq. by apply Hmin.
Qed.

Lemma insert_loop_nil_inv nid ps r :
  foldl (λ r p, ring_insert p nid r) r ps = [] → r = [].
Proof.
  revert r. induction ps as [|p ps IH]; intros r; simpl; [done|].
  intros Hnil%IH. by destruct r as [|[k w] r]; simpl in Hnil;
    repeat case_match.
Qed.

(** Erasing positions leaves the successor of [h] where it was when its
    position is not erased. *)
Lemma successor_erase_loop h ps r e :
  ring_sorted r → successor h r = Some e → e.1 ∉ ps →
  successor h (foldl (λ r p, ring_erase p r) r ps) = Some e.
Proof.
  intros Hs Hsucc Hnin.
  apply successor_is_successor in Hsucc as [Hin Hpos]; [|done].
  apply is_successor_successor; [by apply erase_loop_sorted|].
  split; [by apply elem_of_erase_loop|].
  destruct Hpos as [[Hle Hmin]|[Hall Hmin]]; [left|right]; split; try done.
  - intros e' [_ He']%elem_of_erase_loop; auto.
  - intros e' [_ He']%elem_of_erase_loop; auto.
  - intros e' [_ He']%elem_of_erase_loop; auto.
Qed.

Lemma lower_bound_hit p v r :
  ring_sorted r → (p, v) ∈ r → successor p r = Some (p, v).
Proof.
  intros Hs Hin. apply is_successor_successor; [done|].
  split; [done|]. left. simpl. split; [lia|]. by intros.
Qed.

Lemma ConsistentHash_eq ch1 ch2 :
  virtual_nodes_ ch1 = virtual_nodes_ ch2 → ring_ ch1 = ring_ ch2 →
  nodes_ ch1 = nodes_ ch2 → ch1 = ch2.
Proof. destruct ch1, ch2. simpl. by intros -> -> ->. Qed.

(** ** Adding a node *)

(** X1: adding the same node twice in a row is the same as adding it
    once. *)
Theorem X1_addNode_idempotent vn ops node :
  addNode (addNode (run vn ops) node) node = addNode (run vn ops) node.
Proof.
  pose proof (ring_inv_run vn ops) as Hinv.
  apply ConsistentHash_eq; [done| |simpl; apply insert_insert_eq].
  rewrite (addNode_ring (addNode _ _)), addNode_virtual_nodes.
  apply ring_ext.
  - apply insert_loop_sorted, (ring_inv_addNode _ _ Hinv).
  - apply (ring_inv_addNode _ _ Hinv).
  - intros k. rewrite ring_find_insert_loop.
    destruct (decide (k ∈ _)) as [Hin|]; [|done].
    by rewrite addNode_ring, ring_find_insert_loop, decide_True.
Qed.

(** X2: right after a node is added, it owns each of its own virtual-node
    labels: [getNode] on the label [id#i] returns the node just added. *)
Theorem X2_new_node_owns_its_labels vn ops node i :
  0 ≤ i < vn →
  getNode (addNode (run vn ops) node) (getVirtualNodeKey (Node.id node) i)
  = Returns node.
Proof.
  intros Hi. pose proof (ring_inv_run vn ops) as Hinv.
  pose proof (ring_inv_addNode _ node Hinv) as Hinv'.
  rewrite getNode_by_successor.
  rewrite (lower_bound_hit _ (Node.id node)); [|apply Hinv'|].
  - simpl. by rewrite lookup_insert_eq.
  - rewrite addNode_ring. apply elem_of_insert_loop; [apply Hinv|].
    left. split; [|done]. simpl. rewrite run_virtual_nodes.
    apply elem_of_positions. eauto.
Qed.

(** X3: adding a node moves keys to that node only: every key is either
    answered with the node just added or answered as before the add
    (including the failure on a ring that stays empty). *)
Theorem X3_addNode_moves_keys_only_to_new_node vn ops node key :
  getNode (addNode (run vn ops) node) key = Returns node ∨
  getNode (addNode (run vn ops) node) key = getNode (run vn ops) key.
Proof.
  pose proof (ring_inv_run vn ops) as Hinv.
  rewrite !getNode_by_successor, addNode_ring.
  destruct (successor (hash key) (foldl _ _ _)) as [e|] eqn:Hsucc.
  - apply successor_insert_loop in Hsucc; [|apply Hinv].
    destruct Hsucc as [Hid|Hold].
    + left. simpl. by rewrite Hid, lookup_insert_eq.
    + rewrite Hold. simpl. rewrite lookup_insert.
      case_decide as Hid; [by left|by right].
  - right. unfold successor in Hsucc.
    destruct (foldl _ _ _) eqn:Hfold; [|done].
    by rewrite (insert_loop_nil_inv _ _ _ Hfold).
Qed.

(** ** Removing a node *)

(** X4: when no two virtual-node labels collide, removing a node leaves
    every key of the other nodes where it was. *)
Theorem X4_removeNode_keeps_other_owners vn ops X key n :
  collision_free vn (added_ids ops) →
  getNode (run vn ops) key = Returns n →
  Node.id n ≠ X →
  getNode (removeNode (run vn ops) X) key = Returns n.
Proof.
  intros Hcf Hget Hne. pose proof (ring_inv_run vn ops) as Hinv.
  destruct (nodes_ (run vn ops) !! X) as [x|] eqn:HX;
    [|by rewrite removeNode_absent].
  rewrite getNode_by_successor in Hget |- *.
  destruct (successor (hash key) (ring_ (run vn ops))) as [e|] eqn:Hsucc;
    [|done].
  destruct (nodes_ (run vn ops) !! e.2) as [n'|] eqn:Hn; [|done].
  injection Hget as ->.
  pose proof (inv_id _ Hinv _ _ Hn) as Hid.
  pose proof (successor_is_successor _ _ _ (inv_sorted _ Hinv) Hsucc)
    as [Hin _].
  apply elem_of_ring_find in Hin; [|apply Hinv].
  destruct (inv_entry _ Hinv _ _ Hin) as [_ Hpos].
  rewrite run_virtual_nodes in Hpos.
  rewrite (removeNode_ring _ _ x HX), run_virtual_nodes.
  rewrite (successor_erase_loop _ _ _ e); [|apply Hinv|done|].
  - rewrite removeNode_nodes, lookup_delete_ne, Hn; [done|congruence].
  - intros HposX.
    apply elem_of_positions in Hpos as (i & Hi & Hpi).
    apply elem_of_positions in HposX as (j & Hj & Hpj).
    destruct (Hcf e.2 X i j) as [HeX _]; try done.
    + apply (registered_added vn). by rewrite Hn.
    + apply (registered_added vn). by rewrite HX.
    + congruence.
    + congruence.
Qed.

(** ** The ring as a function of the registry *)

(** Without collisions the ring holds exactly the virtual positions of the
    registered nodes, each with its node's identifier. *)
Lemma ring_find_registered vn ops p nid :
  collision_free vn (added_ids ops) →
  ring_find p (ring_ (run vn ops)) = Some nid ↔
  is_Some (nodes_ (run vn ops) !! nid) ∧ p ∈ positions vn nid.
Proof.
  intros Hcf. pose proof (ring_inv_run vn ops) as Hinv. split.
  - intros Hf. destruct (inv_entry _ Hinv _ _ Hf) as [Hreg Hpos].
    by rewrite run_virtual_nodes in Hpos.
  - intros [Hreg Hpos]. by apply ring_full.
Qed.

Lemma ring_determined_by_registry vn ops1 ops2 :
  collision_free vn (added_ids ops1) →
  collision_free vn (added_ids ops2) →
  dom (nodes_ (run vn ops1)) = dom (nodes_ (run vn ops2)) →
  ring_ (run vn ops1) = ring_ (run vn ops2) ∧
  ∀ key n1,
    getNode (run vn ops1) key = Returns n1 →
    ∃ n2, getNode (run vn ops2) key = Returns n2 ∧ Node.id n2 = Node.id n1.
Proof.
  intros Hcf1 Hcf2 Hdom.
  pose proof (ring_inv_run vn ops1) as Hinv1.
  pose proof (ring_inv_run vn ops2) as Hinv2.
  assert (∀ nid, is_Some (nodes_ (run vn ops1) !! nid)
                 ↔ is_Some (nodes_ (run vn ops2) !! nid)) as Hreg.
  { intros nid. by rewrite <-!elem_of_dom, Hdom. }
  assert (ring_ (run vn ops1) = ring_ (run vn ops2)) as Hring.
  { apply ring_ext; [apply Hinv1|apply Hinv2|]. intros k.
    apply option_eq. intros nid.
    rewrite !ring_find_registered by done. by rewrite Hreg. }
  split; [done|]. intros key n1. rewrite !getNode_by_successor, Hring.
  destruct (successor (hash key) (ring_ (run vn ops2))) as [e|]; [|done].
  destruct (nodes_ (run vn ops1) !! e.2) as [n|] eqn:Hn1; [|done].
  intros [= ->].
  destruct (proj1 (Hreg e.2)) as [n2 Hn2]; [by rewrite Hn1|].
  exists n2. rewrite Hn2. split; [done|].
  by rewrite (inv_id _ Hinv1 _ _ Hn1), (inv_id _ Hinv2 _ _ Hn2).
Qed.

(** X5: when no two virtual-node labels collide, the ring depends only on
    which identifiers are registered, not on the order or the history of
    the membership changes: two histories that register the same
    identifiers give the same ring, and [getNode] answers every key with
    nodes of the same identifier. *)
Theorem X5_ring_independent_of_history vn ops1 ops2 :
  collision_free vn (added_ids ops1) →
  collision_free vn (added_ids ops2) →
  dom (nodes_ (run vn ops1)) = dom (nodes_ (run vn ops2)) →
  ring_ (run vn ops1) = ring_ (run vn ops2) ∧
  ∀ key n1,
    getNode (run vn ops1) key = Returns n1 →
    ∃ n2, getNode (run vn ops2) key = Returns n2 ∧ Node.id n2 = Node.id n1.
Proof. apply ring_determined_by_registry. Qed.

Lemma getNode_throws_iff_registry_empty vn ops key :
  0 < vn →
  collision_free vn (added_ids ops) →
  getNode (run vn ops) key = Throws NoNodesAvailable ↔
  nodes_ (run vn ops) = ∅.
Proof.
  intros Hvn Hcf. pose proof (ring_inv_run vn ops) as Hinv. split.
  - intros Hthrow. apply map_empty. intros nid.
    destruct (nodes_ (run vn ops) !! nid) as [n|] eqn:Hn; [|done].
    assert (ring_find (hash (getVirtualNodeKey nid 0)) (ring_ (run vn ops))
            = Some nid) as Hf.
    { apply ring_full; [done|by rewrite Hn|].
      apply elem_of_positions. exists 0. split; [lia|done]. }
    apply ring_find_Some_elem in Hf.
    destruct (getNode_successor _ key Hinv) as (? & ? & ? & Hg & _);
      [|congruence].
    intros Hnil. rewrite Hnil in Hf. by apply elem_of_nil in Hf.
  - intros Hempty. apply getNode_empty.
    destruct (ring_ (run vn ops)) as [|[p nid] r] eqn:Hr; [done|].
    destruct (ring_elem_registered _ p nid Hinv) as (n & Hn & _);
      [rewrite Hr; left|].
    by rewrite Hempty, lookup_empty in Hn.
Qed.

(** X6: with at least one virtual node per node and no colliding labels,
    [getNode] fails with "No nodes available" exactly when no node is
    registered. *)
Theorem X6_no_nodes_iff_registry_empty vn ops key :
  0 < vn →
  collision_free vn (added_ids ops) →
  getNode (run vn ops) key = Throws NoNodesAvailable ↔
  nodes_ (run vn ops) = ∅.
Proof. apply getNode_throws_iff_registry_empty. Qed.

(** ** [getAllNodes] and [hasNode] *)

(** X7: in every reachable ring state, [getAllNodes] lists each registered
    node exactly once and nothing else: its identifiers are pairwise
    different, and an identifier appears in it exactly when [hasNode]
    holds. *)
Theorem X7_getAllNodes_lists_registry vn ops :
  NoDup (Node.id <$> getAllNodes (run vn ops)) ∧
  (∀ n, n ∈ getAllNodes (run vn ops) ↔
        nodes_ (run vn ops) !! Node.id n = Some n) ∧
  (∀ nid, hasNode (run vn ops) nid = true ↔
          nid ∈ Node.id <$> getAllNodes (run vn ops)).
Proof.
  pose proof (ring_inv_run vn ops) as Hinv. unfold getAllNodes.
  assert (∀ n, n ∈ (map_to_list (nodes_ (run vn ops))).*2 ↔
               nodes_ (run vn ops) !! Node.id n = Some n) as Hmem.
  { intros n. rewrite list_elem_of_fmap. split.
    - intros ([k n'] & -> & Hin%elem_of_map_to_list). simpl.
      by rewrite (inv_id _ Hinv _ _ Hin).
    - intros Hn. exists (Node.id n, n). split; [done|].
      by apply elem_of_map_to_list. }
  split; [|split; [done|]].
  - assert (Node.id <$> (map_to_list (nodes_ (run vn ops))).*2
            = (map_to_list (nodes_ (run vn ops))).*1) as ->.
    { rewrite <-list_fmap_compose. apply list_fmap_ext.
      intros i [k n] Hin%list_elem_of_lookup_2%elem_of_map_to_list. simpl.
      by apply (inv_id _ Hinv). }
    apply NoDup_fst_map_to_list.
  - intros nid. rewrite hasNode_true, list_elem_of_fmap. split.
    + intros [n Hn]. exists n. split; [|by apply Hmem; rewrite (inv_id _ Hinv _ _ Hn)].
      symmetry. by apply (inv_id _ Hinv).
    + intros (n & -> & Hn%Hmem). eauto.
Qed.

(** ** Virtual-node labels and the hash *)

Lemma pretty_N_go_no_sep (c : ascii) x s :
  (∀ k, pretty_N_char k ≠ c) →
  (∀ a b, s ≠ a +:+ String c b) →
  ∀ a b, pretty_N_go x s ≠ a +:+ String c b.
Proof.
  intros Hdigit. revert s.
  induction (N.lt_wf_0 x) as [x _ IH]; intros s Hs.
  assert (x = 0 ∨ 0 < x)%N as [->|Hpos] by lia.
  - by rewrite pretty_N_go_0.
  - rewrite pretty_N_go_step by done. apply IH; [by apply N.div_lt|].
    intros [|d a] b; simpl.
    + intros [= Hd _]. by apply Hdigit in Hd.
    + intros [= _ Hs']. by apply Hs in Hs'.
Qed.

Lemma pretty_Z_no_sep (c : ascii) (i : Z) a b :
  (∀ k, pretty_N_char k ≠ c) → c ≠ "-"%char →
  pretty i ≠ a +:+ String c b.
Proof.
  intros Hdigit Hdash.
  assert (∀ a b, EmptyString ≠ a +:+ String c b) as Hnil
    by (by intros [|??] ?).
  assert (∀ p a b, pretty (N.pos p) ≠ a +:+ String c b) as Hpos.
  { intros p a' b'. unfold pretty, pretty_N. rewrite decide_False by done.
    by apply pretty_N_go_no_sep. }
  destruct i as [|p|p]; unfold pretty, pretty_Z.
  - destruct a as [|d a]; simpl.
    + intros [= Hd]. by apply (Hdigit 0%N).
    + intros [= _ Hs]. by apply Hnil in Hs.
  - apply Hpos.
  - destruct a as [|d a]; simpl.
    + intros [= Hd]. by apply Hdash.
    + intros [= _ Hs]. by apply Hpos in Hs.
Qed.

Lemma append_sep_inj (c : ascii) s1 t1 s2 t2 :
  (∀ a b, t1 ≠ a +:+ String c b) →
  (∀ a b, t2 ≠ a +:+ String c b) →
  s1 +:+ String c t1 = s2 +:+ String c t2 → s1 = s2 ∧ t1 = t2.
Proof.
  intros H1 H2. revert s2.
  induction s1 as [|d1 s1 IH]; intros [|d2 s2]; simpl.
  - by intros [= ->].
  - intros [= _ Ht]. by apply H1 in Ht.
  - intros [= _ Ht]. symmetry in Ht. by apply H2 in Ht.
  - intros [= -> Hs]. by destruct (IH _ Hs) as [-> ->].
Qed.

Lemma digit_not_hash k : pretty_N_char k ≠ "#"%char.
Proof. unfold pretty_N_char. by repeat case_match. Qed.

(** X8: different (node identifier, index) pairs give different
    virtual-node labels, whatever characters the identifier holds; so two
    virtual nodes share a ring position only when MD5 collides on their
    labels. *)
Theorem X8_getVirtualNodeKey_injective id1 i1 id2 i2 :
  getVirtualNodeKey id1 i1 = getVirtualNodeKey id2 i2 →
  id1 = id2 ∧ i1 = i2.
Proof.
  unfold getVirtualNodeKey. simpl. intros Heq.
  apply append_sep_inj in Heq as [-> Hp].
  - split; [done|]. by apply (inj pretty).
  - intros a b. by apply pretty_Z_no_sep; [apply digit_not_hash|].
  - intros a b. by apply pretty_Z_no_sep; [apply digit_not_hash|].
Qed.

Lemma lor_shift_byte x b :
  0 ≤ x < 2 ^ 24 → 0 ≤ b < 2 ^ 8 →
  Z.lor (Z.shiftl x 8 mod 2 ^ 32) b = x * 2 ^ 8 + b.
Proof.
  intros Hx Hb. rewrite Z.shiftl_mul_pow2 by lia.
  rewrite Z.mod_small by lia.
  pose proof (Z.add_lor_land (x * 2 ^ 8) b) as Hadd.
  assert (Z.land (x * 2 ^ 8) b = 0) as Hland; [|rewrite Hland in Hadd; lia].
  apply Z.bits_inj'. intros n Hn. rewrite Z.land_spec, Z.bits_0.
  destruct (Z.lt_ge_cases n 8).
  - by rewrite Z.mul_pow2_bits_low.
  - assert (Z.testbit b n = false) as ->; [|by rewrite andb_false_r].
    destruct (Z.eq_dec b 0) as [->|]; [apply Z.bits_0|].
    apply Z.bits_above_log2; [lia|].
    assert (Z.log2 b < 8); [|lia]. apply Z.log2_lt_pow2; lia.
Qed.

(** X9: [hash] is the big-endian number formed by the first four digest
    bytes, and lies within [uint32_t]: the shifts never drop a bit. *)
Theorem X9_hash_big_endian str :
  hash str
  = MD5.nthZ (MD5.digest str) 0 * 2 ^ 24
    + MD5.nthZ (MD5.digest str) 1 * 2 ^ 16
    + MD5.nthZ (MD5.digest str) 2 * 2 ^ 8
    + MD5.nthZ (MD5.digest str) 3 ∧
  0 ≤ hash str < 2 ^ 32.
Proof.
  split; [|apply hash_range].
  unfold hash. cbn [fold_left].
  pose proof (digest_byte_range str 0). pose proof (digest_byte_range str 1).
  pose proof (digest_byte_range str 2). pose proof (digest_byte_range str 3).
  generalize dependent (MD5.nthZ (MD5.digest str) 0).
  generalize dependent (MD5.nthZ (MD5.digest str) 1).
  generalize dependent (MD5.nthZ (MD5.digest str) 2).
  generalize dependent (MD5.nthZ (MD5.digest str) 3).
  intros d3 H3 d2 H2 d1 H1 d0 H0.
  rewrite (lor_shift_byte 0 d0) by lia.
  rewrite (lor_shift_byte (0 * 2 ^ 8 + d0) d1) by lia.
  rewrite (lor_shift_byte ((0 * 2 ^ 8 + d0) * 2 ^ 8 + d1) d2) by lia.
  rewrite lor_shift_byte by lia. lia.
Qed.

(** * Further properties of the RPC client and the cache node *)

(** ** The connection pool *)

Lemma getStub_effect c node :
  (GrpcClient.getStub c node).1 = Some (GrpcClient.getNodeAddress node) ∧
  GrpcClient.stubs_ (GrpcClient.getStub c node).2
  = {[GrpcClient.getNodeAddress node]} ∪ GrpcClient.stubs_ c ∧
  GrpcClient.issued (GrpcClient.getStub c node).2 = GrpcClient.issued c.
Proof.
  unfold GrpcClient.getStub. case_decide as Hin; simpl; [|done].
  split; [done|]. split; [|done]. symmetry.
  by apply subseteq_union_1_L, singleton_subseteq_l.
Qed.

Lemma client_step_effect peers c op :
  GrpcClient.stubs_ (client_step peers c op)
  = {[GrpcClient.getNodeAddress (client_op_node op)]} ∪ GrpcClient.stubs_ c ∧
  ∃ call,
    GrpcClient.issued (client_step peers c op)
    = GrpcClient.issued c ++ [call] ∧
    call_address call = GrpcClient.getNodeAddress (client_op_node op).
Proof.
  pose proof (getStub_effect c (client_op_node op)) as (Hstub & Hpool & Hlog).
  destruct op as [node key value|node key value|node key|node]; simpl in *;
    unfold GrpcClient.get, GrpcClient.set, GrpcClient.del, GrpcClient.health;
    destruct (GrpcClient.getStub c node) as [stub c']; simpl in *;
    subst stub.
  - destruct (stub_Get _ _ _ _) as [st r].
    destruct (ok st && GetResponse_found r); simpl;
      rewrite Hpool, Hlog; eauto.
  - destruct (stub_Set _ _ _ _) as [st r]. simpl. rewrite Hpool, Hlog. eauto.
  - destruct (stub_Delete _ _ _ _) as [st r]. simpl.
    rewrite Hpool, Hlog. eauto.
  - destruct (stub_Health _ _ _ _) as [st r]. simpl.
    rewrite Hpool, Hlog. eauto.
Qed.

(** X10: over any sequence of client calls from a fresh client, every call
    issues exactly one request, in order, to [host:grpc_port] of its node,
    and the pool holds a stub for exactly the addresses called so far:
    stubs are created on first use and never dropped, whatever the
    peers answer. *)
Theorem X10_pool_holds_called_addresses peers (ops : list client_op) :
  call_address
    <$> GrpcClient.issued (foldl (client_step peers) GrpcClient.new ops)
  = (λ op, GrpcClient.getNodeAddress (client_op_node op)) <$> ops ∧
  GrpcClient.stubs_ (foldl (client_step peers) GrpcClient.new ops)
  = list_to_set
      (call_address
         <$> GrpcClient.issued (foldl (client_step peers) GrpcClient.new ops)).
Proof.
  induction ops as [|op ops IH] using rev_ind; [done|].
  rewrite foldl_app. simpl. destruct IH as [IH1 IH2].
  destruct (client_step_effect peers
              (foldl (client_step peers) GrpcClient.new ops) op)
    as (Hstubs & call & Hissued & Haddr).
  rewrite Hstubs, Hissued, !fmap_app, IH1. simpl. rewrite Haddr.
  split; [done|]. rewrite IH2, IH1, list_to_set_app_L. simpl.
  by rewrite (right_id_L ∅ (∪)), (comm_L (∪)).
Qed.

(** ** Remote operations *)

Section remote.
Variable peers : Peers.
Implicit Types (s : CacheServer.t) (key value : string).

Lemma remote_stub s owner :
  ∃ c',
    GrpcClient.getStub (CacheServer.grpc_client_ s) owner
    = (Some (GrpcClient.getNodeAddress owner), c') ∧
    GrpcClient.issued c' = GrpcClient.issued (CacheServer.grpc_client_ s).
Proof.
  destruct (getStub_effect (CacheServer.grpc_client_ s) owner)
    as (Hstub & _ & Hlog).
  destruct (GrpcClient.getStub _ owner) as [stub c']. simpl in *.
  subst stub. eauto.
Qed.

Lemma get_remote s key value owner :
  getNode (CacheServer.hash_ring_ s) key = Returns owner →
  Node.id owner ≠ CacheServer.node_id_ s →
  ∃ c',
    GrpcClient.issued c' = GrpcClient.issued (CacheServer.grpc_client_ s) ∧
    CacheServer.get peers s key value
    = (let '(status, response) :=
         stub_Get peers (GrpcClient.issued (CacheServer.grpc_client_ s))
           (GrpcClient.getNodeAddress owner) {| GetRequest_key := key |} in
       (Returns (if ok status && GetResponse_found response
                 then (true, GetResponse_value response)
                 else (false, value)),
        CacheServer.with_grpc_client s
          (GrpcClient.record_call c'
             (CallGet (GrpcClient.getNodeAddress owner)
                {| GetRequest_key := key |})))).
Proof.
  intros Howner Hne. destruct (remote_stub s owner) as (c' & Hstub & Hlog).
  exists c'. split; [done|].
  unfold CacheServer.get, GrpcClient.get.
  rewrite (isLocalKey_owner _ _ _ Howner), bool_decide_eq_false_2 by done.
  rewrite Howner, Hstub, Hlog.
  destruct (stub_Get _ _ _ _) as [status response].
  by destruct (ok status && GetResponse_found response).
Qed.

Lemma set_remote s key value owner :
  getNode (CacheServer.hash_ring_ s) key = Returns owner →
  Node.id owner ≠ CacheServer.node_id_ s →
  ∃ c',
    GrpcClient.issued c' = GrpcClient.issued (CacheServer.grpc_client_ s) ∧
    CacheServer.set peers s key value
    = (let request :=
         {| SetRequest_key := key; SetRequest_value := value |} in
       let '(status, response) :=
         stub_Set peers (GrpcClient.issued (CacheServer.grpc_client_ s))
           (GrpcClient.getNodeAddress owner) request in
       (Returns (ok status && SetResponse_success response),
        CacheServer.with_grpc_client s
          (GrpcClient.record_call c'
             (CallSet (GrpcClient.getNodeAddress owner) request)))).
Proof.
  intros Howner Hne. destruct (remote_stub s owner) as (c' & Hstub & Hlog).
  exists c'. split; [done|].
  unfold CacheServer.set, GrpcClient.set.
  rewrite (isLocalKey_owner _ _ _ Howner), bool_decide_eq_false_2 by done.
  rewrite Howner, Hstub, Hlog. cbv zeta.
  by destruct (stub_Set _ _ _ _) as [status response].
Qed.

Lemma del_remote s key owner :
  getNode (CacheServer.hash_ring_ s) key = Returns owner →
  Node.id owner ≠ CacheServer.node_id_ s →
  ∃ c',
    GrpcClient.issued c' = GrpcClient.issued (CacheServer.grpc_client_ s) ∧
    CacheServer.del peers s key
    = (let request := {| DeleteRequest_key := key |} in
       let '(status, response) :=
         stub_Delete peers (GrpcClient.issued (CacheServer.grpc_client_ s))
           (GrpcClient.getNodeAddress owner) request in
       (Returns (ok status && DeleteResponse_success response),
        CacheServer.with_grpc_client s
          (GrpcClient.record_call c'
             (CallDelete (GrpcClient.getNodeAddress owner) request)))).
Proof.
  intros Howner Hne. destruct (remote_stub s owner) as (c' & Hstub & Hlog).
  exists c'. split; [done|].
  unfold CacheServer.del, GrpcClient.del.
  rewrite (isLocalKey_owner _ _ _ Howner), bool_decide_eq_false_2 by done.
  rewrite Howner, Hstub, Hlog. cbv zeta.
  by destruct (stub_Delete _ _ _ _) as [status response].
Qed.

(** X11: when the owner of a key is another node and the call to it fails,
    the operation fails too and nothing is done locally: [get] reports not
    found and leaves the caller's value alone, [set] and [del] return
    false, and the local store is as before (no local fallback). *)
Theorem X11_failed_call_fails_operation s key value owner :
  getNode (CacheServer.hash_ring_ s) key = Returns owner →
  Node.id owner ≠ CacheServer.node_id_ s →
  (∀ log address request, (stub_Get peers log address request).1 = Failed) →
  (∀ log address request, (stub_Set peers log address request).1 = Failed) →
  (∀ log address request,
     (stub_Delete peers log address request).1 = Failed) →
  (CacheServer.get peers s key value).1 = Returns (false, value) ∧
  (CacheServer.set peers s key value).1 = Returns false ∧
  (CacheServer.del peers s key).1 = Returns false ∧
  CacheServer.local_cache_ (CacheServer.get peers s key value).2
  = CacheServer.local_cache_ s ∧
  CacheServer.local_cache_ (CacheServer.set peers s key value).2
  = CacheServer.local_cache_ s ∧
  CacheServer.local_cache_ (CacheServer.del peers s key).2
  = CacheServer.local_cache_ s.
Proof.
  intros Howner Hne HGet HSet HDel.
  destruct (get_remote s key value owner Howner Hne) as (cg & _ & ->).
  destruct (set_remote s key value owner Howner Hne) as (cs & _ & ->).
  destruct (del_remote s key owner Howner Hne) as (cd & _ & ->).
  cbv zeta.
  specialize (HGet (GrpcClient.issued (CacheServer.grpc_client_ s))
                (GrpcClient.getNodeAddress owner) {| GetRequest_key := key |}).
  specialize (HSet (GrpcClient.issued (CacheServer.grpc_client_ s))
                (GrpcClient.getNodeAddress owner)
                {| SetRequest_key := key; SetRequest_value := value |}).
  specialize (HDel (GrpcClient.issued (CacheServer.grpc_client_ s))
                (GrpcClient.getNodeAddress owner)
                {| DeleteRequest_key := key |}).
  destruct (stub_Get _ _ _ _) as [st1 r1], (stub_Set _ _ _ _) as [st2 r2],
    (stub_Delete _ _ _ _) as [st3 r3].
  simpl in *. by subst.
Qed.

End remote.

(** ** The service handlers *)

(** X12: the handlers form a store of their own, whatever the ring says
    about ownership: [Get] after [Set] of a key answers found with the
    value set; [Delete] answers success exactly when the key is stored;
    [Get] after [Delete] answers not found with an empty value; and [Get]
    changes nothing. *)
Theorem X12_handlers_round_trip (s : CacheServer.t) key value :
  (CacheServer.Get
     (CacheServer.Set_ s
        {| SetRequest_key := key; SetRequest_value := value |}).2
     {| GetRequest_key := key |}).1
  = (OK, {| GetResponse_found := true; GetResponse_value := value |}) ∧
  (CacheServer.Delete s {| DeleteRequest_key := key |}).1
  = (OK, {| DeleteResponse_success :=
              bool_decide (is_Some (CacheServer.local_cache_ s !! key)) |}) ∧
  (CacheServer.Get
     (CacheServer.Delete s {| DeleteRequest_key := key |}).2
     {| GetRequest_key := key |}).1
  = (OK, {| GetResponse_found := false;
            GetResponse_value := EmptyString |}) ∧
  (CacheServer.Get s {| GetRequest_key := key |}).2 = s.
Proof.
  unfold CacheServer.Get, CacheServer.Set_, CacheServer.Delete,
    CacheServer.getLocal, CacheServer.setLocal, CacheServer.delLocal.
  simpl. rewrite lookup_insert_eq.
  destruct (CacheServer.local_cache_ s !! key) as [v|] eqn:Hk; simpl.
  - by rewrite lookup_delete_eq.
  - rewrite Hk. by destruct s.
Qed.

(** ** A key stored on its owner through the owner's handlers *)

Lemma peer_state_snoc address s0 log call :
  call_address call = address →
  peer_state address s0 (log ++ [call])
  = handle_call (peer_state address s0 log) call.
Proof.
  intros Ha. unfold peer_state.
  rewrite filter_app, filter_cons_True, filter_nil by done.
  by rewrite foldl_app.
Qed.

Lemma served_Set address sB log request :
  stub_Set (served_by address sB) log address request
  = (OK, {| SetResponse_success := true |}).
Proof. simpl. by rewrite decide_True. Qed.

Lemma served_Get address sB log key :
  stub_Get (served_by address sB) log address {| GetRequest_key := key |}
  = (OK,
     match CacheServer.local_cache_ (peer_state address sB log) !! key with
     | Some v => {| GetResponse_found := true; GetResponse_value := v |}
     | None => {| GetResponse_found := false;
                  GetResponse_value := EmptyString |}
     end).
Proof.
  simpl. rewrite decide_True by done.
  unfold CacheServer.Get, CacheServer.getLocal. simpl.
  by destruct (CacheServer.local_cache_ _ !! key).
Qed.

Lemma served_Delete address sB log key :
  stub_Delete (served_by address sB) log address
    {| DeleteRequest_key := key |}
  = (OK,
     {| DeleteResponse_success :=
          bool_decide
            (is_Some
               (CacheServer.local_cache_ (peer_state address sB log)
                  !! key)) |}).
Proof.
  simpl. rewrite decide_True by done.
  unfold CacheServer.Delete, CacheServer.delLocal. simpl.
  by destruct (CacheServer.local_cache_ _ !! key).
Qed.

Lemma peer_state_Set address sB log key value :
  CacheServer.local_cache_
    (peer_state address sB
       (log ++ [CallSet address
                  {| SetRequest_key := key; SetRequest_value := value |}]))
  = <[key := value]> (CacheServer.local_cache_ (peer_state address sB log)).
Proof. by rewrite peer_state_snoc. Qed.

Lemma peer_state_Delete address sB log key :
  CacheServer.local_cache_
    (peer_state address sB
       (log ++ [CallDelete address {| DeleteRequest_key := key |}]))
  = delete key (CacheServer.local_cache_ (peer_state address sB log)).
Proof.
  rewrite peer_state_snoc by done. simpl.
  unfold CacheServer.Delete, CacheServer.delLocal. simpl.
  destruct (CacheServer.local_cache_ _ !! key) eqn:Hk; simpl; [done|].
  by rewrite delete_id.
Qed.

(** X13: when the key's owner is another node, reachable at its address
    and answering with its service handlers, and this process is its only
    client: [set] succeeds and stores the value in the owner's store,
    leaving the local store alone; [get] after it returns the value; and
    after a [del], which succeeds, [get] returns not found. *)
Theorem X13_remote_round_trip s sB key v value owner :
  getNode (CacheServer.hash_ring_ s) key = Returns owner →
  Node.id owner ≠ CacheServer.node_id_ s →
  let address := GrpcClient.getNodeAddress owner in
  let peers := served_by address sB in
  let s1 := (CacheServer.set peers s key v).2 in
  let s2 := (CacheServer.del peers s1 key).2 in
  (CacheServer.set peers s key v).1 = Returns true ∧
  CacheServer.local_cache_ s1 = CacheServer.local_cache_ s ∧
  CacheServer.local_cache_
    (peer_state address sB
       (GrpcClient.issued (CacheServer.grpc_client_ s1))) !! key = Some v ∧
  (CacheServer.get peers s1 key value).1 = Returns (true, v) ∧
  (CacheServer.del peers s1 key).1 = Returns true ∧
  (CacheServer.get peers s2 key value).1 = Returns (false, value).
Proof.
  intros Howner Hne. cbv zeta.
  remember (GrpcClient.getNodeAddress owner) as address eqn:Ha.
  remember (GrpcClient.issued (CacheServer.grpc_client_ s)) as L0 eqn:HL0.
  destruct (set_remote (served_by address sB) s key v owner Howner Hne)
    as (c1 & Hc1 & Hset).
  cbv zeta in Hset. rewrite <-Ha, <-HL0, served_Set in Hset.
  cbn [ok andb SetResponse_success] in Hset.
  rewrite <-HL0 in Hc1. rewrite Hset. cbn [fst snd].
  remember (CacheServer.with_grpc_client s
              (GrpcClient.record_call c1
                 (CallSet address
                    {| SetRequest_key := key; SetRequest_value := v |})))
    as s1 eqn:Hs1.
  assert (GrpcClient.issued (CacheServer.grpc_client_ s1)
          = L0 ++ [CallSet address
                     {| SetRequest_key := key; SetRequest_value := v |}])
    as HL1 by (rewrite Hs1; simpl; by rewrite Hc1).
  assert (getNode (CacheServer.hash_ring_ s1) key = Returns owner) as Howner1
    by by rewrite Hs1.
  assert (Node.id owner ≠ CacheServer.node_id_ s1) as Hne1 by by rewrite Hs1.
  assert (CacheServer.local_cache_ s1 = CacheServer.local_cache_ s) as Hcache
    by by rewrite Hs1.
  destruct (get_remote (served_by address sB) s1 key value owner Howner1 Hne1)
    as (c2 & _ & Hget).
  destruct (del_remote (served_by address sB) s1 key owner Howner1 Hne1)
    as (c3 & Hc3 & Hdel).
  cbv zeta in Hget, Hdel.
  rewrite <-Ha, served_Get, HL1, peer_state_Set, lookup_insert_eq in Hget.
  rewrite <-Ha, served_Delete, HL1, peer_state_Set, lookup_insert_eq in Hdel.
  rewrite bool_decide_eq_true_2 in Hdel by eauto.
  cbn [ok andb GetResponse_found GetResponse_value] in Hget.
  cbn [ok andb DeleteResponse_success] in Hdel.
  rewrite Hget, Hdel, HL1, peer_state_Set, lookup_insert_eq. cbn [fst snd].
  remember (CacheServer.with_grpc_client s1
              (GrpcClient.record_call c3
                 (CallDelete address {| DeleteRequest_key := key |})))
    as s2 eqn:Hs2.
  assert (GrpcClient.issued (CacheServer.grpc_client_ s2)
          = (L0 ++ [CallSet address
                      {| SetRequest_key := key; SetRequest_value := v |}])
            ++ [CallDelete address {| DeleteRequest_key := key |}])
    as HL2 by (rewrite Hs2; simpl; by rewrite Hc3, HL1).
  assert (getNode (CacheServer.hash_ring_ s2) key = Returns owner) as Howner2
    by by rewrite Hs2.
  assert (Node.id owner ≠ CacheServer.node_id_ s2) as Hne2 by by rewrite Hs2.
  destruct (get_remote (served_by address sB) s2 key value owner Howner2 Hne2)
    as (c4 & _ & Hget2).
  cbv zeta in Hget2.
  rewrite <-Ha, served_Get, HL2, peer_state_Delete, lookup_delete_eq in Hget2.
  cbn [ok andb GetResponse_found GetResponse_value] in Hget2.
  by rewrite Hget2.
Qed.

(** ** A node alone on its ring *)

Lemma isLocalKey_sole_member (s : CacheServer.t) key :
  ring_inv (CacheServer.hash_ring_ s) →
  (∀ nid, hasNode (CacheServer.hash_ring_ s) nid = true →
          nid = CacheServer.node_id_ s) →
  CacheServer.isLocalKey s key = true.
Proof.
  intros Hinv Hsole. unfold CacheServer.isLocalKey.
  rewrite getNode_by_successor.
  destruct (successor _ _) as [e|]; [|done].
  destruct (nodes_ (CacheServer.hash_ring_ s) !! e.2) as [n|] eqn:Hn; [|done].
  apply bool_decide_eq_true. rewrite (inv_id _ Hinv _ _ Hn).
  apply Hsole, hasNode_true. by rewrite Hn.
Qed.

(** X14: a node whose ring registers no identifier but its own serves every
    key from its local store: [get], [set] and [del] issue no call,
    whatever the peers would answer.  In particular a node just
    constructed does. *)
Theorem X14_sole_member_serves_locally peers (s : CacheServer.t) ops key :
  CacheServer.hash_ring_ s = run 100 ops →
  (∀ nid, hasNode (CacheServer.hash_ring_ s) nid = true →
          nid = CacheServer.node_id_ s) →
  CacheServer.isLocalKey s key = true ∧
  (∀ value, CacheServer.get peers s key value
            = (Returns (CacheServer.getLocal s key value), s)) ∧
  (∀ value, CacheServer.set peers s key value
            = (Returns true,
               CacheServer.with_local_cache s
                 (<[key := value]> (CacheServer.local_cache_ s)))) ∧
  CacheServer.del peers s key
  = (Returns (CacheServer.delLocal s key).1, (CacheServer.delLocal s key).2).
Proof.
  intros Hring Hsole.
  assert (CacheServer.isLocalKey s key = true) as Hlocal.
  { apply isLocalKey_sole_member; [|done]. rewrite Hring.
    apply ring_inv_run. }
  auto using get_local, set_local, del_local.
Qed.

(** ** The processes that [main] starts *)

Lemma registry_determines_owner vn ops1 ops2 key n1 :
  collision_free vn (added_ids ops1) →
  collision_free vn (added_ids ops2) →
  dom (nodes_ (run vn ops1)) = dom (nodes_ (run vn ops2)) →
  getNode (run vn ops1) key = Returns n1 →
  ∃ n2, getNode (run vn ops2) key = Returns n2 ∧ Node.id n2 = Node.id n1.
Proof.
  intros Hcf1 Hcf2 Hdom. revert n1.
  by apply ring_determined_by_registry.
Qed.

(** What [main] leaves for each accepted identifier. *)
Lemma main_cases NODE_ID s :
  main NODE_ID = Some s →
  ∃ self other1 other2,
    s = CacheServer.addNode
          (CacheServer.addNode
             (CacheServer.new (Node.id self) (Node.host self)
                (Node.grpc_port self) (Node.http_port self)) other1) other2 ∧
    Node.host self = "0.0.0.0" ∧
    ((self, other1, other2)
       = (Node.mk "server1" "0.0.0.0" 50051 9527, server2, server3) ∨
     (self, other1, other2)
       = (Node.mk "server2" "0.0.0.0" 50052 9528, server1, server3) ∨
     (self, other1, other2)
       = (Node.mk "server3" "0.0.0.0" 50053 9529, server1, server2)).
Proof.
  unfold main. cbv zeta.
  destruct (decide (default "server1" NODE_ID = "server1")) as [->|H1].
  { intros [= <-]. eexists (Node.mk "server1" _ _ _), _, _.
    split; [reflexivity|]. split; [done|]. by left. }
  destruct (decide (default "server1" NODE_ID = "server2")) as [->|H2].
  { intros [= <-]. eexists (Node.mk "server2" _ _ _), _, _.
    split; [reflexivity|]. split; [done|]. right. by left. }
  destruct (decide (default "server1" NODE_ID = "server3")) as [->|H3];
    [|done].
  intros [= <-]. eexists (Node.mk "server3" _ _ _), _, _.
  split; [reflexivity|]. split; [done|]. right. by right.
Qed.

Lemma getNode_returns_registered ch key n :
  ring_inv ch → getNode ch key = Returns n →
  nodes_ ch !! Node.id n = Some n.
Proof.
  intros Hinv. rewrite getNode_by_successor.
  destruct (successor _ _) as [e|]; [|done].
  destruct (nodes_ ch !! e.2) as [n'|] eqn:Hn; [|done].
  intros [= ->]. by rewrite (inv_id _ Hinv _ _ Hn).
Qed.

(** The ring of a process started by [main]: a reachable, collision-free
    ring over the three identifiers, on which each identifier is registered
    with its own gRPC port. *)
Lemma main_ring NODE_ID s :
  main NODE_ID = Some s →
  ∃ ops,
    CacheServer.hash_ring_ s = run 100 ops ∧
    collision_free 100 (added_ids ops) ∧
    dom (nodes_ (run 100 ops)) = dom (nodes_ (run 100 cluster_ops)) ∧
    CacheServer.node_id_ s ∈ dom (nodes_ (run 100 cluster_ops)) ∧
    ∀ nid n,
      nodes_ (run 100 ops) !! nid = Some n →
      ∃ n0, nodes_ (run 100 cluster_ops) !! nid = Some n0 ∧
            Node.grpc_port n = Node.grpc_port n0.
Proof.
  intros (self & o1 & o2 & -> & _ & Hcase)%main_cases.
  assert (∀ ids, ids ⊆ added_ids cluster_ops → collision_free 100 ids)
    as Hsub.
  { intros ids Hids.
    by apply (collision_free_subseteq _ _ _ Hids), cluster_collision_free. }
  destruct Hcase as [[= -> -> ->]|[[= -> -> ->]|[= -> -> ->]]];
    [exists [AddNode (Node.mk "server1" "0.0.0.0" 50051 9527);
             AddNode server2; AddNode server3]
    |exists [AddNode (Node.mk "server2" "0.0.0.0" 50052 9528);
             AddNode server1; AddNode server3]
    |exists [AddNode (Node.mk "server3" "0.0.0.0" 50053 9529);
             AddNode server1; AddNode server2]];
    (split; [reflexivity|]);
    cbn [run foldl apply_op addNode nodes_ ConsistentHash_new
         CacheServer.addNode CacheServer.new CacheServer.with_hash_ring
         CacheServer.node_id_ cluster_ops added_ids omap
         Node.id server1 server2 server3];
    rewrite !dom_insert_L, !dom_empty_L;
    (split; [apply Hsub; intros x; simpl; rewrite !elem_of_cons; tauto|]);
    (split; [apply set_eq; intros x;
             rewrite !elem_of_union, !elem_of_singleton; tauto|]);
    (split; [rewrite !elem_of_union, !elem_of_singleton; tauto|]);
    intros nid n; rewrite !lookup_insert, lookup_empty;
    repeat case_decide; intros [= <-]; subst nid;
    (eexists; split; [by simplify_map_eq|done]).
Qed.

Lemma cluster_registry_nonempty : nodes_ (run 100 cluster_ops) ≠ ∅.
Proof.
  cbn [run foldl apply_op addNode nodes_ ConsistentHash_new cluster_ops].
  apply insert_non_empty.
Qed.

Lemma main_owner NODE_ID s key :
  main NODE_ID = Some s →
  ∃ owner n0,
    getNode (CacheServer.hash_ring_ s) key = Returns owner ∧
    getNode (run 100 cluster_ops) key = Returns n0 ∧
    Node.id owner = Node.id n0 ∧
    Node.grpc_port owner = Node.grpc_port n0.
Proof.
  intros (ops & Hring & Hcf & Hdom & _ & Hports)%main_ring.
  pose proof cluster_collision_free as Hcf0.
  pose proof (ring_inv_run 100 cluster_ops) as Hinv0.
  pose proof (registry_determines_owner 100 cluster_ops ops key) as Hdet.
  pose proof (getNode_returns_registered (run 100 cluster_ops) key) as Hreg0.
  pose proof (proj1 (getNode_throws_iff_registry_empty 100 cluster_ops key
                       ltac:(lia) Hcf0)) as Hthrow.
  pose proof cluster_registry_nonempty as Hne.
  pose proof (getNode_successor (run 100 cluster_ops) key Hinv0) as Hsucc.
  pose proof (getNode_empty (run 100 cluster_ops) key) as Hempty.
  rewrite <-Hdom in Hdet. rewrite Hring. clear Hring.
  remember (added_ids cluster_ops) as ids0 eqn:Hids0.
  remember (run 100 cluster_ops) as ring0 eqn:Hring0.
  destruct (getNode ring0 key) as [n0|e] eqn:Hget0.
  - destruct (Hdet n0 Hcf0 Hcf eq_refl eq_refl) as (owner & Hget & Hid).
    exists owner, n0. split; [exact Hget|]. split; [reflexivity|].
    split; [exact Hid|].
    apply getNode_returns_registered in Hget; [|apply ring_inv_run].
    destruct (Hports _ _ Hget) as (n0' & Hn0' & Hport).
    rewrite Hid, (Hreg0 n0 Hinv0 eq_refl) in Hn0'.
    injection Hn0' as <-. exact Hport.
  - exfalso. apply Hne, Hthrow.
    destruct (ring_ ring0) as [|first r] eqn:Hr; [by apply Hempty|].
    destruct Hsucc as (? & ? & ? & Hg & _); [done|discriminate Hg].
Qed.

Lemma setupCluster_node_id s nid :
  CacheServer.node_id_ (setupCluster s nid) = CacheServer.node_id_ s.
Proof. unfold setupCluster. by repeat case_decide. Qed.

Lemma main_node_id NODE_ID s :
  main NODE_ID = Some s →
  CacheServer.node_id_ s = default "server1" NODE_ID.
Proof.
  unfold main. cbv zeta.
  repeat case_decide; intros [= <-]; by rewrite setupCluster_node_id.
Qed.

Lemma main_accepts nid :
  nid = "server1" ∨ nid = "server2" ∨ nid = "server3" →
  is_Some (main (Some nid)).
Proof.
  unfold main. cbv zeta. cbn [default from_option].
  intros [-> | [-> | ->]]; repeat case_decide; try done; by eexists.
Qed.

(** X15: the processes that [main] starts for the accepted node
    identifiers agree on every key: each finds an owner, the owners have the
    same identifier and the same gRPC port, no two processes with different
    identifiers both treat the key as local, and the process started under
    the owner's identifier does treat it as local. *)
Theorem X15_started_processes_agree ida idb sa sb key :
  main ida = Some sa →
  main idb = Some sb →
  ∃ oa ob,
    getNode (CacheServer.hash_ring_ sa) key = Returns oa ∧
    getNode (CacheServer.hash_ring_ sb) key = Returns ob ∧
    Node.id oa = Node.id ob ∧
    Node.grpc_port oa = Node.grpc_port ob ∧
    (CacheServer.isLocalKey sa key = true →
     CacheServer.isLocalKey sb key = true →
     CacheServer.node_id_ sa = CacheServer.node_id_ sb) ∧
    ∃ sc, main (Some (Node.id oa)) = Some sc ∧
          CacheServer.isLocalKey sc key = true.
Proof.
  intros Ha Hb.
  assert (∀ n0, getNode (run 100 cluster_ops) key = Returns n0 →
                is_Some (main (Some (Node.id n0)))) as Haccept.
  { intros n0 Hg0.
    apply getNode_returns_registered in Hg0; [|apply ring_inv_run].
    apply (elem_of_dom_2 (D := gset string)) in Hg0. revert Hg0.
    cbn [run foldl apply_op addNode nodes_ ConsistentHash_new cluster_ops
         Node.id server1 server2 server3].
    rewrite !dom_insert_L, dom_empty_L, !elem_of_union, !elem_of_singleton.
    intros [Hid | [Hid | [Hid | Hemp]]]; [apply main_accepts; tauto..|].
    exfalso. exact (not_elem_of_empty _ Hemp). }
  destruct (main_owner _ _ key Ha) as (oa & n0 & Hga & Hg0 & Hida & Hpa).
  destruct (main_owner _ _ key Hb) as (ob & n0' & Hgb & Hg0' & Hidb & Hpb).
  destruct (Haccept _ Hg0) as [sc Hc].
  destruct (main_owner _ _ key Hc) as (oc & n0'' & Hgc & Hg0'' & Hidc & _).
  pose proof (main_node_id _ _ Hc) as Hsc. cbn [default from_option] in Hsc.
  clear Haccept. remember (run 100 cluster_ops) as ring0 eqn:Hring0.
  rewrite Hg0 in Hg0', Hg0''.
  injection Hg0' as <-. injection Hg0'' as <-.
  exists oa, ob. split; [exact Hga|]. split; [exact Hgb|].
  split; [by rewrite Hida, Hidb|]. split; [by rewrite Hpa, Hpb|]. split.
  - rewrite (isLocalKey_owner _ _ _ Hga), (isLocalKey_owner _ _ _ Hgb).
    intros Hla%bool_decide_eq_true Hlb%bool_decide_eq_true.
    by rewrite <-Hla, <-Hlb, Hida, Hidb.
  - exists sc. rewrite Hida. split; [exact Hc|].
    rewrite (isLocalKey_owner _ _ _ Hgc). apply bool_decide_eq_true.
    by rewrite Hsc, Hidc.
Qed.

(** ** Instances *)

(** X2 at the second label of server2 joining server1. *)
Lemma X2_new_node_owns_its_labels_witness :
  getNode (addNode (run 3 [AddNode server1]) server2)
    (getVirtualNodeKey (Node.id server2) 1)
  = Returns server2.
Proof. apply (X2_new_node_owns_its_labels 3 [AddNode server1] server2 1). lia. Defined.

Lemma small_ring_collision_free :
  collision_free 3 ["server1"; "server2"; "server3"].
Proof.
  apply collision_free_check, (bool_decide_unpack _).
  vm_compute. reflexivity.
Qed.

Lemma small_ring_owner :
  getNode (run 3 [AddNode server1; AddNode server2]) "server1#0"
  = Returns server1.
Proof. vm_compute. reflexivity. Qed.

(** X4 on a ring of server1 and server2 with three virtual nodes each:
    server2 leaves, and the key "server1#0" stays with server1. *)
Lemma X4_removeNode_keeps_other_owners_witness :
  getNode (removeNode (run 3 [AddNode server1; AddNode server2]) "server2")
    "server1#0"
  = Returns server1.
Proof.
  apply (X4_removeNode_keeps_other_owners 3 [AddNode server1; AddNode server2]
           "server2" "server1#0" server1).
  - apply (collision_free_subseteq 3 _ ["server1"; "server2"; "server3"]);
      [|exact small_ring_collision_free].
    intros x Hx. apply elem_of_cons in Hx as [->|Hx]; [left|].
    apply list_elem_of_singleton in Hx as ->. right. left.
  - exact small_ring_owner.
  - discriminate.
Defined.

(** X8 at a label of server1. *)
Lemma X8_getVirtualNodeKey_injective_witness :
  "server1" = "server1" ∧ 7 = 7.
Proof.
  apply (X8_getVirtualNodeKey_injective "server1" 7 "server1" 7).
  reflexivity.
Defined.

(** X5 on rings of three virtual nodes per node: server1 and server2 added
    in one order, and in the other order with server3 joining and leaving
    in between. *)
Lemma X5_ring_independent_of_history_witness :
  ring_ (run 3 [AddNode server1; AddNode server2])
  = ring_ (run 3 [AddNode server2; AddNode server3; AddNode server1;
                  RemoveNode "server3"]) ∧
  ∀ key n1,
    getNode (run 3 [AddNode server1; AddNode server2]) key = Returns n1 →
    ∃ n2, getNode (run 3 [AddNode server2; AddNode server3; AddNode server1;
                          RemoveNode "server3"]) key = Returns n2 ∧
          Node.id n2 = Node.id n1.
Proof.
  apply (X5_ring_independent_of_history 3 [AddNode server1; AddNode server2]
           [AddNode server2; AddNode server3; AddNode server1;
            RemoveNode "server3"]).
  - apply (collision_free_subseteq 3 _ ["server1"; "server2"; "server3"]);
      [|exact small_ring_collision_free].
    intros x Hx. apply elem_of_cons in Hx as [->|Hx]; [left|].
    apply list_elem_of_singleton in Hx as ->. right. left.
  - apply (collision_free_subseteq 3 _ ["server1"; "server2"; "server3"]);
      [|exact small_ring_collision_free].
    intros x Hx. apply elem_of_cons in Hx as [->|Hx]; [right; left|].
    apply elem_of_cons in Hx as [->|Hx]; [right; right; left|].
    apply list_elem_of_singleton in Hx as ->. left.
  - vm_compute. reflexivity.
Defined.

(** X6 on the ring that server1 joined and left. *)
Lemma X6_no_nodes_iff_registry_empty_witness :
  getNode (run 3 [AddNode server1; RemoveNode "server1"]) "user:1"
  = Throws NoNodesAvailable ↔
  nodes_ (run 3 [AddNode server1; RemoveNode "server1"]) = ∅.
Proof.
  apply (X6_no_nodes_iff_registry_empty 3
           [AddNode server1; RemoveNode "server1"] "user:1").
  - lia.
  - apply (collision_free_subseteq 3 _ ["server1"; "server2"; "server3"]);
      [|exact small_ring_collision_free].
    intros x Hx. apply list_elem_of_singleton in Hx as ->. left.
Defined.

Lemma node1_owner_of_user4 :
  getNode (CacheServer.hash_ring_ node1) "user:4" = Returns server2.
Proof. vm_compute. reflexivity. Qed.

(** X11 on server1 of the deployed cluster with its peers down: the key
    "user:4" belongs to server2. *)
Lemma X11_failed_call_fails_operation_witness :
  (CacheServer.get unreachable_peers node1 "user:4" "old").1
  = Returns (false, "old") ∧
  (CacheServer.set unreachable_peers node1 "user:4" "old").1
  = Returns false ∧
  (CacheServer.del unreachable_peers node1 "user:4").1 = Returns false ∧
  CacheServer.local_cache_
    (CacheServer.get unreachable_peers node1 "user:4" "old").2
  = CacheServer.local_cache_ node1 ∧
  CacheServer.local_cache_
    (CacheServer.set unreachable_peers node1 "user:4" "old").2
  = CacheServer.local_cache_ node1 ∧
  CacheServer.local_cache_ (CacheServer.del unreachable_peers node1 "user:4").2
  = CacheServer.local_cache_ node1.
Proof.
  apply (X11_failed_call_fails_operation unreachable_peers node1 "user:4"
           "old" server2).
  - exact node1_owner_of_user4.
  - discriminate.
  - intros log address request. reflexivity.
  - intros log address request. reflexivity.
  - intros log address request. reflexivity.
Defined.

(** X13 on server1 of the deployed cluster, with server2 freshly started
    behind the owner's address. *)
Lemma X13_remote_round_trip_witness :
  (CacheServer.set
     (served_by (GrpcClient.getNodeAddress server2)
        (CacheServer.new "server2" "0.0.0.0" 50052 9528))
     node1 "user:4" "Dana").1 = Returns true ∧
  (CacheServer.get
     (served_by (GrpcClient.getNodeAddress server2)
        (CacheServer.new "server2" "0.0.0.0" 50052 9528))
     (CacheServer.set
        (served_by (GrpcClient.getNodeAddress server2)
           (CacheServer.new "server2" "0.0.0.0" 50052 9528))
        node1 "user:4" "Dana").2
     "user:4" "old").1 = Returns (true, "Dana").
Proof.
  pose proof (X13_remote_round_trip node1
                (CacheServer.new "server2" "0.0.0.0" 50052 9528)
                "user:4" "Dana" "old" server2 node1_owner_of_user4) as H.
  cbv zeta in H.
  destruct H as (Hset & _ & _ & Hget & _); [discriminate|].
  split; [exact Hset|exact Hget].
Defined.

(** X14 on the freshly constructed server1, whose ring holds only
    itself. *)
Lemma X14_sole_member_serves_locally_witness :
  CacheServer.isLocalKey node1_alone "user:4" = true ∧
  (∀ value, CacheServer.get unreachable_peers node1_alone "user:4" value
            = (Returns (CacheServer.getLocal node1_alone "user:4" value),
               node1_alone)) ∧
  (∀ value, CacheServer.set unreachable_peers node1_alone "user:4" value
            = (Returns true,
               CacheServer.with_local_cache node1_alone
                 (<["user:4" := value]>
                    (CacheServer.local_cache_ node1_alone)))) ∧
  CacheServer.del unreachable_peers node1_alone "user:4"
  = (Returns (CacheServer.delLocal node1_alone "user:4").1,
     (CacheServer.delLocal node1_alone "user:4").2).
Proof.
  apply (X14_sole_member_serves_locally unreachable_peers node1_alone
           [AddNode (Node.mk "server1" "0.0.0.0" 50051 9527)] "user:4").
  - apply new_hash_ring.
  - intros nid [n Hn]%hasNode_true. revert Hn.
    cbn [node1_alone CacheServer.new CacheServer.hash_ring_ addNode nodes_
         ConsistentHash_new Node.id CacheServer.node_id_].
    destruct (decide (nid = "server1")) as [->|Hne]; [reflexivity|].
    rewrite lookup_insert_ne by (intros Heq; apply Hne; symmetry; exact Heq).
    rewrite lookup_empty. discriminate.
Defined.

(** X15 on the process started without [NODE_ID] and the one started as
    server2. *)
Lemma X15_started_processes_agree_witness :
  ∃ oa ob,
    getNode (CacheServer.hash_ring_
               (setupCluster (CacheServer.new "server1" "0.0.0.0" 50051 9527)
                  "server1")) "user:4" = Returns oa ∧
    getNode (CacheServer.hash_ring_
               (setupCluster (CacheServer.new "server2" "0.0.0.0" 50052 9528)
                  "server2")) "user:4" = Returns ob ∧
    Node.id oa = Node.id ob ∧
    Node.grpc_port oa = Node.grpc_port ob ∧
    (CacheServer.isLocalKey
       (setupCluster (CacheServer.new "server1" "0.0.0.0" 50051 9527)
          "server1") "user:4" = true →
     CacheServer.isLocalKey
       (setupCluster (CacheServer.new "server2" "0.0.0.0" 50052 9528)
          "server2") "user:4" = true →
     CacheServer.node_id_
       (setupCluster (CacheServer.new "server1" "0.0.0.0" 50051 9527)
          "server1")
     = CacheServer.node_id_
         (setupCluster (CacheServer.new "server2" "0.0.0.0" 50052 9528)
            "server2")) ∧
    ∃ sc, main (Some (Node.id oa)) = Some sc ∧
          CacheServer.isLocalKey sc "user:4" = true.
Proof.
  apply (X15_started_processes_agree None (Some "server2")
           (setupCluster (CacheServer.new "server1" "0.0.0.0" 50051 9527)
              "server1")
           (setupCluster (CacheServer.new "server2" "0.0.0.0" 50052 9528)
              "server2") "user:4").
  - reflexivity.
  - reflexivity.
Defined.

(** * The HTTP front end *)

Import HttpHandler.

(** ** Strings *)

Lemma append_cons c s1 s2 : String c s1 +:+ s2 = String c (s1 +:+ s2).
Proof. reflexivity. Qed.

Lemma append_nil_l s : EmptyString +:+ s = s.
Proof. reflexivity. Qed.

Ltac simpl_append := repeat (rewrite append_cons || rewrite append_nil_l).

Lemma append_assoc (s1 s2 s3 : string) :
  (s1 +:+ s2) +:+ s3 = s1 +:+ s2 +:+ s3.
Proof. induction s1 as [|c s1 IH]; [done|]. simpl_append. by f_equal. Qed.

Lemma chars_append s1 s2 : chars (s1 +:+ s2) = chars s1 ++ chars s2.
Proof.
  induction s1 as [|c s1 IH]; [done|]. simpl_append. simpl. by f_equal.
Qed.

Lemma length_append s1 s2 :
  String.length (s1 +:+ s2) = (String.length s1 + String.length s2)%nat.
Proof.
  induction s1 as [|c s1 IH]; [done|]. simpl_append. simpl. by f_equal.
Qed.

Lemma substring_all s : String.substring 0 (String.length s) s = s.
Proof. induction s as [|c s IH]; simpl; [done|by f_equal]. Qed.

Lemma N_of_ascii_bound c : 0 ≤ Z.of_N (N_of_ascii c) < 256.
Proof.
  split; [lia|].
  destruct c as [[] [] [] [] [] [] [] []]; vm_compute; reflexivity.
Qed.

(** ** [std::getline] *)

(** [read_lines] is the sequence of results of [getline]: the first call
    on a non-empty unread part delivers the head, and the calls on what it
    leaves deliver the tail. *)
Lemma read_lines_getline s :
  s ≠ EmptyString →
  read_lines s = (getline s).1 :: read_lines (getline s).2.
Proof.
  induction s as [|c s IH]; [done|]. intros _. simpl.
  case_decide; [done|].
  destruct s as [|c' s']; [done|].
  rewrite IH by done. by destruct (getline (String c' s')).
Qed.

Lemma read_lines_line line rest :
  LF ∉ chars line →
  read_lines (line +:+ String LF rest) = line :: read_lines rest.
Proof.
  induction line as [|c line IH]; simpl_append; simpl; intros Hline.
  - done.
  - apply not_elem_of_cons in Hline as [Hc Hline].
    rewrite decide_False by done. by rewrite IH.
Qed.

Lemma read_lines_crlf line rest :
  LF ∉ chars line →
  read_lines (line +:+ CRLF +:+ rest)
  = (line +:+ String CR EmptyString) :: read_lines rest.
Proof.
  intros Hline.
  replace (line +:+ CRLF +:+ rest)
    with ((line +:+ String CR EmptyString) +:+ String LF rest)
    by (by rewrite append_assoc).
  apply read_lines_line. rewrite chars_append. simpl.
  rewrite elem_of_app, list_elem_of_singleton. intros [?|?]; [done|].
  discriminate.
Qed.

Lemma read_lines_no_LF s : Forall (λ line, LF ∉ chars line) (read_lines s).
Proof.
  induction s as [|c s IH]; simpl; [constructor|].
  case_decide as Hc.
  - constructor; [|done]. simpl. apply not_elem_of_nil.
  - destruct (read_lines s) as [|line lines].
    + constructor; [|done]. simpl.
      rewrite list_elem_of_singleton. congruence.
    + apply Forall_cons in IH as [Hline Hlines].
      constructor; [|done]. simpl. rewrite elem_of_cons.
      intros [?|?]; congruence.
Qed.

Lemma join_lines_no_LF lines :
  Forall (λ line, LF ∉ chars line) lines → LF ∉ chars (join_lines lines).
Proof.
  induction 1 as [|line lines Hline _ IH]; simpl; [apply not_elem_of_nil|].
  rewrite chars_append, elem_of_app. tauto.
Qed.

Lemma join_read_lines s : LF ∉ chars s → join_lines (read_lines s) = s.
Proof.
  induction s as [|c s IH]; simpl; [done|].
  intros [Hc Hs]%not_elem_of_cons. rewrite decide_False by done.
  specialize (IH Hs).
  destruct (read_lines s) as [|line lines]; simpl in *.
  - by rewrite <-IH.
  - simpl_append. by rewrite IH.
Qed.

(** ** [operator>>] *)

Lemma read_word_word s :
  Forall (λ c, isspace c = false) (chars (read_word s).1).
Proof.
  induction s as [|c s IH]; simpl; [constructor|].
  destruct (isspace c) eqn:Hc; simpl; [constructor|].
  destruct (read_word s) as [w r]. simpl in *. by constructor.
Qed.

Lemma read_word_append w rest :
  Forall (λ c, isspace c = false) (chars w) →
  read_word (w +:+ String " " rest) = (w, String " " rest).
Proof.
  induction w as [|c w IH]; simpl_append; simpl; [done|].
  intros [Hc Hw]%Forall_cons. rewrite Hc, IH by done. done.
Qed.

Lemma extract_word_append w rest :
  word w → extract_word (w +:+ String " " rest) = (w, String " " rest).
Proof.
  intros [Hne Hw]. unfold extract_word.
  destruct w as [|c w]; [done|].
  pose proof Hw as [Hc _]%Forall_cons. simpl_append. simpl. rewrite Hc.
  rewrite <-append_cons. by apply read_word_append.
Qed.

Lemma extract_word_space w rest :
  word w →
  extract_word (String " " (w +:+ String " " rest)) = (w, String " " rest).
Proof. intros Hw. by rewrite <-(extract_word_append w rest Hw). Qed.

(** ** [parseHttpRequest] *)

Lemma skip_headers_block headers body :
  Forall (λ header, header ≠ EmptyString ∧ LF ∉ chars header) headers →
  skip_headers
    (read_lines (foldr (λ header rest, header +:+ CRLF +:+ rest)
                   (CRLF +:+ body) headers))
  = Some (read_lines body).
Proof.
  induction 1 as [|header headers [Hne Hheader] _ IH]; simpl.
  - unfold CRLF. simpl_append. simpl. done.
  - rewrite read_lines_crlf by done. simpl.
    rewrite decide_False; [exact IH|].
    intros [Heq|Heq]; destruct header; simplify_eq/=.
    by destruct header.
Qed.

Lemma word_no_LF w : word w → LF ∉ chars w.
Proof.
  intros [_ Hw] Hin. rewrite Forall_forall in Hw. by specialize (Hw _ Hin).
Qed.

Lemma parse_http_request method path version headers body :
  word method → word path → header_lines version headers →
  parseHttpRequest (http_request method path version headers body)
  = (method, path, join_lines (read_lines body)).
Proof.
  intros Hmethod Hpath [Hversion Hheaders].
  unfold parseHttpRequest, http_request.
  rewrite read_lines_crlf; last first.
  { rewrite !chars_append, !elem_of_app. simpl.
    rewrite elem_of_cons.
    pose proof (word_no_LF _ Hmethod). pose proof (word_no_LF _ Hpath).
    intros [?|[[?|?]|[?|[[?|?]|?]]]]; try done;
      by rewrite ?elem_of_nil in *. }
  cbn [tail]. rewrite (skip_headers_block _ body Hheaders).
  rewrite !append_assoc. simpl_append.
  rewrite (extract_word_append method _ Hmethod).
  rewrite (extract_word_space path _ Hpath). done.
Qed.

Lemma chars_join_read_lines s :
  chars (join_lines (read_lines s)) = filter (λ c, c ≠ LF) (chars s).
Proof.
  induction s as [|c s IH]; simpl; [done|].
  case_decide as Hc.
  - subst c. rewrite filter_cons_False by (by intros ?). exact IH.
  - rewrite filter_cons_True by done. rewrite <-IH.
    by destruct (read_lines s) as [|line lines].
Qed.

Lemma skipws_head s :
  skipws s = EmptyString ∨
  ∃ c rest, skipws s = String c rest ∧ isspace c = false.
Proof.
  induction s as [|c s IH]; simpl; [by left|].
  destruct (isspace c) eqn:Hc; [exact IH|]. right. by exists c, s.
Qed.

Lemma extract_word_fails s :
  (extract_word s).1 = EmptyString → (extract_word s).2 = EmptyString.
Proof.
  unfold extract_word.
  destruct (skipws_head s) as [->|(c & rest & -> & Hc)]; [done|].
  simpl. rewrite Hc. by destruct (read_word rest).
Qed.

(** X16: a request as an HTTP client sends it (request line of method,
    path and version, header lines, an empty line, body; lines closed by
    CR LF) parses to its method and its path, and to its body with every
    line feed taken out; the header lines play no part. *)
Theorem X16_parse_request_of_client method path version headers body :
  word method → word path → header_lines version headers →
  parseHttpRequest (http_request method path version headers body)
  = (method, path, join_lines (read_lines body)) ∧
  chars (join_lines (read_lines body)) = filter (λ c, c ≠ LF) (chars body).
Proof.
  intros Hmethod Hpath Hheaders. split.
  - by apply parse_http_request.
  - apply chars_join_read_lines.
Qed.

(** X17: whatever bytes arrive, the parsed method and path hold no white
    space, the parsed body holds no line feed, and there is no path
    without a method. *)
Theorem X17_parse_results_shape request :
  Forall (λ c, isspace c = false) (chars (parseHttpRequest request).1.1) ∧
  Forall (λ c, isspace c = false) (chars (parseHttpRequest request).1.2) ∧
  (LF ∉ chars (parseHttpRequest request).2) ∧
  ((parseHttpRequest request).1.1 = EmptyString →
   (parseHttpRequest request).1.2 = EmptyString).
Proof.
  unfold parseHttpRequest.
  pose proof (read_lines_no_LF request) as Hlines.
  destruct (read_lines request) as [|line lines]; simpl.
  { repeat split; try constructor. apply not_elem_of_nil. }
  apply Forall_cons in Hlines as [_ Hlines].
  pose proof (read_word_word (skipws line)) as Hmethod.
  pose proof (extract_word_fails line) as Hfail.
  unfold extract_word in *.
  destruct (read_word (skipws line)) as [method first_line].
  pose proof (read_word_word (skipws first_line)) as Hpath.
  destruct (read_word (skipws first_line)) as [path rest] eqn:Hrw.
  simpl in *.
  split; [done|]. split; [done|]. split.
  - assert (∀ ls, Forall (λ l, LF ∉ chars l) ls →
                  ∀ ls', skip_headers ls = Some ls' →
                  Forall (λ l, LF ∉ chars l) ls') as Hskip.
    { induction 1 as [|l ls Hl Hls IH]; simpl; [done|].
      intros ls'. case_decide; [by intros [= <-]|apply IH]. }
    destruct (skip_headers lines) as [body_lines|] eqn:Hbody.
    + apply join_lines_no_LF. by eapply Hskip.
    + apply not_elem_of_nil.
  - intros ->. specialize (Hfail eq_refl). subst first_line.
    simpl in Hrw. by injection Hrw as <- _.
Qed.

(** ** [urlDecode] *)

(** X18: a string without a plus sign, and with no percent sign before its
    last two characters, is decoded to itself, whatever the stream
    extraction does. *)
Theorem X18_urlDecode_plain hex_extract str :
  "+"%char ∉ chars str →
  (∀ pre post, str = pre +:+ String "%" post →
               (String.length post < 2)%nat) →
  urlDecode hex_extract str = str.
Proof.
  induction str as [|c rest IH]; intros Hplus Hpct; [done|].
  apply not_elem_of_cons in Hplus as [Hc Hrest].
  assert (urlDecode hex_extract rest = rest) as Hrec.
  { apply IH; [done|]. intros pre post ->.
    by apply (Hpct (String c pre) post). }
  simpl. case_decide as Hpercent.
  - specialize (Hpct EmptyString rest). subst c.
    specialize (Hpct eq_refl).
    destruct rest as [|c1 [|c2 rest]]; simpl in Hpct; [by rewrite Hrec..|lia].
  - rewrite decide_False by done. by rewrite Hrec.
Qed.

Lemma urlDecode_length hex_extract (n : nat) str :
  (String.length str ≤ n)%nat →
  (String.length (urlDecode hex_extract str) ≤ String.length str)%nat.
Proof.
  revert str. induction n as [|n IH]; intros [|c rest]; simpl;
    [lia..|].
  intros Hn.
  assert (String.length (urlDecode hex_extract rest)
          ≤ String.length rest)%nat as Hrec by (apply IH; lia).
  case_decide.
  - destruct rest as [|c1 [|c2 rest]]; [simpl in *; lia..|].
    destruct (hex_extract _); [|simpl in *; lia].
    assert (String.length (urlDecode hex_extract rest)
            ≤ String.length rest)%nat by (apply IH; simpl in *; lia).
    simpl. lia.
  - case_decide; simpl; lia.
Qed.

(** X19: decoding never lengthens a string, and keeps the length of one
    that holds no percent sign. *)
Theorem X19_urlDecode_never_longer hex_extract str :
  (String.length (urlDecode hex_extract str) ≤ String.length str)%nat ∧
  ("%"%char ∉ chars str →
   String.length (urlDecode hex_extract str) = String.length str).
Proof.
  split; [by apply (urlDecode_length _ (String.length str))|].
  induction str as [|c rest IH]; [done|].
  intros [Hc Hrest]%not_elem_of_cons. simpl.
  rewrite decide_False by done. case_decide; simpl; by rewrite IH.
Qed.

Lemma unreserved_plain c : unreserved c = true → c ≠ "%"%char ∧ c ≠ "+"%char.
Proof. intros Hc. split; intros ->; vm_compute in Hc; discriminate. Qed.

Lemma hex_digit_hex_char n :
  0 ≤ n < 16 → hex_digit (hex_char n) = Some n.
Proof.
  intros Hn.
  assert (n = 0 ∨ n = 1 ∨ n = 2 ∨ n = 3 ∨ n = 4 ∨ n = 5 ∨ n = 6 ∨ n = 7 ∨
          n = 8 ∨ n = 9 ∨ n = 10 ∨ n = 11 ∨ n = 12 ∨ n = 13 ∨ n = 14 ∨
          n = 15) as Hcases by lia.
  repeat (destruct Hcases as [->|Hcases]; [vm_compute; reflexivity|]).
  subst n. vm_compute. reflexivity.
Qed.

Lemma char_of_int_code c : char_of_int (Z.of_N (N_of_ascii c)) = c.
Proof.
  unfold char_of_int. pose proof (N_of_ascii_bound c).
  rewrite Z.mod_small by done. rewrite N2Z.id. apply ascii_N_embedding.
Qed.

Lemma urlDecode_percent_encode hex_extract key :
  reads_hex_pairs hex_extract →
  urlDecode hex_extract (percent_encode key) = key.
Proof.
  intros Hhex. induction key as [|c key IH]; [done|]. simpl.
  destruct (unreserved c) eqn:Hc.
  - apply unreserved_plain in Hc as [Hpercent Hplus]. simpl.
    rewrite !decide_False by done. by rewrite IH.
  - pose proof (N_of_ascii_bound c) as Hbound. simpl.
    rewrite (Hhex _ _ (Z.of_N (N_of_ascii c) / 16)
               (Z.of_N (N_of_ascii c) mod 16)); cycle 1.
    { apply hex_digit_hex_char. split; [apply Z.div_pos; lia|].
      apply Z.div_lt_upper_bound; lia. }
    { apply hex_digit_hex_char. apply Z.mod_pos_bound. lia. }
    rewrite IH. f_equal.
    rewrite <-Z.div_mod by lia. apply char_of_int_code.
Qed.

(** X20: decoding inverts percent-encoding: when the stream extraction
    reads two hexadecimal digits as their number, the decoded form of an
    encoded key is the key, for every byte string. *)
Theorem X20_urlDecode_inverts_percent_encoding hex_extract key :
  reads_hex_pairs hex_extract →
  urlDecode hex_extract (percent_encode key) = key.
Proof. apply urlDecode_percent_encode. Qed.

(** ** [handleRequest] *)

Lemma substring_whole n s :
  (String.length s ≤ n)%nat → String.substring 0 n s = s.
Proof.
  revert n. induction s as [|c s IH]; intros [|n] Hn; simpl in *;
    [done|done|lia|].
  rewrite IH by lia. done.
Qed.

Lemma recv_whole request :
  (String.length request < buffer_size)%nat → recv request = request.
Proof. intros Hn. apply substring_whole. lia. Qed.

Lemma recv_nothing arrived :
  recv arrived = EmptyString ↔ arrived = EmptyString.
Proof.
  split; [|by intros ->]. by destruct arrived.
Qed.

Lemma c_str_whole request : NUL ∉ chars request → c_str request = request.
Proof.
  induction request as [|c s IH]; [done|]. simpl.
  intros [Hc Hs]%not_elem_of_cons. rewrite decide_False by done.
  by rewrite IH.
Qed.

Lemma http_request_nonempty method path version headers body :
  word method → http_request method path version headers body ≠ EmptyString.
Proof. intros [Hne _]. by destruct method. Qed.

(** The handler on a client's request that arrives whole. *)
Lemma handleRequest_of_client hex_extract json peers server
    method path version headers body :
  word method → word path → header_lines version headers →
  arrives_whole (http_request method path version headers body) →
  handleRequest hex_extract json peers server
    (http_request method path version headers body)
  = (Some (respond hex_extract json peers server method path
             (join_lines (read_lines body))).1,
     (respond hex_extract json peers server method path
        (join_lines (read_lines body))).2).
Proof.
  intros Hmethod Hpath Hheaders [Hlength HNUL]. unfold handleRequest.
  cbv zeta. rewrite recv_whole by done.
  rewrite decide_False by (by apply http_request_nonempty).
  rewrite c_str_whole, parse_http_request by done.
  by destruct (respond _ _ _ _ _ _ _).
Qed.

Lemma word_literals :
  word "GET" ∧ word "POST" ∧ word "DELETE" ∧ word "/" ∧ word "/health".
Proof. repeat split; (done || by repeat constructor). Qed.

(** X21: the health path is answered before the method is looked at: a
    request for /health that has arrived in full and reaches the handler
    whole (shorter than the buffer of 4096 bytes, without NUL) is
    answered, under any method, with the health report of this node and
    leaves the server as it was; so no such GET or DELETE reaches a key
    named health. *)
Theorem X21_health_path_shadows_key hex_extract json peers server
    method version headers body :
  word method → header_lines version headers →
  arrives_whole (http_request method "/health" version headers body) →
  handleRequest hex_extract json peers server
    (http_request method "/health" version headers body)
  = (Some (reply_to json 200
             (HealthReply true (CacheServer.node_id_ server))), server).
Proof.
  intros Hmethod Hheaders Hwhole.
  destruct word_literals as (_ & _ & _ & _ & Hhealth).
  rewrite (handleRequest_of_client _ _ _ _ _ _ _ _ _
             Hmethod Hhealth Hheaders Hwhole).
  unfold respond. by rewrite decide_True.
Qed.

Lemma hex_char_cases n :
  0 ≤ n < 16 →
  hex_char n ∈ ["0"; "1"; "2"; "3"; "4"; "5"; "6"; "7"; "8"; "9";
                "A"; "B"; "C"; "D"; "E"; "F"]%char.
Proof.
  intros Hn.
  assert (n = 0 ∨ n = 1 ∨ n = 2 ∨ n = 3 ∨ n = 4 ∨ n = 5 ∨ n = 6 ∨ n = 7 ∨
          n = 8 ∨ n = 9 ∨ n = 10 ∨ n = 11 ∨ n = 12 ∨ n = 13 ∨ n = 14 ∨
          n = 15) as Hcases by lia.
  repeat (destruct Hcases as [->|Hcases];
          [apply (bool_decide_unpack _); vm_compute; reflexivity|]).
  subst n. apply (bool_decide_unpack _). vm_compute. reflexivity.
Qed.

Lemma percent_encode_no_space key :
  Forall (λ c, isspace c = false) (chars (percent_encode key)).
Proof.
  induction key as [|c key IH]; simpl; [constructor|].
  destruct (unreserved c) eqn:Hc; simpl.
  - constructor; [|done].
    destruct (isspace c) eqn:Hs; [|done].
    apply bool_decide_eq_true in Hs.
    rewrite !elem_of_cons, elem_of_nil in Hs.
    destruct Hs as [->|[->|[->|[->|[->|[->|[]]]]]]];
      vm_compute in Hc; discriminate.
  - pose proof (N_of_ascii_bound c) as Hbound.
    assert (∀ n, 0 ≤ n < 16 → isspace (hex_char n) = false) as Hhex.
    { intros n Hn. pose proof (hex_char_cases n Hn) as Hin.
      rewrite !elem_of_cons, elem_of_nil in Hin.
      repeat (destruct Hin as [->|Hin]; [done|]). done. }
    constructor; [done|]. constructor.
    { apply Hhex. split; [apply Z.div_pos; lia|].
      apply Z.div_lt_upper_bound; lia. }
    constructor; [|done]. apply Hhex, Z.mod_pos_bound. lia.
Qed.

Lemma key_path key :
  key ≠ EmptyString → percent_encode key ≠ "health" →
  let path := String "/" (percent_encode key) in
  word path ∧ path ≠ "/health" ∧ (1 < String.length path)%nat ∧
  String.substring 1 (String.length path - 1) path = percent_encode key.
Proof.
  intros Hkey Hhealth path. split; [|split; [|split]].
  - split; [done|]. constructor; [done|]. apply percent_encode_no_space.
  - intros [= Heq]. by apply Hhealth.
  - destruct key as [|c key]; [done|]. unfold path. simpl.
    destruct (unreserved c); simpl; lia.
  - unfold path. simpl. rewrite Nat.sub_0_r. apply substring_all.
Qed.

(** What the [try] block does for GET and DELETE on the path of a key. *)
Lemma respond_get hex_extract json peers server key body :
  reads_hex_pairs hex_extract →
  key ≠ EmptyString → percent_encode key ≠ "health" →
  respond hex_extract json peers server "GET"
    (String "/" (percent_encode key)) body
  = match CacheServer.get peers server key EmptyString with
    | (Returns (true, value), server) =>
        (reply_to json 200 (ValueReply key value), server)
    | (Returns (false, _), server) => (not_found json, server)
    | (Throws _, server) => (internal_error json, server)
    end.
Proof.
  intros Hhex Hkey Hhealth.
  destruct (key_path key Hkey Hhealth) as (_ & Hne & Hlen & Hsub).
  unfold respond. rewrite decide_False by done.
  rewrite decide_False by (by intros [[=] _]).
  rewrite decide_True by done.
  by rewrite Hsub, (urlDecode_percent_encode _ _ Hhex).
Qed.

Lemma respond_delete hex_extract json peers server key body :
  reads_hex_pairs hex_extract →
  key ≠ EmptyString → percent_encode key ≠ "health" →
  respond hex_extract json peers server "DELETE"
    (String "/" (percent_encode key)) body
  = match CacheServer.del peers server key with
    | (Returns success, server) =>
        (createHttpResponse 200 "text/plain" (if success then "1" else "0"),
         server)
    | (Throws _, server) => (internal_error json, server)
    end.
Proof.
  intros Hhex Hkey Hhealth.
  destruct (key_path key Hkey Hhealth) as (_ & Hne & Hlen & Hsub).
  unfold respond. rewrite decide_False by done.
  rewrite decide_False by (by intros [[=] _]).
  rewrite decide_False by (by intros [[=] _]).
  rewrite decide_True by done.
  by rewrite Hsub, (urlDecode_percent_encode _ _ Hhex).
Qed.

(** X22: GET and DELETE requests that have arrived in full and reach the
    handler whole (shorter than the buffer of 4096 bytes, without NUL) for
    a percent-encoded key are [get] and [del] of the key itself: such a GET request for a key, encoded in
    the path, answers 200 with the key and the value that
    [CacheServer::get] finds and 404 when it finds none; such a DELETE
    request answers 200 with 1 or 0 as [CacheServer::del] returns; and the
    server is left as the operation leaves it.  Neither request is
    answered with 500. *)
Theorem X22_http_get_and_delete hex_extract json peers server
    key version headers body :
  reads_hex_pairs hex_extract →
  key ≠ EmptyString → percent_encode key ≠ "health" →
  header_lines version headers →
  arrives_whole
    (http_request "GET" (String "/" (percent_encode key)) version headers
       body) →
  arrives_whole
    (http_request "DELETE" (String "/" (percent_encode key)) version headers
       body) →
  (∃ found value,
     (CacheServer.get peers server key EmptyString).1
     = Returns (found, value) ∧
     handleRequest hex_extract json peers server
       (http_request "GET" (String "/" (percent_encode key)) version headers
          body)
     = (Some (if found then reply_to json 200 (ValueReply key value)
              else not_found json),
        (CacheServer.get peers server key EmptyString).2)) ∧
  (∃ success,
     (CacheServer.del peers server key).1 = Returns success ∧
     handleRequest hex_extract json peers server
       (http_request "DELETE" (String "/" (percent_encode key)) version
          headers body)
     = (Some (createHttpResponse 200 "text/plain"
                (if success then "1" else "0")),
        (CacheServer.del peers server key).2)).
Proof.
  intros Hhex Hkey Hhealth Hheaders Hget Hdelete.
  destruct (key_path key Hkey Hhealth) as (Hpath & _).
  destruct word_literals as (Hword_get & _ & Hword_delete & _).
  destruct (operations_return peers server key EmptyString)
    as ([[found value] Hreturns_get] & _ & [success Hreturns_del]).
  split.
  - exists found, value. split; [done|].
    rewrite (handleRequest_of_client _ _ _ _ _ _ _ _ _
               Hword_get Hpath Hheaders Hget).
    rewrite respond_get by done.
    destruct (CacheServer.get peers server key EmptyString) as [r server'].
    simpl in *. subst r. by destruct found.
  - exists success. split; [done|].
    rewrite (handleRequest_of_client _ _ _ _ _ _ _ _ _
               Hword_delete Hpath Hheaders Hdelete).
    rewrite respond_delete by done.
    destruct (CacheServer.del peers server key) as [r server'].
    simpl in *. by subst r.
Qed.

Lemma with_local_cache_twice (s : CacheServer.t) cache1 cache2 :
  CacheServer.with_local_cache (CacheServer.with_local_cache s cache1) cache2
  = CacheServer.with_local_cache s cache2.
Proof. done. Qed.

Lemma with_local_cache_same (s : CacheServer.t) :
  CacheServer.with_local_cache s (CacheServer.local_cache_ s) = s.
Proof. by destruct s. Qed.

Lemma set_members_local json peers (json_data : Value json) keys :
  ∀ all_success server,
  (∀ key, key ∈ keys → CacheServer.isLocalKey server key = true) →
  set_members json peers json_data keys all_success server
  = (Returns all_success,
     CacheServer.with_local_cache server
       (foldl (λ cache key,
                 <[key := strip_quotes (writeMember json json_data key)]>
                   cache)
          (CacheServer.local_cache_ server) keys)).
Proof.
  induction keys as [|key keys IH]; intros all_success server Hlocal; simpl.
  - by rewrite with_local_cache_same.
  - rewrite set_local by (apply Hlocal; left).
    rewrite IH; [by rewrite with_local_cache_twice|].
    intros key' Hkey'. rewrite isLocalKey_with_local_cache.
    apply Hlocal. by right.
Qed.

Lemma lookup_foldl_insert (f : string → string) keys :
  ∀ (cache : gmap string string) key,
  foldl (λ cache key, <[key := f key]> cache) cache keys !! key
  = if decide (key ∈ keys) then Some (f key) else cache !! key.
Proof.
  induction keys as [|k keys IH]; intros cache key; simpl.
  - done.
  - rewrite IH. destruct (decide (key ∈ keys)) as [Hin|Hnotin].
    + rewrite decide_True by (by right). done.
    + destruct (decide (key = k)) as [->|Hne].
      * rewrite decide_True by left. by rewrite lookup_insert_eq.
      * rewrite decide_False; [by rewrite lookup_insert_ne|].
        rewrite elem_of_cons. tauto.
Qed.

(** What the [try] block does for a POST of members that this node
    serves itself. *)
Lemma respond_post_local hex_extract json peers server body json_data keys :
  parse json body = Some json_data →
  getMemberNames json json_data = Some keys →
  (∀ key, key ∈ keys → CacheServer.isLocalKey server key = true) →
  respond hex_extract json peers server "POST" "/" body
  = (reply_to json 200 (SuccessReply true),
     CacheServer.with_local_cache server
       (foldl (λ cache key,
                 <[key := strip_quotes (writeMember json json_data key)]>
                   cache)
          (CacheServer.local_cache_ server) keys)).
Proof.
  intros Hparse Hkeys Hlocal. unfold respond.
  rewrite decide_False by done. rewrite decide_True by done.
  by rewrite Hparse, Hkeys, set_members_local.
Qed.

(** X23: a POST request to the root path that has arrived in full and
    reaches the handler whole (shorter than the buffer of 4096 bytes,
    without NUL), and whose body jsoncpp reads as an object, every member name of which this node serves itself, stores
    each member under its name, the written value stripped of its quotes,
    and touches no other key; it answers 200 with success true and issues
    no call. *)
Theorem X23_http_post_stores_members hex_extract json peers server
    version headers body json_data keys :
  header_lines version headers →
  arrives_whole (http_request "POST" "/" version headers body) →
  parse json (join_lines (read_lines body)) = Some json_data →
  getMemberNames json json_data = Some keys →
  (∀ key, key ∈ keys → CacheServer.isLocalKey server key = true) →
  (handleRequest hex_extract json peers server
     (http_request "POST" "/" version headers body)).1
  = Some (reply_to json 200 (SuccessReply true)) ∧
  (∀ key,
     CacheServer.local_cache_
       (handleRequest hex_extract json peers server
          (http_request "POST" "/" version headers body)).2 !! key
     = if decide (key ∈ keys)
       then Some (strip_quotes (writeMember json json_data key))
       else CacheServer.local_cache_ server !! key) ∧
  CacheServer.grpc_client_
    (handleRequest hex_extract json peers server
       (http_request "POST" "/" version headers body)).2
  = CacheServer.grpc_client_ server.
Proof.
  intros Hheaders Hwhole Hparse Hkeys Hlocal.
  destruct word_literals as (_ & Hword_post & _ & Hword_root & _).
  rewrite (handleRequest_of_client _ _ _ _ _ _ _ _ _
             Hword_post Hword_root Hheaders Hwhole).
  rewrite (respond_post_local _ _ _ _ _ json_data keys) by done. simpl.
  split; [done|]. split; [|done].
  intros key.
  apply (lookup_foldl_insert
           (λ key, strip_quotes (writeMember json json_data key))).
Qed.

Section frame.
Variable peers : Peers.

Lemma get_frame s key value :
  CacheServer.hash_ring_ (CacheServer.get peers s key value).2
  = CacheServer.hash_ring_ s ∧
  CacheServer.node_id_ (CacheServer.get peers s key value).2
  = CacheServer.node_id_ s ∧
  CacheServer.local_cache_ (CacheServer.get peers s key value).2
  = CacheServer.local_cache_ s.
Proof.
  unfold CacheServer.get. destruct (CacheServer.isLocalKey s key); [done|].
  destruct (getNode _ _); [|done].
  by destruct (GrpcClient.get _ _ _ _ _) as [[??]?].
Qed.

Lemma set_frame s key value :
  CacheServer.hash_ring_ (CacheServer.set peers s key value).2
  = CacheServer.hash_ring_ s ∧
  CacheServer.node_id_ (CacheServer.set peers s key value).2
  = CacheServer.node_id_ s.
Proof.
  unfold CacheServer.set. destruct (CacheServer.isLocalKey s key); [done|].
  destruct (getNode _ _); [|done].
  by destruct (GrpcClient.set _ _ _ _ _) as [??].
Qed.

Lemma del_frame s key :
  CacheServer.hash_ring_ (CacheServer.del peers s key).2
  = CacheServer.hash_ring_ s ∧
  CacheServer.node_id_ (CacheServer.del peers s key).2
  = CacheServer.node_id_ s.
Proof.
  unfold CacheServer.del, CacheServer.delLocal.
  destruct (CacheServer.isLocalKey s key).
  - by destruct (CacheServer.local_cache_ s !! key).
  - destruct (getNode _ _); [|done].
    by destruct (GrpcClient.del _ _ _ _) as [??].
Qed.

Lemma set_members_frame json (json_data : Value json) keys :
  ∀ all_success s,
  CacheServer.hash_ring_ (set_members json peers json_data keys all_success s).2
  = CacheServer.hash_ring_ s ∧
  CacheServer.node_id_ (set_members json peers json_data keys all_success s).2
  = CacheServer.node_id_ s.
Proof.
  induction keys as [|key keys IH]; intros all_success s; simpl; [done|].
  pose proof (set_frame s key
                (strip_quotes (writeMember json json_data key))) as Hset.
  destruct (CacheServer.set peers s key _) as [[success|e] s']; simpl in *.
  - destruct (IH (if success then all_success else false) s') as [-> ->].
    done.
  - done.
Qed.

(** X24: no HTTP request changes the membership: whatever bytes arrive,
    and however many, the handler leaves the hash ring and the node
    identifier as they were; it answers unless nothing has arrived; and it
    changes the local store for no method but POST and DELETE, the method
    being the one parsed from what [recv] delivers. *)
Theorem X24_http_leaves_membership hex_extract json server arrived :
  CacheServer.hash_ring_
    (handleRequest hex_extract json peers server arrived).2
  = CacheServer.hash_ring_ server ∧
  CacheServer.node_id_ (handleRequest hex_extract json peers server arrived).2
  = CacheServer.node_id_ server ∧
  ((handleRequest hex_extract json peers server arrived).1 = None ↔
   arrived = EmptyString) ∧
  ((parseHttpRequest (c_str (recv arrived))).1.1 ≠ "POST" →
   (parseHttpRequest (c_str (recv arrived))).1.1 ≠ "DELETE" →
   CacheServer.local_cache_
     (handleRequest hex_extract json peers server arrived).2
   = CacheServer.local_cache_ server).
Proof.
  unfold handleRequest. cbv zeta.
  pose proof (recv_nothing arrived) as Hnothing.
  destruct (decide (recv arrived = EmptyString)) as [Hnone|Hsome].
  { split; [done|]. split; [done|]. split; [|done].
    split; [intros _; by apply Hnothing|done]. }
  assert (arrived ≠ EmptyString) as Harrived
    by (intros Heq; by apply Hsome, Hnothing).
  destruct (parseHttpRequest (c_str (recv arrived)))
    as [[method path] body].
  cbn [fst snd].
  assert (CacheServer.hash_ring_
            (respond hex_extract json peers server method path body).2
          = CacheServer.hash_ring_ server ∧
          CacheServer.node_id_
            (respond hex_extract json peers server method path body).2
          = CacheServer.node_id_ server ∧
          (method ≠ "POST" → method ≠ "DELETE" →
           CacheServer.local_cache_
             (respond hex_extract json peers server method path body).2
           = CacheServer.local_cache_ server)) as Hrespond.
  { unfold respond.
    destruct (decide (path = "/health")); [done|].
    destruct (decide (method = "POST" ∧ path = "/")) as [[-> ->]|_].
    { destruct (parse json body) as [json_data|]; [|done].
      destruct (getMemberNames json json_data) as [keys|]; [|done].
      pose proof (set_members_frame json json_data keys true server) as Hset.
      destruct (set_members _ _ _ _ _ _) as [[all_success|e] server'];
        simpl in *; by destruct Hset as [-> ->]. }
    destruct (decide (method = "GET" ∧ _)) as [[-> _]|_].
    { pose proof (get_frame server
                    (urlDecode hex_extract
                       (String.substring 1 (String.length path - 1) path))
                    EmptyString) as Hget.
      destruct (CacheServer.get _ _ _ _) as [[[[] value]|e] server'];
        simpl in *; by destruct Hget as (-> & -> & ->). }
    destruct (decide (method = "DELETE" ∧ _)) as [[-> _]|_]; [|done].
    pose proof (del_frame server
                  (urlDecode hex_extract
                     (String.substring 1 (String.length path - 1) path)))
      as Hdel.
    destruct (CacheServer.del _ _ _) as [[success|e] server'];
      simpl in *; by destruct Hdel as [-> ->]. }
  destruct (respond _ _ _ _ _ _ _) as [response server']. simpl in *.
  destruct Hrespond as (-> & -> & Hstore). done.
Qed.

End frame.

(** X25: the quotes that jsoncpp writes around a string are taken off, and
    nothing else is: a value between two double quotes is stored without
    them, whatever it holds; a value that does not start with a double
    quote, or does not end with one, is stored as written. *)
Theorem X25_strip_quotes_of_written_value :
  (∀ s, strip_quotes (String quote (s +:+ String quote EmptyString)) = s) ∧
  (∀ c s, c ≠ quote → strip_quotes (String c s) = String c s) ∧
  (∀ s c, c ≠ quote →
          strip_quotes (s +:+ String c EmptyString)
          = s +:+ String c EmptyString).
Proof.
  assert (∀ s c, back (s +:+ String c EmptyString) = Some c) as Hback.
  { induction s as [|d s IH]; intros c; [done|].
    simpl_append. simpl. rewrite IH.
    by destruct s. }
  split; [|split].
  - intros s. unfold strip_quotes.
    rewrite decide_True; last first.
    { split; [done|]. rewrite <-append_cons. apply Hback. }
    rewrite length_append. simpl.
    replace (String.length s + 1 - 1)%nat with (String.length s) by lia.
    clear. induction s as [|c s IH]; [done|].
    simpl_append. simpl. by f_equal.
  - intros c s Hc. unfold strip_quotes.
    rewrite decide_False; [done|]. by intros [? _].
  - intros s c Hc. unfold strip_quotes.
    destruct (s +:+ String c EmptyString) as [|front rest] eqn:Heq; [done|].
    rewrite decide_False; [done|].
    rewrite <-Heq, Hback. intros [_ [= ->]]. done.
Qed.

(** X26: what is stored over HTTP is read and deleted over HTTP, for
    requests that have arrived in full and reach the handler whole
    (shorter than the buffer of 4096 bytes, without NUL).  After a POST of an object whose member names this node
    serves itself, a GET for one of the names, percent-encoded in the
    path, answers 200 with the name and the stored value and leaves the
    server as it is; a DELETE for it answers 200 with 1; and a GET after
    that answers 404. *)
Theorem X26_http_round_trip hex_extract json peers server
    version headers body json_data keys key :
  reads_hex_pairs hex_extract →
  header_lines version headers →
  arrives_whole (http_request "POST" "/" version headers body) →
  parse json (join_lines (read_lines body)) = Some json_data →
  getMemberNames json json_data = Some keys →
  (∀ key, key ∈ keys → CacheServer.isLocalKey server key = true) →
  key ∈ keys → key ≠ EmptyString → percent_encode key ≠ "health" →
  arrives_whole
    (http_request "GET" (String "/" (percent_encode key)) version headers
       EmptyString) →
  arrives_whole
    (http_request "DELETE" (String "/" (percent_encode key)) version headers
       EmptyString) →
  let handle := handleRequest hex_extract json peers in
  let post_request := http_request "POST" "/" version headers body in
  let get_request :=
    http_request "GET" (String "/" (percent_encode key)) version headers
      EmptyString in
  let delete_request :=
    http_request "DELETE" (String "/" (percent_encode key)) version headers
      EmptyString in
  let stored := (handle server post_request).2 in
  let deleted := (handle stored delete_request).2 in
  handle stored get_request
  = (Some (reply_to json 200
             (ValueReply key
                (strip_quotes (writeMember json json_data key)))), stored) ∧
  (handle stored delete_request).1
  = Some (createHttpResponse 200 "text/plain" "1") ∧
  (handle deleted get_request).1 = Some (not_found json).
Proof.
  intros Hhex Hheaders Hpost Hparse Hkeys Hlocal Hkey Hne Hhealth Hget
    Hdelete.
  destruct (key_path key Hne Hhealth) as (Hpath & _).
  destruct word_literals as (Hword_get & Hword_post & Hword_delete
                             & Hword_root & _).
  cbv zeta.
  rewrite (handleRequest_of_client _ _ _ _ _ _ _ _ _
             Hword_post Hword_root Hheaders Hpost).
  rewrite (respond_post_local _ _ _ _ _ json_data keys) by done.
  cbn [fst snd].
  set (cache := foldl _ _ keys).
  assert (cache !! key = Some (strip_quotes (writeMember json json_data key)))
    as Hcache.
  { unfold cache.
    rewrite (lookup_foldl_insert
               (λ key, strip_quotes (writeMember json json_data key))).
    by rewrite decide_True. }
  set (stored := CacheServer.with_local_cache server cache).
  assert (CacheServer.isLocalKey stored key = true) as Hstored.
  { unfold stored. rewrite isLocalKey_with_local_cache. by apply Hlocal. }
  assert (handleRequest hex_extract json peers stored
            (http_request "DELETE" (String "/" (percent_encode key)) version
               headers EmptyString)
          = (Some (createHttpResponse 200 "text/plain" "1"),
             CacheServer.with_local_cache stored (delete key cache)))
    as Hdeleted.
  { rewrite (handleRequest_of_client _ _ _ _ _ _ _ _ _
               Hword_delete Hpath Hheaders Hdelete).
    rewrite respond_delete by done.
    rewrite del_local by done. unfold CacheServer.delLocal.
    change (CacheServer.local_cache_ stored) with cache.
    by rewrite Hcache. }
  split; [|split].
  - rewrite (handleRequest_of_client _ _ _ _ _ _ _ _ _
               Hword_get Hpath Hheaders Hget).
    rewrite respond_get by done.
    rewrite get_local by done. unfold CacheServer.getLocal.
    change (CacheServer.local_cache_ stored) with cache.
    by rewrite Hcache.
  - by rewrite Hdeleted.
  - rewrite Hdeleted. cbn [snd].
    rewrite (handleRequest_of_client _ _ _ _ _ _ _ _ _
               Hword_get Hpath Hheaders Hget).
    rewrite respond_get by done.
    rewrite get_local by (by rewrite isLocalKey_with_local_cache).
    unfold CacheServer.getLocal.
    change (CacheServer.local_cache_
              (CacheServer.with_local_cache stored (delete key cache)))
      with (delete key cache).
    by rewrite lookup_delete_eq.
Qed.

(** ** Instances *)

Lemma hex_pair_reads : reads_hex_pairs hex_pair.
Proof. intros c1 c2 h l H1 H2. unfold hex_pair. by rewrite H1, H2. Qed.

Lemma usual_header_lines : header_lines "HTTP/1.1" usual_headers.
Proof.
  split; [by apply (bool_decide_unpack _)|].
  repeat constructor; (done || by apply (bool_decide_unpack _)).
Qed.

Lemma whole_check request :
  (String.length request <? buffer_size)%nat = true →
  bool_decide (NUL ∉ chars request) = true →
  arrives_whole request.
Proof.
  intros Hlength HNUL. split; [by apply Nat.ltb_lt|].
  by apply bool_decide_eq_true in HNUL.
Qed.

Lemma node1_alone_local key : CacheServer.isLocalKey node1_alone key = true.
Proof.
  apply isLocalKey_sole_member.
  - unfold node1_alone. rewrite new_hash_ring. apply ring_inv_run.
  - intros nid [n Hn]%hasNode_true. revert Hn.
    cbn [node1_alone CacheServer.new CacheServer.hash_ring_ addNode nodes_
         ConsistentHash_new Node.id CacheServer.node_id_].
    destruct (decide (nid = "server1")) as [->|Hne]; [reflexivity|].
    rewrite lookup_insert_ne by (intros Heq; apply Hne; symmetry; exact Heq).
    rewrite lookup_empty. discriminate.
Qed.

(** X18 at a string that ends in a percent sign. *)
Lemma X18_urlDecode_plain_witness : urlDecode hex_pair "100%" = "100%".
Proof.
  apply (X18_urlDecode_plain hex_pair "100%").
  - by apply (bool_decide_unpack _).
  - intros [|c1 [|c2 pre]] post Heq; [discriminate Heq..|].
    apply (f_equal String.length) in Heq. simpl_append.
    rewrite !append_cons in Heq. simpl in Heq.
    rewrite length_append in Heq. simpl in Heq. lia.
Defined.

(** X20 at a key with a space, a plus sign and a percent sign. *)
Lemma X20_urlDecode_inverts_percent_encoding_witness :
  urlDecode hex_pair (percent_encode "user 1+%") = "user 1+%".
Proof.
  apply (X20_urlDecode_inverts_percent_encoding hex_pair "user 1+%").
  exact hex_pair_reads.
Defined.

(** X16 at a POST request with two header lines and a body of two lines. *)
Lemma X16_parse_request_of_client_witness :
  parseHttpRequest
    (http_request "POST" "/" "HTTP/1.1" usual_headers
       ("{" +:+ String LF "}"))
  = ("POST", "/", join_lines (read_lines ("{" +:+ String LF "}"))) ∧
  chars (join_lines (read_lines ("{" +:+ String LF "}")))
  = filter (λ c, c ≠ LF) (chars ("{" +:+ String LF "}")).
Proof.
  apply (X16_parse_request_of_client "POST" "/" "HTTP/1.1" usual_headers
           ("{" +:+ String LF "}")).
  - split; [discriminate|]. repeat constructor.
  - split; [discriminate|]. repeat constructor.
  - exact usual_header_lines.
Defined.

(** X21 at a DELETE request for /health. *)
Lemma X21_health_path_shadows_key_witness :
  handleRequest hex_pair dana_json unreachable_peers node1_alone
    (http_request "DELETE" "/health" "HTTP/1.1" usual_headers EmptyString)
  = (Some (reply_to dana_json 200
             (HealthReply true (CacheServer.node_id_ node1_alone))),
     node1_alone).
Proof.
  apply (X21_health_path_shadows_key hex_pair dana_json unreachable_peers
           node1_alone "DELETE" "HTTP/1.1" usual_headers EmptyString).
  - split; [discriminate|]. repeat constructor.
  - exact usual_header_lines.
  - apply whole_check; vm_compute; reflexivity.
Defined.

(** X22 at the key "user 1", sent as user%201, on a node alone. *)
Lemma X22_http_get_and_delete_witness :
  (∃ found value,
     (CacheServer.get unreachable_peers node1_alone "user 1" EmptyString).1
     = Returns (found, value) ∧
     handleRequest hex_pair dana_json unreachable_peers node1_alone
       (http_request "GET" (String "/" (percent_encode "user 1")) "HTTP/1.1"
          usual_headers EmptyString)
     = (Some (if found then reply_to dana_json 200 (ValueReply "user 1" value)
              else not_found dana_json),
        (CacheServer.get unreachable_peers node1_alone "user 1"
           EmptyString).2)) ∧
  (∃ success,
     (CacheServer.del unreachable_peers node1_alone "user 1").1
     = Returns success ∧
     handleRequest hex_pair dana_json unreachable_peers node1_alone
       (http_request "DELETE" (String "/" (percent_encode "user 1"))
          "HTTP/1.1" usual_headers EmptyString)
     = (Some (createHttpResponse 200 "text/plain"
                (if success then "1" else "0")),
        (CacheServer.del unreachable_peers node1_alone "user 1").2)).
Proof.
  apply (X22_http_get_and_delete hex_pair dana_json unreachable_peers
           node1_alone "user 1" "HTTP/1.1" usual_headers EmptyString).
  - exact hex_pair_reads.
  - discriminate.
  - intros Heq. vm_compute in Heq. discriminate Heq.
  - exact usual_header_lines.
  - apply whole_check; vm_compute; reflexivity.
  - apply whole_check; vm_compute; reflexivity.
Defined.

(** X23 at a POST of one member to a node alone. *)
Lemma X23_http_post_stores_members_witness :
  (handleRequest hex_pair dana_json unreachable_peers node1_alone
     (http_request "POST" "/" "HTTP/1.1" usual_headers dana_document)).1
  = Some (reply_to dana_json 200 (SuccessReply true)) ∧
  CacheServer.local_cache_
    (handleRequest hex_pair dana_json unreachable_peers node1_alone
       (http_request "POST" "/" "HTTP/1.1" usual_headers dana_document)).2
    !! "user:4"
  = Some "Dana".
Proof.
  destruct (X23_http_post_stores_members hex_pair dana_json unreachable_peers
              node1_alone "HTTP/1.1" usual_headers dana_document
              [("user:4", quoted "Dana")] ["user:4"])
    as (Hreply & Hstore & _).
  - exact usual_header_lines.
  - apply whole_check; vm_compute; reflexivity.
  - vm_compute. reflexivity.
  - reflexivity.
  - intros key _. apply node1_alone_local.
  - split; [exact Hreply|]. rewrite Hstore. reflexivity.
Defined.

(** X26 at a POST of one member to a node alone, then GET and DELETE. *)
Lemma X26_http_round_trip_witness :
  handleRequest hex_pair dana_json unreachable_peers
    (handleRequest hex_pair dana_json unreachable_peers node1_alone
       (http_request "POST" "/" "HTTP/1.1" usual_headers dana_document)).2
    (http_request "GET" (String "/" (percent_encode "user:4")) "HTTP/1.1"
       usual_headers EmptyString)
  = (Some (reply_to dana_json 200 (ValueReply "user:4" "Dana")),
     (handleRequest hex_pair dana_json unreachable_peers node1_alone
        (http_request "POST" "/" "HTTP/1.1" usual_headers dana_document)).2).
Proof.
  destruct (X26_http_round_trip hex_pair dana_json unreachable_peers
              node1_alone "HTTP/1.1" usual_headers dana_document
              [("user:4", quoted "Dana")] ["user:4"] "user:4")
    as (Hget & _).
  - exact hex_pair_reads.
  - exact usual_header_lines.
  - apply whole_check; vm_compute; reflexivity.
  - vm_compute. reflexivity.
  - reflexivity.
  - intros key _. apply node1_alone_local.
  - left.
  - discriminate.
  - intros Heq. vm_compute in Heq. discriminate Heq.
  - apply whole_check; vm_compute; reflexivity.
  - apply whole_check; vm_compute; reflexivity.
  - exact Hget.
Defined.
